(** * secure-pass-manager: vault access control and credential cipher

    A shallow embedding of the server handlers of the password manager
    ([server/src/handlers/vault-permissions.ts], [vaults.ts],
    [categories.ts], [credential-items.ts], [users.ts], [auth.ts]) over the five
    relations of [server/src/db/schema.ts], and the properties of the
    access-control core and of the per-field cipher.

    Conventions of the embedding.
    - A table is the list of its rows in the order a scan returns them;
      [db.select().from(t).where(c)] is [filter c t], [rows[0]] is the head,
      [insert] appends, [update] rewrites rows where they stand, [delete]
      filters.  (The store does not fix the order of a scan after an
      [update]; where a table was updated, read the statements as
      statements about its rows.)
      The schema declares no foreign key and no unique constraint besides
      the primary keys and [users.email], so no statement fails on one.
    - A [serial] column draws from a per-table sequence kept in the state.
    - A handler that only reads is a function of the state; a handler that
      writes returns its outcome and the state it leaves behind (the
      handlers open no transaction, so the writes made before a [throw]
      stay).
    - [Promise<T>] is [Outcome T]: resolved with a value, or rejected with
      the message of the [Error] thrown.
    - Text is a [string] of bytes, the UTF-8 form of the JS string; a
      surrogate without its partner is held as the three bytes of its code
      unit, and [utf8_write] gives what the cipher, a [Buffer] and the store
      read of it.
    - The store's errors are named by their SQLSTATE.  A look-up by an id
      outside int4 is rejected (22003); the id of the caller comes from the
      session and is a user's id.  What the store refuses of a written row
      (a text with U+0000, a number outside int4) is not modelled: the
      statements about writes say which values they are about.
    - [defaultNow()] and [new Date()] read a clock the caller passes as
      [now]; [crypto.randomBytes] results are passed in by the caller. *)

From Stdlib Require Import List ZArith Bool String Ascii Lia PeanoNat DecimalString.
From Stdlib Require Import Sorted Permutation.
Import ListNotations.

Local Open Scope string_scope.
Local Open Scope Z_scope.
Local Open Scope list_scope.

(** ** Outcomes of asynchronous handlers *)

Inductive Outcome (A : Type) : Type :=
| Ok (a : A)
| Throw (msg : string).

Arguments Ok {A} a.
Arguments Throw {A} msg.

Definition bindO {A B : Type} (o : Outcome A) (k : A -> Outcome B) : Outcome B :=
  match o with
  | Ok a => k a
  | Throw m => Throw m
  end.

Notation "'await' x <- c ; k" := (bindO c (fun x => k))
  (at level 61, x binder, c at next level, right associativity).

(** [items.map(f)] where [f] may throw: the first throw rejects the whole. *)
Fixpoint mapO {A B : Type} (f : A -> Outcome B) (l : list A) : Outcome (list B) :=
  match l with
  | [] => Ok []
  | x :: xs =>
      await y <- f x;
      await ys <- mapO f xs;
      Ok (y :: ys)
  end.

(** ** Schema: enums and rows *)

Inductive UserRole : Type := role_admin | role_user.

Inductive ItemType : Type := password | credit_card | secure_note | software_license.

Inductive VaultPermission : Type := read | write | admin.

Definition VaultPermission_eqb (a b : VaultPermission) : bool :=
  match a, b with
  | read, read | write, write | admin, admin => true
  | _, _ => false
  end.

Definition ItemType_eqb (a b : ItemType) : bool :=
  match a, b with
  | password, password | credit_card, credit_card
  | secure_note, secure_note | software_license, software_license => true
  | _, _ => false
  end.

(** The text of an enum value, as the driver returns it. *)
Definition permission_text (p : VaultPermission) : string :=
  match p with
  | read => "read"
  | write => "write"
  | admin => "admin"
  end.

Module User.
Record t : Type := mk {
  id : Z;
  email : string;
  full_name : string;
  role : UserRole;
  password_hash : string;
  is_active : bool;
  created_at : Z;
  updated_at : Z
}.
End User.

Module Vault.
Record t : Type := mk {
  id : Z;
  name : string;
  description : option string;
  owner_id : Z;
  is_shared : bool;
  created_at : Z;
  updated_at : Z
}.
End Vault.

Module Category.
Record t : Type := mk {
  id : Z;
  name : string;
  description : option string;
  color : option string;
  vault_id : Z;
  created_at : Z;
  updated_at : Z
}.
End Category.

Module CredentialItem.
Record t : Type := mk {
  id : Z;
  title : string;
  type : ItemType;
  vault_id : Z;
  category_id : option Z;
  website_url : option string;
  username : option string;
  password_encrypted : option string;
  notes_encrypted : option string;
  card_number_encrypted : option string;
  card_holder_name : option string;
  card_expiry_date : option string;
  card_cvv_encrypted : option string;
  license_key_encrypted : option string;
  license_email : option string;
  created_by : Z;
  created_at : Z;
  updated_at : Z
}.
End CredentialItem.

Module VaultUserPermission.
Record t : Type := mk {
  id : Z;
  vault_id : Z;
  user_id : Z;
  permission : VaultPermission;
  granted_by : Z;
  created_at : Z
}.
End VaultUserPermission.

(** ** The relational store *)

Record DB : Type := mkDB {
  usersTable : list User.t;
  vaultsTable : list Vault.t;
  categoriesTable : list Category.t;
  credentialItemsTable : list CredentialItem.t;
  vaultUserPermissionsTable : list VaultUserPermission.t;
  users_id_seq : Z;
  vaults_id_seq : Z;
  categories_id_seq : Z;
  credential_items_id_seq : Z;
  vault_user_permissions_id_seq : Z
}.

(** The store right after [createDB]: empty tables, sequences at 1. *)
Definition emptyDB : DB := mkDB [] [] [] [] [] 1 1 1 1 1.

Definition set_usersTable (db : DB) (t : list User.t) (s : Z) : DB :=
  mkDB t (vaultsTable db) (categoriesTable db) (credentialItemsTable db)
       (vaultUserPermissionsTable db)
       s (vaults_id_seq db) (categories_id_seq db)
       (credential_items_id_seq db) (vault_user_permissions_id_seq db).

Definition set_vaultsTable (db : DB) (t : list Vault.t) (s : Z) : DB :=
  mkDB (usersTable db) t (categoriesTable db) (credentialItemsTable db)
       (vaultUserPermissionsTable db)
       (users_id_seq db) s (categories_id_seq db)
       (credential_items_id_seq db) (vault_user_permissions_id_seq db).

Definition set_categoriesTable (db : DB) (t : list Category.t) (s : Z) : DB :=
  mkDB (usersTable db) (vaultsTable db) t (credentialItemsTable db)
       (vaultUserPermissionsTable db)
       (users_id_seq db) (vaults_id_seq db) s
       (credential_items_id_seq db) (vault_user_permissions_id_seq db).

Definition set_credentialItemsTable (db : DB) (t : list CredentialItem.t) (s : Z) : DB :=
  mkDB (usersTable db) (vaultsTable db) (categoriesTable db) t
       (vaultUserPermissionsTable db)
       (users_id_seq db) (vaults_id_seq db) (categories_id_seq db)
       s (vault_user_permissions_id_seq db).

Definition set_vaultUserPermissionsTable (db : DB) (t : list VaultUserPermission.t) (s : Z) : DB :=
  mkDB (usersTable db) (vaultsTable db) (categoriesTable db)
       (credentialItemsTable db) t
       (users_id_seq db) (vaults_id_seq db) (categories_id_seq db)
       (credential_items_id_seq db) s.

(** [rows.length === 0 ? ... : rows[0]] *)
Definition first_row {A : Type} (rows : list A) : option A :=
  match rows with
  | [] => None
  | r :: _ => Some r
  end.

(** [a !== 'lit'] for [a : string | null] *)
Definition strict_neq (a : option string) (lit : string) : bool :=
  match a with
  | Some s => negb (String.eqb s lit)
  | None => true
  end.

(** ** Text

    A text value is held as bytes: the UTF-8 form of the JS string, in
    which a surrogate without its partner, which has no UTF-8 form of its
    own, is held as the three bytes its code unit would take ([ED], then
    [A0] to [BF], then one more).  Every JS string has one such form. *)

Definition bytes : Type := list ascii.

Definition utf8_of_code_point (cp : N) : bytes :=
  map ascii_of_N
    (if cp <? 0x80 then [cp]
     else if cp <? 0x800 then [0xC0 + cp / 0x40; 0x80 + cp mod 0x40]
     else if cp <? 0x10000
          then [0xE0 + cp / 0x1000; 0x80 + (cp / 0x40) mod 0x40; 0x80 + cp mod 0x40]
          else [0xF0 + cp / 0x40000; 0x80 + (cp / 0x1000) mod 0x40;
                0x80 + (cp / 0x40) mod 0x40; 0x80 + cp mod 0x40])%N.

(** U+FFFD, written in place of what has no UTF-8 form *)
Definition replacement_character : bytes := utf8_of_code_point 0xFFFD.

(** The first two bytes of a surrogate held alone *)
Definition is_surrogate_lead (b b1 : ascii) : bool :=
  ((N_of_ascii b =? 0xED) && (0xA0 <=? N_of_ascii b1))%N.

(** The bytes the runtime writes for a string ([Buffer.from(s)],
    [cipher.update(s, 'utf8', ...)], a parameter sent to the store): its
    UTF-8 form, with U+FFFD for each surrogate without its partner. *)
Fixpoint utf8_write (s : bytes) : bytes :=
  match s with
  | [] => []
  | b :: rest =>
      match rest with
      | b1 :: _ :: rest' =>
          if is_surrogate_lead b b1 then replacement_character ++ utf8_write rest'
          else b :: utf8_write rest
      | _ => b :: utf8_write rest
      end
  end.

Fixpoint has_lone_surrogate_bytes (s : bytes) : bool :=
  match s with
  | [] => false
  | b :: rest =>
      match rest with
      | b1 :: _ => is_surrogate_lead b b1 || has_lone_surrogate_bytes rest
      | [] => false
      end
  end.

Definition has_lone_surrogate (s : string) : bool :=
  has_lone_surrogate_bytes (list_ascii_of_string s).

(** The text that was written: what a reader of the bytes gets back. *)
Definition text_written (s : string) : string :=
  string_of_list_ascii (utf8_write (list_ascii_of_string s)).

(** ** What the store rejects

    An [integer] column is an int4.  A query that looks a row up by a number
    outside that range is rejected by the store; the handler rethrows the
    driver's error, which is named here by its SQLSTATE. *)
Definition in_int4 (n : Z) : bool :=
  (-2147483648 <=? n) && (n <=? 2147483647).

Definition numeric_value_out_of_range : string := "22003".

Definition in_int4_opt (n : option Z) : bool :=
  match n with
  | Some k => in_int4 k
  | None => true
  end.

(** Text holding U+0000, which the store refuses in a [text] column. *)
Definition has_nul (s : string) : bool :=
  existsb (Ascii.eqb Ascii.zero) (list_ascii_of_string s).

(** A text the store takes and gives back as it is: without U+0000, and
    without a surrogate alone, which would reach the store as U+FFFD. *)
Definition text_kept (s : string) : bool :=
  negb (has_nul s) && negb (has_lone_surrogate s).

Definition text_kept_opt (s : option string) : bool :=
  match s with
  | Some t => text_kept t
  | None => true
  end.

(** The same for a field of a patch. *)
Definition text_kept_patch (s : option (option string)) : bool :=
  match s with
  | Some v => text_kept_opt v
  | None => true
  end.

(** A value the cipher gives back as it is: text without a surrogate
    alone.  (It reaches the store as hex text.) *)
Definition secret_kept (s : option string) : bool :=
  match s with
  | Some t => negb (has_lone_surrogate t)
  | None => true
  end.

Definition secret_kept_patch (s : option (option string)) : bool :=
  match s with
  | Some v => secret_kept v
  | None => true
  end.

(** ** Inputs, after validation at the boundary ([schema.ts]) *)

Module CreateVaultPermissionInput.
Record t : Type := mk {
  vault_id : Z;
  user_id : Z;
  permission : VaultPermission
}.
End CreateVaultPermissionInput.

Module UpdateVaultPermissionInput.
Record t : Type := mk {
  id : Z;
  permission : VaultPermission
}.
End UpdateVaultPermissionInput.

Module CreateVaultInput.
Record t : Type := mk {
  name : string;
  description : option string;
  is_shared : bool
}.
End CreateVaultInput.

(** An optional key is [None] when absent ([undefined]); a nullable optional
    key is [Some None] when present and [null]. *)
Module UpdateVaultInput.
Record t : Type := mk {
  id : Z;
  name : option string;
  description : option (option string);
  is_shared : option bool
}.
End UpdateVaultInput.

Module CreateCategoryInput.
Record t : Type := mk {
  name : string;
  description : option string;
  color : option string;
  vault_id : Z
}.
End CreateCategoryInput.

Module UpdateCategoryInput.
Record t : Type := mk {
  id : Z;
  name : option string;
  description : option (option string);
  color : option (option string)
}.
End UpdateCategoryInput.

Module CreateCredentialItemInput.
Record t : Type := mk {
  title : string;
  type : ItemType;
  vault_id : Z;
  category_id : option Z;
  website_url : option string;
  username : option string;
  password : option string;
  notes : option string;
  card_number : option string;
  card_holder_name : option string;
  card_expiry_date : option string;
  card_cvv : option string;
  license_key : option string;
  license_email : option string
}.
End CreateCredentialItemInput.

Module UpdateCredentialItemInput.
Record t : Type := mk {
  id : Z;
  title : option string;
  category_id : option (option Z);
  website_url : option (option string);
  username : option (option string);
  password : option (option string);
  notes : option (option string);
  card_number : option (option string);
  card_holder_name : option (option string);
  card_expiry_date : option (option string);
  card_cvv : option (option string);
  license_key : option (option string);
  license_email : option (option string)
}.
End UpdateCredentialItemInput.

Module CreateUserInput.
Record t : Type := mk {
  email : string;
  full_name : string;
  role : UserRole;
  password : string
}.
End CreateUserInput.

Module UpdateUserInput.
Record t : Type := mk {
  id : Z;
  email : option string;
  full_name : option string;
  role : option UserRole;
  is_active : option bool
}.
End UpdateUserInput.

Module SearchItemsInput.
Record t : Type := mk {
  vault_id : option Z;
  category_id : option (option Z);
  type : option ItemType;
  query : option string
}.
End SearchItemsInput.

(** ** Values of a credential item that come back as they are

    The clear columns of an item are texts and one reference to a category,
    which the store has to take. *)
Definition create_item_accepted (input : CreateCredentialItemInput.t) : bool :=
  text_kept (CreateCredentialItemInput.title input)
  && in_int4_opt (CreateCredentialItemInput.category_id input)
  && text_kept_opt (CreateCredentialItemInput.website_url input)
  && text_kept_opt (CreateCredentialItemInput.username input)
  && text_kept_opt (CreateCredentialItemInput.card_holder_name input)
  && text_kept_opt (CreateCredentialItemInput.card_expiry_date input)
  && text_kept_opt (CreateCredentialItemInput.license_email input).

Definition update_item_accepted (input : UpdateCredentialItemInput.t) : bool :=
  text_kept_opt (UpdateCredentialItemInput.title input)
  && match UpdateCredentialItemInput.category_id input with
     | Some c => in_int4_opt c
     | None => true
     end
  && text_kept_patch (UpdateCredentialItemInput.website_url input)
  && text_kept_patch (UpdateCredentialItemInput.username input)
  && text_kept_patch (UpdateCredentialItemInput.card_holder_name input)
  && text_kept_patch (UpdateCredentialItemInput.card_expiry_date input)
  && text_kept_patch (UpdateCredentialItemInput.license_email input).

(** The sensitive values, which the cipher gives back as they are when
    they hold no surrogate alone. *)
Definition create_item_secrets_kept (input : CreateCredentialItemInput.t) : bool :=
  secret_kept (CreateCredentialItemInput.password input)
  && secret_kept (CreateCredentialItemInput.notes input)
  && secret_kept (CreateCredentialItemInput.card_number input)
  && secret_kept (CreateCredentialItemInput.card_cvv input)
  && secret_kept (CreateCredentialItemInput.license_key input).

Definition update_item_secrets_kept (input : UpdateCredentialItemInput.t) : bool :=
  secret_kept_patch (UpdateCredentialItemInput.password input)
  && secret_kept_patch (UpdateCredentialItemInput.notes input)
  && secret_kept_patch (UpdateCredentialItemInput.card_number input)
  && secret_kept_patch (UpdateCredentialItemInput.card_cvv input)
  && secret_kept_patch (UpdateCredentialItemInput.license_key input).

(** ** vault-permissions.ts *)

Module VaultPermissions.

Definition getUserPermissionForVault (vaultId userId : Z) (db : DB)
  : Outcome (option string) :=
  if negb (in_int4 vaultId) then Throw numeric_value_out_of_range
  else
    let vault := filter (fun v => Vault.id v =? vaultId) (vaultsTable db) in
    match vault with
    | [] => Throw "Vault not found"
    | v0 :: _ =>
        if Vault.owner_id v0 =? userId then Ok (Some "owner")
        else
          let permissions :=
            filter (fun p => (VaultUserPermission.vault_id p =? vaultId)
                             && (VaultUserPermission.user_id p =? userId))
                   (vaultUserPermissionsTable db) in
          match permissions with
          | [] => Ok None
          | p0 :: _ => Ok (Some (permission_text (VaultUserPermission.permission p0)))
          end
    end.

Definition with_permission (p : VaultUserPermission.t) (level : VaultPermission)
  : VaultUserPermission.t :=
  VaultUserPermission.mk (VaultUserPermission.id p) (VaultUserPermission.vault_id p)
    (VaultUserPermission.user_id p) level (VaultUserPermission.granted_by p)
    (VaultUserPermission.created_at p).

Definition createVaultPermission (input : CreateVaultPermissionInput.t)
  (grantedByUserId now : Z) (db : DB) : Outcome VaultUserPermission.t * DB :=
  match getUserPermissionForVault (CreateVaultPermissionInput.vault_id input)
          grantedByUserId db with
  | Throw m => (Throw m, db)
  | Ok grantingUserPermission =>
      if strict_neq grantingUserPermission "admin"
         && strict_neq grantingUserPermission "owner"
      then (Throw "Insufficient permissions: Only admin users can grant vault permissions", db)
      else if negb (in_int4 (CreateVaultPermissionInput.user_id input))
      then (Throw numeric_value_out_of_range, db)
      else
        let targetUser :=
          filter (fun u => User.id u =? CreateVaultPermissionInput.user_id input)
                 (usersTable db) in
        match targetUser with
        | [] => (Throw "Target user not found", db)
        | u0 :: _ =>
            if negb (User.is_active u0)
            then (Throw "Cannot grant permissions to inactive user", db)
            else
              let existingPermission :=
                filter (fun p =>
                          (VaultUserPermission.vault_id p
                             =? CreateVaultPermissionInput.vault_id input)
                          && (VaultUserPermission.user_id p
                                =? CreateVaultPermissionInput.user_id input))
                       (vaultUserPermissionsTable db) in
              if (0 <? List.length existingPermission)%nat
              then (Throw "User already has permissions for this vault", db)
              else
                let row :=
                  VaultUserPermission.mk (vault_user_permissions_id_seq db)
                    (CreateVaultPermissionInput.vault_id input)
                    (CreateVaultPermissionInput.user_id input)
                    (CreateVaultPermissionInput.permission input)
                    grantedByUserId now in
                (Ok row,
                 set_vaultUserPermissionsTable db
                   (vaultUserPermissionsTable db ++ [row])
                   (vault_user_permissions_id_seq db + 1))
        end
  end.

Definition updateVaultPermission (input : UpdateVaultPermissionInput.t)
  (userId : Z) (db : DB) : Outcome VaultUserPermission.t * DB :=
  if negb (in_int4 (UpdateVaultPermissionInput.id input))
  then (Throw numeric_value_out_of_range, db)
  else
  let existingPermissions :=
    filter (fun p => VaultUserPermission.id p =? UpdateVaultPermissionInput.id input)
           (vaultUserPermissionsTable db) in
  match existingPermissions with
  | [] => (Throw "Permission not found", db)
  | existingPermission :: _ =>
      match getUserPermissionForVault (VaultUserPermission.vault_id existingPermission)
              userId db with
      | Throw m => (Throw m, db)
      | Ok userPermission =>
          if strict_neq userPermission "admin" && strict_neq userPermission "owner"
          then (Throw "Insufficient permissions: Only admin users can modify vault permissions", db)
          else if VaultUserPermission.user_id existingPermission =? userId
          then (Throw "Cannot modify your own permissions", db)
          else
            (* [update ... set permission where id = input.id returning]:
               the first returned row is the first matching row, rewritten *)
            (Ok (with_permission existingPermission
                   (UpdateVaultPermissionInput.permission input)),
             set_vaultUserPermissionsTable db
               (map (fun p =>
                       if VaultUserPermission.id p =? UpdateVaultPermissionInput.id input
                       then with_permission p (UpdateVaultPermissionInput.permission input)
                       else p)
                    (vaultUserPermissionsTable db))
               (vault_user_permissions_id_seq db))
      end
  end.

Definition revokeVaultPermission (permissionId userId : Z) (db : DB)
  : Outcome bool * DB :=
  if negb (in_int4 permissionId) then (Throw numeric_value_out_of_range, db)
  else
  let permissions :=
    filter (fun p => VaultUserPermission.id p =? permissionId)
           (vaultUserPermissionsTable db) in
  match permissions with
  | [] => (Throw "Permission not found", db)
  | permission :: _ =>
      match getUserPermissionForVault (VaultUserPermission.vault_id permission)
              userId db with
      | Throw m => (Throw m, db)
      | Ok userPermission =>
          if strict_neq userPermission "admin" && strict_neq userPermission "owner"
          then (Throw "Insufficient permissions: Only admin users can revoke vault permissions", db)
          else
            let vault :=
              filter (fun v => Vault.id v =? VaultUserPermission.vault_id permission)
                     (vaultsTable db) in
            match vault with
            | [] => (Throw "TypeError: undefined is not an object", db)
            | v0 :: _ =>
                if Vault.owner_id v0 =? VaultUserPermission.user_id permission
                then (Throw "Cannot revoke owner permissions", db)
                else
                  (Ok true,
                   set_vaultUserPermissionsTable db
                     (filter (fun p => negb (VaultUserPermission.id p =? permissionId))
                             (vaultUserPermissionsTable db))
                     (vault_user_permissions_id_seq db))
            end
      end
  end.



Definition getVaultPermissions (vaultId userId : Z) (db : DB)
  : Outcome (list VaultUserPermission.t) :=
  match getUserPermissionForVault vaultId userId db with
  | Throw m => Throw m
  | Ok userPermission =>
      if strict_neq userPermission "admin" && strict_neq userPermission "owner"
      then Throw "Insufficient permissions: Only admin users can view vault permissions"
      else
        (* from grants inner join users on grants.user_id = users.id
           where grants.vault_id = vaultId *)
        Ok (flat_map
              (fun p =>
                 if VaultUserPermission.vault_id p =? vaultId
                 then map (fun _ => p)
                          (filter (fun u => VaultUserPermission.user_id p =? User.id u)
                                  (usersTable db))
                 else [])
              (vaultUserPermissionsTable db))
  end.

End VaultPermissions.

(** ** vaults.ts *)

Module Vaults.

Definition defaultCategories : list (string * string * string) :=
  [ ("Personal", "Personal accounts and services", "#4F46E5");
    ("Work", "Work-related accounts", "#059669");
    ("Banking", "Banking and financial accounts", "#DC2626");
    ("Social", "Social media accounts", "#7C2D12") ].

(** [insert(categoriesTable).values(rows)]: every row takes the next value
    of the sequence, in order. *)
Fixpoint insert_categories (rows : list (string * string * string))
  (vaultId now : Z) (seq : Z) : list Category.t :=
  match rows with
  | [] => []
  | (n, d, c) :: rest =>
      Category.mk seq n (Some d) (Some c) vaultId now now
        :: insert_categories rest vaultId now (seq + 1)
  end.

Definition createVault (input : CreateVaultInput.t) (userId now : Z) (db : DB)
  : Outcome Vault.t * DB :=
  let vault :=
    Vault.mk (vaults_id_seq db) (CreateVaultInput.name input)
      (CreateVaultInput.description input) userId
      (CreateVaultInput.is_shared input || false) now now in
  let db1 := set_vaultsTable db (vaultsTable db ++ [vault]) (vaults_id_seq db + 1) in
  (* Grant admin permission to the owner *)
  let grant :=
    VaultUserPermission.mk (vault_user_permissions_id_seq db1) (Vault.id vault)
      userId admin userId now in
  let db2 :=
    set_vaultUserPermissionsTable db1 (vaultUserPermissionsTable db1 ++ [grant])
      (vault_user_permissions_id_seq db1 + 1) in
  (* Create default categories *)
  let rows :=
    insert_categories defaultCategories (Vault.id vault) now (categories_id_seq db2) in
  let db3 :=
    set_categoriesTable db2 (categoriesTable db2 ++ rows)
      (categories_id_seq db2 + Z.of_nat (List.length rows)) in
  (Ok vault, db3).

Definition apply_vault_update (input : UpdateVaultInput.t) (now : Z) (v : Vault.t)
  : Vault.t :=
  Vault.mk (Vault.id v)
    (match UpdateVaultInput.name input with Some n => n | None => Vault.name v end)
    (match UpdateVaultInput.description input with
     | Some d => d
     | None => Vault.description v
     end)
    (Vault.owner_id v)
    (match UpdateVaultInput.is_shared input with
     | Some b => b
     | None => Vault.is_shared v
     end)
    (Vault.created_at v)
    now.

Definition updateVault (input : UpdateVaultInput.t) (userId now : Z) (db : DB)
  : Outcome Vault.t * DB :=
  if negb (in_int4 (UpdateVaultInput.id input))
  then (Throw numeric_value_out_of_range, db)
  else
  let vaultExists :=
    filter (fun v => Vault.id v =? UpdateVaultInput.id input) (vaultsTable db) in
  if (List.length vaultExists =? 0)%nat then (Throw "Vault not found", db)
  else
    let hasPermission :=
      filter (fun p =>
                (VaultUserPermission.vault_id p =? UpdateVaultInput.id input)
                && (VaultUserPermission.user_id p =? userId)
                && VaultPermission_eqb (VaultUserPermission.permission p) admin)
             (vaultUserPermissionsTable db) in
    let ownerCheck :=
      filter (fun v => (Vault.id v =? UpdateVaultInput.id input)
                       && (Vault.owner_id v =? userId))
             (vaultsTable db) in
    if (List.length hasPermission =? 0)%nat && (List.length ownerCheck =? 0)%nat
    then (Throw "Insufficient permissions to update vault", db)
    else
      let table' :=
        map (fun v => if Vault.id v =? UpdateVaultInput.id input
                      then apply_vault_update input now v else v)
            (vaultsTable db) in
      let result :=
        map (apply_vault_update input now) vaultExists in
      match result with
      | [] => (Throw "Vault not found", set_vaultsTable db table' (vaults_id_seq db))
      | r0 :: _ => (Ok r0, set_vaultsTable db table' (vaults_id_seq db))
      end.

Definition deleteVault (id userId : Z) (db : DB) : Outcome bool * DB :=
  if negb (in_int4 id) then (Throw numeric_value_out_of_range, db)
  else
  let vault :=
    filter (fun v => (Vault.id v =? id) && (Vault.owner_id v =? userId))
           (vaultsTable db) in
  if (List.length vault =? 0)%nat
  then (Throw "Vault not found or insufficient permissions", db)
  else
    (* 1. Delete credential items *)
    let db1 :=
      set_credentialItemsTable db
        (filter (fun i => negb (CredentialItem.vault_id i =? id))
                (credentialItemsTable db))
        (credential_items_id_seq db) in
    (* 2. Delete categories *)
    let db2 :=
      set_categoriesTable db1
        (filter (fun c => negb (Category.vault_id c =? id)) (categoriesTable db1))
        (categories_id_seq db1) in
    (* 3. Delete vault permissions *)
    let db3 :=
      set_vaultUserPermissionsTable db2
        (filter (fun p => negb (VaultUserPermission.vault_id p =? id))
                (vaultUserPermissionsTable db2))
        (vault_user_permissions_id_seq db2) in
    (* 4. Delete the vault itself *)
    let db4 :=
      set_vaultsTable db3
        (filter (fun v => negb (Vault.id v =? id)) (vaultsTable db3))
        (vaults_id_seq db3) in
    (Ok true, db4).

(** [from(vaultsTable).leftJoin(vaultUserPermissionsTable, eq(vaults.id,
    grants.vault_id))]: a vault row paired with each of its grant rows, or
    with NULL when it has none. *)
Definition leftJoin_permissions (db : DB)
  : list (Vault.t * option VaultUserPermission.t) :=
  flat_map
    (fun v =>
       match filter (fun p => Vault.id v =? VaultUserPermission.vault_id p)
                    (vaultUserPermissionsTable db) with
       | [] => [(v, None)]
       | ps => map (fun p => (v, Some p)) ps
       end)
    (vaultsTable db).

(** [or(eq(vaults.owner_id, userId), eq(grants.user_id, userId))] *)
Definition owner_or_grantee (userId : Z)
  (row : Vault.t * option VaultUserPermission.t) : bool :=
  (Vault.owner_id (fst row) =? userId)
  || match snd row with
     | Some p => VaultUserPermission.user_id p =? userId
     | None => false
     end.

Definition getVaultsByUser (userId : Z) (db : DB) : Outcome (list Vault.t) :=
  let results :=
    map fst (filter (owner_or_grantee userId) (leftJoin_permissions db)) in
  (* Remove duplicates (vault might appear multiple times due to join) *)
  let uniqueVaults :=
    fold_left
      (fun acc vault =>
         if existsb (fun v => Vault.id v =? Vault.id vault) acc then acc
         else acc ++ [vault])
      results [] in
  Ok uniqueVaults.


End Vaults.

(** ** Bytes, hex text and the cipher of [crypto]

    A [Buffer] is a list of bytes.  The block cipher behind
    ['aes-256-cbc'] belongs to the runtime, not to this program: it is an
    interface here, with the one law the program relies on (decryption
    inverts encryption under the same 32-byte key).  The mode of operation,
    the padding, the hex text and the [iv:ciphertext] framing are modelled
    as the handlers use them. *)

Class BlockCipher : Type := {
  encryptBlock : bytes -> bytes -> bytes;
  decryptBlock : bytes -> bytes -> bytes
}.

Class BlockCipherLaws (C : BlockCipher) : Prop := {
  decryptBlock_encryptBlock :
    forall key block,
      List.length key = 32%nat -> List.length block = 16%nat ->
      decryptBlock key (encryptBlock key block) = block;
  encryptBlock_length :
    forall key block,
      List.length key = 32%nat -> List.length block = 16%nat ->
      List.length (encryptBlock key block) = 16%nat
}.

Definition xor_ascii (a b : ascii) : ascii :=
  match a, b with
  | Ascii a0 a1 a2 a3 a4 a5 a6 a7, Ascii b0 b1 b2 b3 b4 b5 b6 b7 =>
      Ascii (xorb a0 b0) (xorb a1 b1) (xorb a2 b2) (xorb a3 b3)
            (xorb a4 b4) (xorb a5 b5) (xorb a6 b6) (xorb a7 b7)
  end.

Fixpoint xor_bytes (a b : bytes) : bytes :=
  match a, b with
  | x :: a', y :: b' => xor_ascii x y :: xor_bytes a' b'
  | _, _ => []
  end.

(** A block cipher to run the definitions on: the block xored with the
    first half of the key.  (It stands for no real cipher.) *)
Definition xorCipher : BlockCipher := {|
  encryptBlock := fun key block => xor_bytes block (firstn 16 key);
  decryptBlock := fun key block => xor_bytes block (firstn 16 key)
|}.

Definition hex_char (n : N) : ascii :=
  match n with
  | 0 => "0" | 1 => "1" | 2 => "2" | 3 => "3" | 4 => "4" | 5 => "5"
  | 6 => "6" | 7 => "7" | 8 => "8" | 9 => "9" | 10 => "a" | 11 => "b"
  | 12 => "c" | 13 => "d" | 14 => "e" | _ => "f"
  end%N%char.

Definition hex_value (c : ascii) : option N :=
  let n := N_of_ascii c in
  (if (48 <=? n) && (n <=? 57) then Some (n - 48)
   else if (97 <=? n) && (n <=? 102) then Some (n - 87)
   else if (65 <=? n) && (n <=? 70) then Some (n - 55)
   else None)%N.

(** [buf.toString('hex')] *)
Fixpoint toString_hex (b : bytes) : string :=
  match b with
  | [] => ""
  | a :: rest =>
      String (hex_char (N_of_ascii a / 16))
        (String (hex_char (N_of_ascii a mod 16)) (toString_hex rest))
  end.

(** [Buffer.from(s, 'hex')]: decoding stops at the first pair that is not
    two hex digits. *)
Fixpoint from_hex (s : string) : bytes :=
  match s with
  | String h (String l rest) =>
      match hex_value h, hex_value l with
      | Some x, Some y => ascii_of_N (16 * x + y) :: from_hex rest
      | _, _ => []
      end
  | _ => []
  end.

(** [s.split(sep)] for a one-character separator *)
Fixpoint split (sep : ascii) (s : string) : list string :=
  match s with
  | EmptyString => [EmptyString]
  | String c rest =>
      if Ascii.eqb c sep then EmptyString :: split sep rest
      else
        match split sep rest with
        | p :: ps => String c p :: ps
        | [] => [String c EmptyString]
        end
  end.

(** PKCS#7 padding to a whole number of 16-byte blocks *)
Definition pkcs7_pad (data : bytes) : bytes :=
  let n := (16 - List.length data mod 16)%nat in
  data ++ repeat (ascii_of_nat n) n.

Definition pkcs7_unpad (data : bytes) : option bytes :=
  match rev data with
  | [] => None
  | b :: _ =>
      let n := nat_of_ascii b in
      if ((1 <=? n) && (n <=? 16) && (n <=? List.length data))%nat
         && forallb (Ascii.eqb b) (skipn (List.length data - n) data)
      then Some (firstn (List.length data - n) data)
      else None
  end.

Fixpoint chunks (size fuel : nat) (data : bytes) : list bytes :=
  match fuel with
  | O => []
  | S fuel' =>
      match data with
      | [] => []
      | _ :: _ => firstn size data :: chunks size fuel' (skipn size data)
      end
  end.

Definition blocks16 (data : bytes) : list bytes :=
  chunks 16 (List.length data) data.

Section CBC.
Context {C : BlockCipher}.

Fixpoint cbc_encrypt (key prev : bytes) (blocks : list bytes) : list bytes :=
  match blocks with
  | [] => []
  | b :: rest =>
      let c := encryptBlock key (xor_bytes b prev) in
      c :: cbc_encrypt key c rest
  end.

Fixpoint cbc_decrypt (key prev : bytes) (blocks : list bytes) : list bytes :=
  match blocks with
  | [] => []
  | c :: rest => xor_bytes (decryptBlock key c) prev :: cbc_decrypt key c rest
  end.

(** [crypto.createCipheriv('aes-256-cbc', key, iv)] and
    [createDecipheriv]: the key is 32 bytes and the IV 16, or they throw. *)
Definition createCipheriv (key iv : bytes) : Outcome unit :=
  if negb (List.length key =? 32)%nat then Throw "Invalid key length"
  else if negb (List.length iv =? 16)%nat then Throw "Invalid initialization vector"
  else Ok tt.

(** [cipher.update(text, 'utf8', 'hex') + cipher.final('hex')] *)
Definition cipher_update_final (key iv : bytes) (text : string) : string :=
  toString_hex
    (List.concat
       (cbc_encrypt key iv
          (blocks16 (pkcs7_pad (utf8_write (list_ascii_of_string text)))))).

(** [decipher.update(encrypted, 'hex', 'utf8') + decipher.final('utf8')]:
    [update] refuses a hex text of odd length (the runtime's error is
    named by its code), and [final] data that is not whole blocks or not
    padded. *)
Definition decipher_update_final (key iv : bytes) (encrypted : string)
  : Outcome string :=
  if Nat.odd (String.length encrypted) then Throw "ERR_INVALID_ARG_VALUE"
  else
  let data := from_hex encrypted in
  if (List.length data =? 0)%nat || negb (List.length data mod 16 =? 0)%nat
  then Throw "wrong final block length"
  else
    match pkcs7_unpad (List.concat (cbc_decrypt key iv (blocks16 data))) with
    | Some plain => Ok (string_of_list_ascii plain)
    | None => Throw "bad decrypt"
    end.

End CBC.

(** [items.includes(x)] on a list of permission literals *)
Definition includes (l : list VaultPermission) (x : VaultPermission) : bool :=
  existsb (VaultPermission_eqb x) l.

(** ** Code units and white space *)

(** [Buffer.from(s.slice(0, n))] on the bytes of [s].  [slice] counts
    UTF-16 code units: a character of up to three bytes is one unit (a
    surrogate alone is one), a character of four bytes is two.  When one
    unit is left and the next character has four bytes, the slice ends with
    its high surrogate alone, which [Buffer.from] writes as U+FFFD, as it
    does every other surrogate alone.  [skip] is the number of bytes still
    to copy of the character being copied. *)
Fixpoint slice_units (n skip : nat) (s : bytes) : bytes :=
  match s with
  | [] => []
  | b :: rest =>
      match skip with
      | S k => b :: slice_units n k rest
      | O =>
          match n with
          | O => []
          | S n' =>
              let lead := N_of_ascii b in
              if (lead <? 0xC0)%N then b :: slice_units n' 0 rest
              else if (lead <? 0xE0)%N then b :: slice_units n' 1 rest
              else if (lead <? 0xF0)%N then b :: slice_units n' 2 rest
              else
                match n' with
                | O => replacement_character
                | S n'' => b :: slice_units n'' 3 rest
                end
          end
      end
  end.

(** The code points [trim] removes: WhiteSpace and LineTerminator of
    ECMAScript (tab, line feed, vertical tab, form feed, carriage return,
    space, no-break space, the Unicode space separators, line and paragraph
    separator, and U+FEFF). *)
Definition white_space_code_points : list N :=
  [0x09; 0x0A; 0x0B; 0x0C; 0x0D; 0x20; 0xA0; 0x1680;
   0x2000; 0x2001; 0x2002; 0x2003; 0x2004; 0x2005; 0x2006; 0x2007; 0x2008;
   0x2009; 0x200A; 0x2028; 0x2029; 0x202F; 0x205F; 0x3000; 0xFEFF]%N.

Definition white_space : list bytes := map utf8_of_code_point white_space_code_points.

Fixpoint starts_with (p s : bytes) : bool :=
  match p, s with
  | [], _ => true
  | a :: p', b :: s' => Ascii.eqb a b && starts_with p' s'
  | _ :: _, [] => false
  end.

(** The number of bytes of the character of [chars] that [s] starts with,
    0 when it starts with none. *)
Definition prefix_length (chars : list bytes) (s : bytes) : nat :=
  match find (fun p => starts_with p s) chars with
  | Some p => List.length p
  | None => 0
  end.

(** [s] without the characters of [chars] it starts with; [skip] is the
    number of bytes still to drop of the character being dropped. *)
Fixpoint strip (chars : list bytes) (skip : nat) (s : bytes) : bytes :=
  match s with
  | [] => []
  | _ :: rest =>
      match skip with
      | S k => strip chars k rest
      | O =>
          match prefix_length chars s with
          | O => s
          | S k => strip chars k rest
          end
      end
  end.

Definition trimStart (s : string) : string :=
  string_of_list_ascii (strip white_space 0 (list_ascii_of_string s)).

Definition trimEnd (s : string) : string :=
  string_of_list_ascii
    (rev (strip (map (@rev ascii) white_space) 0 (rev (list_ascii_of_string s)))).

(** [s.trim()] *)
Definition trim (s : string) : string := trimEnd (trimStart s).

(** The values [crypto.randomBytes(16)] returns at the five call sites of a
    write, one per sensitive field. *)
Module IVs.
Record t : Type := mk {
  password : bytes;
  notes : bytes;
  card_number : bytes;
  card_cvv : bytes;
  license_key : bytes
}.
End IVs.

(** ** Patches of [updateCredentialItem] *)

(** Whether [updateData] is left without a key: the query builder refuses
    an update that sets no column ("No values to set"), a case
    [updateCredentialItem] does not guard against. *)
Definition updateData_is_empty (input : UpdateCredentialItemInput.t) : bool :=
  match UpdateCredentialItemInput.title input,
        UpdateCredentialItemInput.category_id input,
        UpdateCredentialItemInput.website_url input,
        UpdateCredentialItemInput.username input,
        UpdateCredentialItemInput.card_holder_name input,
        UpdateCredentialItemInput.card_expiry_date input,
        UpdateCredentialItemInput.license_email input,
        UpdateCredentialItemInput.password input,
        UpdateCredentialItemInput.notes input,
        UpdateCredentialItemInput.card_number input,
        UpdateCredentialItemInput.card_cvv input,
        UpdateCredentialItemInput.license_key input with
  | None, None, None, None, None, None, None, None, None, None, None, None => true
  | _, _, _, _, _, _, _, _, _, _, _, _ => false
  end.

(** ** credential-items.ts *)

Module CredentialItems.
Section Handlers.

Context {C : BlockCipher}.

(** [process.env['ENCRYPTION_KEY']] *)
Variable env_ENCRYPTION_KEY : option string.

(** The store's [ILIKE] operator: [ilike value pattern]. *)
Variable ilike : string -> string -> bool.

Definition ENCRYPTION_KEY : string :=
  match env_ENCRYPTION_KEY with
  | Some k => if String.eqb k "" then "your-32-character-key-here-12345" else k
  | None => "your-32-character-key-here-12345"
  end.

(** [Buffer.from(ENCRYPTION_KEY.slice(0, 32))] *)
Definition key_buffer : bytes :=
  utf8_write (slice_units 32 0 (list_ascii_of_string ENCRYPTION_KEY)).

Definition encrypt (iv : bytes) (text : string) : Outcome string :=
  await _ <- createCipheriv key_buffer iv;
  let encrypted := cipher_update_final key_buffer iv text in
  Ok (String.append (toString_hex iv) (String ":" encrypted)).

Definition decrypt (encryptedText : string) : Outcome string :=
  let parts := split ":" encryptedText in
  let iv := from_hex (nth 0 parts EmptyString) in
  let encrypted := nth_error parts 1 in
  await _ <- createCipheriv key_buffer iv;
  match encrypted with
  | None => Throw "TypeError: the data argument must be of type string"
  | Some e => decipher_update_final key_buffer iv e
  end.

Definition checkVaultPermission (vaultId userId : Z)
  (requiredPermission : VaultPermission) (db : DB) : bool :=
  (* the store rejects the query and the [catch] answers [false] *)
  if negb (in_int4 vaultId) then false
  else
  let vault := filter (fun v => Vault.id v =? vaultId) (vaultsTable db) in
  match vault with
  | [] => false
  | v0 :: _ =>
      if Vault.owner_id v0 =? userId then true
      else
        let permissions :=
          filter (fun p => (VaultUserPermission.vault_id p =? vaultId)
                           && (VaultUserPermission.user_id p =? userId))
                 (vaultUserPermissionsTable db) in
        match permissions with
        | [] => false
        | p0 :: _ =>
            let userPermission := VaultUserPermission.permission p0 in
            if VaultPermission_eqb requiredPermission read
            then includes [read; write; admin] userPermission
            else if VaultPermission_eqb requiredPermission write
            then includes [write; admin] userPermission
            else if VaultPermission_eqb requiredPermission admin
            then VaultPermission_eqb userPermission admin
            else false
        end
  end.

(** [v ? encrypt(v) : null] *)
Definition encrypt_if_present (iv : bytes) (v : option string)
  : Outcome (option string) :=
  match v with
  | Some s =>
      if String.eqb s EmptyString then Ok None
      else await c <- encrypt iv s; Ok (Some c)
  | None => Ok None
  end.

(** [c ? decrypt(c) : null] *)
Definition decrypt_if_present (c : option string) : Outcome (option string) :=
  match c with
  | Some s =>
      if String.eqb s EmptyString then Ok None
      else await p <- decrypt s; Ok (Some p)
  | None => Ok None
  end.

(** [{ ...item, password_encrypted: ..., ..., license_key_encrypted: ... }]:
    the row with its five sensitive columns decrypted *)
Definition decrypted (item : CredentialItem.t) : Outcome CredentialItem.t :=
  await pw <- decrypt_if_present (CredentialItem.password_encrypted item);
  await notes <- decrypt_if_present (CredentialItem.notes_encrypted item);
  await card <- decrypt_if_present (CredentialItem.card_number_encrypted item);
  await cvv <- decrypt_if_present (CredentialItem.card_cvv_encrypted item);
  await lic <- decrypt_if_present (CredentialItem.license_key_encrypted item);
  Ok (CredentialItem.mk (CredentialItem.id item) (CredentialItem.title item)
        (CredentialItem.type item) (CredentialItem.vault_id item)
        (CredentialItem.category_id item) (CredentialItem.website_url item)
        (CredentialItem.username item) pw notes card
        (CredentialItem.card_holder_name item)
        (CredentialItem.card_expiry_date item) cvv lic
        (CredentialItem.license_email item) (CredentialItem.created_by item)
        (CredentialItem.created_at item) (CredentialItem.updated_at item)).

Definition createCredentialItem (input : CreateCredentialItemInput.t)
  (userId : Z) (ivs : IVs.t) (now : Z) (db : DB)
  : Outcome CredentialItem.t * DB :=
  let hasPermission :=
    checkVaultPermission (CreateCredentialItemInput.vault_id input) userId write db in
  if negb hasPermission then (Throw "Insufficient permissions for vault", db)
  else
    let encryptedData :=
      await pw <- encrypt_if_present (IVs.password ivs)
                    (CreateCredentialItemInput.password input);
      await notes <- encrypt_if_present (IVs.notes ivs)
                       (CreateCredentialItemInput.notes input);
      await card <- encrypt_if_present (IVs.card_number ivs)
                      (CreateCredentialItemInput.card_number input);
      await cvv <- encrypt_if_present (IVs.card_cvv ivs)
                     (CreateCredentialItemInput.card_cvv input);
      await lic <- encrypt_if_present (IVs.license_key ivs)
                     (CreateCredentialItemInput.license_key input);
      Ok (CredentialItem.mk (credential_items_id_seq db)
            (CreateCredentialItemInput.title input)
            (CreateCredentialItemInput.type input)
            (CreateCredentialItemInput.vault_id input)
            (CreateCredentialItemInput.category_id input)
            (CreateCredentialItemInput.website_url input)
            (CreateCredentialItemInput.username input)
            pw notes card
            (CreateCredentialItemInput.card_holder_name input)
            (CreateCredentialItemInput.card_expiry_date input)
            cvv lic
            (CreateCredentialItemInput.license_email input)
            userId now now) in
    match encryptedData with
    | Throw m => (Throw m, db)
    | Ok item =>
        (decrypted item,
         set_credentialItemsTable db (credentialItemsTable db ++ [item])
           (credential_items_id_seq db + 1))
    end.

(** A key of [updateData]: set when the input carries it. *)
Definition patched {A : Type} (patch : option A) (old : A) : A :=
  match patch with
  | Some v => v
  | None => old
  end.

(** [if (input.f !== undefined) updateData.f_encrypted = input.f ? encrypt(input.f) : null] *)
Definition encrypt_patch (iv : bytes) (patch : option (option string))
  : Outcome (option (option string)) :=
  match patch with
  | None => Ok None
  | Some v => await c <- encrypt_if_present iv v; Ok (Some c)
  end.

Definition updateCredentialItem (input : UpdateCredentialItemInput.t)
  (userId : Z) (ivs : IVs.t) (db : DB) : Outcome CredentialItem.t * DB :=
  if negb (in_int4 (UpdateCredentialItemInput.id input))
  then (Throw numeric_value_out_of_range, db)
  else
  let existingItems :=
    filter (fun i => CredentialItem.id i =? UpdateCredentialItemInput.id input)
           (credentialItemsTable db) in
  match existingItems with
  | [] => (Throw "Credential item not found", db)
  | existingItem :: _ =>
      let hasPermission :=
        checkVaultPermission (CredentialItem.vault_id existingItem) userId write db in
      if negb hasPermission then (Throw "Insufficient permissions for vault", db)
      else if updateData_is_empty input
      then
        (* nothing was encrypted, and [set(updateData)] throws *)
        (Throw "No values to set", db)
      else
        let updateData :=
          await pw <- encrypt_patch (IVs.password ivs)
                        (UpdateCredentialItemInput.password input);
          await notes <- encrypt_patch (IVs.notes ivs)
                           (UpdateCredentialItemInput.notes input);
          await card <- encrypt_patch (IVs.card_number ivs)
                          (UpdateCredentialItemInput.card_number input);
          await cvv <- encrypt_patch (IVs.card_cvv ivs)
                         (UpdateCredentialItemInput.card_cvv input);
          await lic <- encrypt_patch (IVs.license_key ivs)
                         (UpdateCredentialItemInput.license_key input);
          Ok (fun i : CredentialItem.t =>
                CredentialItem.mk (CredentialItem.id i)
                  (patched (UpdateCredentialItemInput.title input) (CredentialItem.title i))
                  (CredentialItem.type i)
                  (CredentialItem.vault_id i)
                  (patched (UpdateCredentialItemInput.category_id input)
                           (CredentialItem.category_id i))
                  (patched (UpdateCredentialItemInput.website_url input)
                           (CredentialItem.website_url i))
                  (patched (UpdateCredentialItemInput.username input)
                           (CredentialItem.username i))
                  (patched pw (CredentialItem.password_encrypted i))
                  (patched notes (CredentialItem.notes_encrypted i))
                  (patched card (CredentialItem.card_number_encrypted i))
                  (patched (UpdateCredentialItemInput.card_holder_name input)
                           (CredentialItem.card_holder_name i))
                  (patched (UpdateCredentialItemInput.card_expiry_date input)
                           (CredentialItem.card_expiry_date i))
                  (patched cvv (CredentialItem.card_cvv_encrypted i))
                  (patched lic (CredentialItem.license_key_encrypted i))
                  (patched (UpdateCredentialItemInput.license_email input)
                           (CredentialItem.license_email i))
                  (CredentialItem.created_by i)
                  (CredentialItem.created_at i)
                  (CredentialItem.updated_at i)) in
        match updateData with
        | Throw m => (Throw m, db)
        | Ok set =>
            (decrypted (set existingItem),
             set_credentialItemsTable db
               (map (fun i =>
                       if CredentialItem.id i =? UpdateCredentialItemInput.id input
                       then set i else i)
                    (credentialItemsTable db))
               (credential_items_id_seq db))
        end
  end.

Definition getItemsByVault (vaultId userId : Z) (db : DB)
  : Outcome (list CredentialItem.t) :=
  let hasPermission := checkVaultPermission vaultId userId read db in
  if negb hasPermission then Throw "Insufficient permissions for vault"
  else
    let items :=
      filter (fun i => CredentialItem.vault_id i =? vaultId)
             (credentialItemsTable db) in
    mapO decrypted items.

Definition getItemById (id userId : Z) (db : DB)
  : Outcome (option CredentialItem.t) :=
  if negb (in_int4 id) then Throw numeric_value_out_of_range
  else
  let items :=
    filter (fun i => CredentialItem.id i =? id) (credentialItemsTable db) in
  match items with
  | [] => Ok None
  | item :: _ =>
      let hasPermission :=
        checkVaultPermission (CredentialItem.vault_id item) userId read db in
      if negb hasPermission then Throw "Insufficient permissions for vault"
      else await r <- decrypted item; Ok (Some r)
  end.

(** The conditions [searchItems] pushes after the vault condition. *)
Definition category_conditions (input : SearchItemsInput.t)
  : list (CredentialItem.t -> bool) :=
  match SearchItemsInput.category_id input with
  | None => []
  | Some None =>
      [fun i => match CredentialItem.category_id i with None => true | Some _ => false end]
  | Some (Some c) =>
      [fun i => match CredentialItem.category_id i with
                | Some c' => c' =? c
                | None => false
                end]
  end.

Definition type_conditions (input : SearchItemsInput.t)
  : list (CredentialItem.t -> bool) :=
  match SearchItemsInput.type input with
  | None => []
  | Some ty => [fun i => ItemType_eqb (CredentialItem.type i) ty]
  end.

Definition query_conditions (input : SearchItemsInput.t)
  : list (CredentialItem.t -> bool) :=
  match SearchItemsInput.query input with
  | None => []
  | Some q =>
      if String.eqb (trim q) EmptyString then []
      else
        let searchTerm := String.append "%" (String.append (trim q) "%") in
        [fun i => ilike (CredentialItem.title i) searchTerm]
  end.

(** [conditions.length > 0 ? baseQuery.where(conditions.length === 1 ?
    conditions[0] : and(...conditions)) : baseQuery] *)
Definition run_query (conditions : list (CredentialItem.t -> bool)) (db : DB)
  : list CredentialItem.t :=
  if (0 <? List.length conditions)%nat
  then
    match conditions with
    | [c] => filter c (credentialItemsTable db)
    | _ => filter (fun i => forallb (fun c => c i) conditions)
                  (credentialItemsTable db)
    end
  else credentialItemsTable db.

Definition searchItems (input : SearchItemsInput.t) (userId : Z) (db : DB)
  : Outcome (list CredentialItem.t) :=
  let rest :=
    category_conditions input ++ type_conditions input ++ query_conditions input in
  match SearchItemsInput.vault_id input with
  | Some vault_id =>
      let hasPermission := checkVaultPermission vault_id userId read db in
      if negb hasPermission then Throw "Insufficient permissions for vault"
      else
        let conditions :=
          (fun i => CredentialItem.vault_id i =? vault_id) :: rest in
        mapO decrypted (run_query conditions db)
  | None =>
      let userVaults :=
        filter (fun v => Vault.owner_id v =? userId) (vaultsTable db) in
      let vaultIds := map Vault.id userVaults in
      match vaultIds with
      | [] => Ok []
      | first :: _ =>
          (* For simplicity, just search the first vault if multiple exist *)
          let conditions :=
            (fun i => CredentialItem.vault_id i =? first) :: rest in
          mapO decrypted (run_query conditions db)
      end
  end.

Definition deleteCredentialItem (id userId : Z) (db : DB) : Outcome bool * DB :=
  if negb (in_int4 id) then (Throw numeric_value_out_of_range, db)
  else
  let existingItems :=
    filter (fun i => CredentialItem.id i =? id) (credentialItemsTable db) in
  match existingItems with
  | [] => (Throw "Credential item not found", db)
  | existingItem :: _ =>
      let hasPermission :=
        checkVaultPermission (CredentialItem.vault_id existingItem) userId write db in
      if negb hasPermission then (Throw "Insufficient permissions for vault", db)
      else
        (Ok true,
         set_credentialItemsTable db
           (filter (fun i => negb (CredentialItem.id i =? id))
                   (credentialItemsTable db))
           (credential_items_id_seq db))
  end.

End Handlers.
End CredentialItems.

(** ** categories.ts *)

Module Categories.

Definition checkVaultPermission (vaultId userId : Z)
  (requiredPermission : VaultPermission) (db : DB) : bool :=
  (* the store rejects the query and the [catch] answers [false] *)
  if negb (in_int4 vaultId) then false
  else
  let vault := firstn 1 (filter (fun v => Vault.id v =? vaultId) (vaultsTable db)) in
  match vault with
  | [] => false
  | v0 :: _ =>
      if Vault.owner_id v0 =? userId then true
      else
        let permissions :=
          firstn 1
            (filter (fun p => (VaultUserPermission.vault_id p =? vaultId)
                              && (VaultUserPermission.user_id p =? userId))
                    (vaultUserPermissionsTable db)) in
        match permissions with
        | [] => false
        | p0 :: _ =>
            let userPermission := VaultUserPermission.permission p0 in
            match requiredPermission with
            | read => includes [read; write; admin] userPermission
            | write => includes [write; admin] userPermission
            | admin => VaultPermission_eqb userPermission admin
            end
        end
  end.

Definition createCategory (input : CreateCategoryInput.t) (userId now : Z) (db : DB)
  : Outcome Category.t * DB :=
  let hasPermission :=
    checkVaultPermission (CreateCategoryInput.vault_id input) userId write db in
  if negb hasPermission
  then (Throw "Insufficient permissions to create category in this vault", db)
  else
    let row :=
      Category.mk (categories_id_seq db) (CreateCategoryInput.name input)
        (CreateCategoryInput.description input) (CreateCategoryInput.color input)
        (CreateCategoryInput.vault_id input) now now in
    (Ok row,
     set_categoriesTable db (categoriesTable db ++ [row]) (categories_id_seq db + 1)).

Definition apply_category_update (input : UpdateCategoryInput.t) (now : Z)
  (c : Category.t) : Category.t :=
  Category.mk (Category.id c)
    (match UpdateCategoryInput.name input with Some n => n | None => Category.name c end)
    (match UpdateCategoryInput.description input with
     | Some d => d
     | None => Category.description c
     end)
    (match UpdateCategoryInput.color input with
     | Some d => d
     | None => Category.color c
     end)
    (Category.vault_id c)
    (Category.created_at c)
    now.

Definition updateCategory (input : UpdateCategoryInput.t) (userId now : Z) (db : DB)
  : Outcome Category.t * DB :=
  if negb (in_int4 (UpdateCategoryInput.id input))
  then (Throw numeric_value_out_of_range, db)
  else
  let existingCategory :=
    firstn 1 (filter (fun c => Category.id c =? UpdateCategoryInput.id input)
                     (categoriesTable db)) in
  match existingCategory with
  | [] => (Throw "Category not found", db)
  | c0 :: _ =>
      let hasPermission := checkVaultPermission (Category.vault_id c0) userId write db in
      if negb hasPermission
      then (Throw "Insufficient permissions to update this category", db)
      else
        (Ok (apply_category_update input now c0),
         set_categoriesTable db
           (map (fun c => if Category.id c =? UpdateCategoryInput.id input
                          then apply_category_update input now c else c)
                (categoriesTable db))
           (categories_id_seq db))
  end.

Section Ordered.

(** The order of the store's collation on [text], for [orderBy(asc(name))]. *)
Variable name_le : string -> string -> bool.

Fixpoint insert_by_name (c : Category.t) (sorted : list Category.t)
  : list Category.t :=
  match sorted with
  | [] => [c]
  | x :: rest =>
      if name_le (Category.name c) (Category.name x) then c :: sorted
      else x :: insert_by_name c rest
  end.

Definition orderBy_name (rows : list Category.t) : list Category.t :=
  fold_right insert_by_name [] rows.

Definition getCategoriesByVault (vaultId userId : Z) (db : DB)
  : Outcome (list Category.t) :=
  let hasPermission := checkVaultPermission vaultId userId read db in
  if negb hasPermission then Throw "Insufficient permissions to access this vault"
  else
    Ok (orderBy_name
          (filter (fun c => Category.vault_id c =? vaultId) (categoriesTable db))).

End Ordered.

Definition getCategoryById (id userId : Z) (db : DB) : Outcome (option Category.t) :=
  if negb (in_int4 id) then Throw numeric_value_out_of_range
  else
  let categories :=
    firstn 1 (filter (fun c => Category.id c =? id) (categoriesTable db)) in
  match categories with
  | [] => Ok None
  | category :: _ =>
      let hasPermission :=
        checkVaultPermission (Category.vault_id category) userId read db in
      if negb hasPermission
      then Throw "Insufficient permissions to access this category"
      else Ok (Some category)
  end.

(** [set({ category_id: null })] on one row *)
Definition clear_category (i : CredentialItem.t) : CredentialItem.t :=
  CredentialItem.mk (CredentialItem.id i) (CredentialItem.title i)
    (CredentialItem.type i) (CredentialItem.vault_id i)
    None (CredentialItem.website_url i)
    (CredentialItem.username i) (CredentialItem.password_encrypted i)
    (CredentialItem.notes_encrypted i) (CredentialItem.card_number_encrypted i)
    (CredentialItem.card_holder_name i) (CredentialItem.card_expiry_date i)
    (CredentialItem.card_cvv_encrypted i) (CredentialItem.license_key_encrypted i)
    (CredentialItem.license_email i) (CredentialItem.created_by i)
    (CredentialItem.created_at i) (CredentialItem.updated_at i).

(** [eq(credentialItemsTable.category_id, id)]: never true of a NULL *)
Definition category_is (id : Z) (i : CredentialItem.t) : bool :=
  match CredentialItem.category_id i with
  | Some c => c =? id
  | None => false
  end.

Definition deleteCategory (id userId : Z) (db : DB) : Outcome bool * DB :=
  if negb (in_int4 id) then (Throw numeric_value_out_of_range, db)
  else
  let categories :=
    firstn 1 (filter (fun c => Category.id c =? id) (categoriesTable db)) in
  match categories with
  | [] => (Throw "Category not found", db)
  | category :: _ =>
      let hasPermission :=
        checkVaultPermission (Category.vault_id category) userId write db in
      if negb hasPermission
      then (Throw "Insufficient permissions to delete this category", db)
      else
        (* Handle orphaned items by setting their category_id to null *)
        let db1 :=
          set_credentialItemsTable db
            (map (fun i => if category_is id i then clear_category i else i)
                 (credentialItemsTable db))
            (credential_items_id_seq db) in
        (* Delete the category *)
        let db2 :=
          set_categoriesTable db1
            (filter (fun c => negb (Category.id c =? id)) (categoriesTable db1))
            (categories_id_seq db1) in
        (Ok true, db2)
  end.

End Categories.

(** ** users.ts *)

Module Users.
Section Handlers.

(** [createHash('sha256').update(s).digest('hex')] *)
Variable sha256_hex : string -> string.

Definition createUser (input : CreateUserInput.t) (saltBytes : bytes) (now : Z)
  (db : DB) : Outcome User.t * DB :=
  let salt := toString_hex saltBytes in
  let password_hash :=
    String.append (sha256_hex (String.append (CreateUserInput.password input) salt))
                  (String ":" salt) in
  let row :=
    User.mk (users_id_seq db) (CreateUserInput.email input)
      (CreateUserInput.full_name input) (CreateUserInput.role input)
      password_hash true now now in
  if existsb (fun u => String.eqb (User.email u) (CreateUserInput.email input))
             (usersTable db)
  then
    (* the unique constraint on email rejects the row; the sequence value
       it drew is not given back *)
    (Throw "duplicate key value violates unique constraint",
     set_usersTable db (usersTable db) (users_id_seq db + 1))
  else (Ok row, set_usersTable db (usersTable db ++ [row]) (users_id_seq db + 1)).

Definition apply_user_update (input : UpdateUserInput.t) (now : Z) (u : User.t)
  : User.t :=
  User.mk (User.id u)
    (match UpdateUserInput.email input with Some e => e | None => User.email u end)
    (match UpdateUserInput.full_name input with Some n => n | None => User.full_name u end)
    (match UpdateUserInput.role input with Some r => r | None => User.role u end)
    (User.password_hash u)
    (match UpdateUserInput.is_active input with Some b => b | None => User.is_active u end)
    (User.created_at u)
    now.

Definition updateUser (input : UpdateUserInput.t) (now : Z) (db : DB)
  : Outcome User.t * DB :=
  if negb (in_int4 (UpdateUserInput.id input))
  then (Throw numeric_value_out_of_range, db)
  else
  let result :=
    map (apply_user_update input now)
        (filter (fun u => User.id u =? UpdateUserInput.id input) (usersTable db)) in
  let clash :=
    match UpdateUserInput.email input, result with
    | Some e, _ :: _ =>
        existsb (fun u => negb (User.id u =? UpdateUserInput.id input)
                          && String.eqb (User.email u) e)
                (usersTable db)
    | _, _ => false
    end in
  if clash then (Throw "duplicate key value violates unique constraint", db)
  else
    match result with
    | [] =>
        (Throw (String.append "User with id "
                  (String.append
                     (NilZero.string_of_int (Z.to_int (UpdateUserInput.id input)))
                     " not found")),
         db)
    | r0 :: _ =>
        (Ok r0,
         set_usersTable db
           (map (fun u => if User.id u =? UpdateUserInput.id input
                          then apply_user_update input now u else u)
                (usersTable db))
           (users_id_seq db))
    end.

Definition deactivate (now : Z) (u : User.t) : User.t :=
  User.mk (User.id u) (User.email u) (User.full_name u) (User.role u)
    (User.password_hash u) false (User.created_at u) now.

Definition deleteUser (id now : Z) (db : DB) : Outcome bool * DB :=
  if negb (in_int4 id) then (Throw numeric_value_out_of_range, db)
  else
  let result :=
    map (deactivate now) (filter (fun u => User.id u =? id) (usersTable db)) in
  (Ok (0 <? List.length result)%nat,
   set_usersTable db
     (map (fun u => if User.id u =? id then deactivate now u else u) (usersTable db))
     (users_id_seq db)).

End Handlers.
End Users.

(** An [ILIKE] to run the definitions on: [%] matches any run of
    characters, [_] any one character, a backslash quotes the next
    character, and letters A-Z match their lower-case forms. *)
Definition lower (c : ascii) : ascii :=
  let n := nat_of_ascii c in
  if ((65 <=? n) && (n <=? 90))%nat then ascii_of_nat (n + 32) else c.

Fixpoint like_match (p s : string) {struct p} : bool :=
  match p with
  | EmptyString => match s with EmptyString => true | _ => false end
  | String c p' =>
      if Ascii.eqb c "%" then
        (fix any (s : string) : bool :=
           like_match p' s
           || match s with
              | EmptyString => false
              | String _ s' => any s'
              end) s
      else if Ascii.eqb c "_" then
        match s with
        | String _ s' => like_match p' s'
        | EmptyString => false
        end
      else if Ascii.eqb c "\" then
        match p', s with
        | String q p'', String d s' => Ascii.eqb q d && like_match p'' s'
        | _, _ => false
        end
      else
        match s with
        | String d s' => Ascii.eqb c d && like_match p' s'
        | EmptyString => false
        end
  end.

Definition map_string (f : ascii -> ascii) (s : string) : string :=
  string_of_list_ascii (map f (list_ascii_of_string s)).

Definition ilike_ascii (value pattern : string) : bool :=
  like_match (map_string lower pattern) (map_string lower value).

(** ** The system as a whole: the calls that write, and the states they reach *)

Module System.

Inductive Call : Type :=
| CreateUser (input : CreateUserInput.t) (saltBytes : bytes) (now : Z)
| UpdateUser (input : UpdateUserInput.t) (now : Z)
| DeleteUser (id now : Z)
| CreateVault (input : CreateVaultInput.t) (userId now : Z)
| UpdateVault (input : UpdateVaultInput.t) (userId now : Z)
| DeleteVault (id userId : Z)
| CreateCategory (input : CreateCategoryInput.t) (userId now : Z)
| UpdateCategory (input : UpdateCategoryInput.t) (userId now : Z)
| DeleteCategory (id userId : Z)
| CreateCredentialItem (input : CreateCredentialItemInput.t) (userId : Z)
    (ivs : IVs.t) (now : Z)
| UpdateCredentialItem (input : UpdateCredentialItemInput.t) (userId : Z)
    (ivs : IVs.t)
| DeleteCredentialItem (id userId : Z)
| CreateVaultPermission (input : CreateVaultPermissionInput.t)
    (grantedByUserId now : Z)
| UpdateVaultPermission (input : UpdateVaultPermissionInput.t) (userId : Z)
| RevokeVaultPermission (permissionId userId : Z).

Section Run.

Context {C : BlockCipher}.
Variable env_ENCRYPTION_KEY : option string.
Variable sha256_hex : string -> string.

(** The state a call leaves behind, whether it resolves or rejects. *)
Definition run (c : Call) (db : DB) : DB :=
  match c with
  | CreateUser input salt now => snd (Users.createUser sha256_hex input salt now db)
  | UpdateUser input now => snd (Users.updateUser input now db)
  | DeleteUser id now => snd (Users.deleteUser id now db)
  | CreateVault input userId now => snd (Vaults.createVault input userId now db)
  | UpdateVault input userId now => snd (Vaults.updateVault input userId now db)
  | DeleteVault id userId => snd (Vaults.deleteVault id userId db)
  | CreateCategory input userId now =>
      snd (Categories.createCategory input userId now db)
  | UpdateCategory input userId now =>
      snd (Categories.updateCategory input userId now db)
  | DeleteCategory id userId => snd (Categories.deleteCategory id userId db)
  | CreateCredentialItem input userId ivs now =>
      snd (CredentialItems.createCredentialItem env_ENCRYPTION_KEY
             input userId ivs now db)
  | UpdateCredentialItem input userId ivs =>
      snd (CredentialItems.updateCredentialItem env_ENCRYPTION_KEY
             input userId ivs db)
  | DeleteCredentialItem id userId =>
      snd (CredentialItems.deleteCredentialItem id userId db)
  | CreateVaultPermission input by_ now =>
      snd (VaultPermissions.createVaultPermission input by_ now db)
  | UpdateVaultPermission input userId =>
      snd (VaultPermissions.updateVaultPermission input userId db)
  | RevokeVaultPermission permissionId userId =>
      snd (VaultPermissions.revokeVaultPermission permissionId userId db)
  end.

Definition runAll (calls : list Call) (db : DB) : DB :=
  fold_left (fun d c => run c d) calls db.

(** The states the handlers reach from the empty store. *)
Definition reachable (db : DB) : Prop :=
  exists calls, runAll calls emptyDB = db.

End Run.
End System.

(** ** The order of permission levels

    [owner > admin > write > read > none], as numbers: the rank of what
    [getUserPermissionForVault] returns, and the rank a gate requires. *)

Definition effective_rank (p : Outcome (option string)) : nat :=
  match p with
  | Ok (Some s) =>
      if String.eqb s "owner" then 4
      else if String.eqb s "admin" then 3
      else if String.eqb s "write" then 2
      else if String.eqb s "read" then 1
      else 0
  | Ok None => 0
  | Throw _ => 0
  end.

Definition required_rank (r : VaultPermission) : nat :=
  match r with
  | read => 1
  | write => 2
  | admin => 3
  end.

(** ** Comparing rows of [credential_items] *)

(** Two rows agree on every column that is stored in clear. *)
Definition same_clear_columns (i r : CredentialItem.t) : Prop :=
  CredentialItem.id r = CredentialItem.id i
  /\ CredentialItem.title r = CredentialItem.title i
  /\ CredentialItem.type r = CredentialItem.type i
  /\ CredentialItem.vault_id r = CredentialItem.vault_id i
  /\ CredentialItem.category_id r = CredentialItem.category_id i
  /\ CredentialItem.website_url r = CredentialItem.website_url i
  /\ CredentialItem.username r = CredentialItem.username i
  /\ CredentialItem.card_holder_name r = CredentialItem.card_holder_name i
  /\ CredentialItem.card_expiry_date r = CredentialItem.card_expiry_date i
  /\ CredentialItem.license_email r = CredentialItem.license_email i
  /\ CredentialItem.created_by r = CredentialItem.created_by i
  /\ CredentialItem.created_at r = CredentialItem.created_at i
  /\ CredentialItem.updated_at r = CredentialItem.updated_at i.

(** Two rows agree on every column but [category_id]. *)
Definition same_but_category (i r : CredentialItem.t) : Prop :=
  CredentialItem.id r = CredentialItem.id i
  /\ CredentialItem.title r = CredentialItem.title i
  /\ CredentialItem.type r = CredentialItem.type i
  /\ CredentialItem.vault_id r = CredentialItem.vault_id i
  /\ CredentialItem.website_url r = CredentialItem.website_url i
  /\ CredentialItem.username r = CredentialItem.username i
  /\ CredentialItem.password_encrypted r = CredentialItem.password_encrypted i
  /\ CredentialItem.notes_encrypted r = CredentialItem.notes_encrypted i
  /\ CredentialItem.card_number_encrypted r = CredentialItem.card_number_encrypted i
  /\ CredentialItem.card_holder_name r = CredentialItem.card_holder_name i
  /\ CredentialItem.card_expiry_date r = CredentialItem.card_expiry_date i
  /\ CredentialItem.card_cvv_encrypted r = CredentialItem.card_cvv_encrypted i
  /\ CredentialItem.license_key_encrypted r = CredentialItem.license_key_encrypted i
  /\ CredentialItem.license_email r = CredentialItem.license_email i
  /\ CredentialItem.created_by r = CredentialItem.created_by i
  /\ CredentialItem.created_at r = CredentialItem.created_at i
  /\ CredentialItem.updated_at r = CredentialItem.updated_at i.

Section Views.

Context {C : BlockCipher}.
Variable env_ENCRYPTION_KEY : option string.
Variable ilike : string -> string -> bool.

(** [r] is the row [i] as a reader is shown it: the clear columns as
    stored, each sensitive column [c ? decrypt(c) : null]. *)
Definition decrypted_view (i r : CredentialItem.t) : Prop :=
  same_clear_columns i r
  /\ CredentialItems.decrypt_if_present env_ENCRYPTION_KEY
       (CredentialItem.password_encrypted i)
     = Ok (CredentialItem.password_encrypted r)
  /\ CredentialItems.decrypt_if_present env_ENCRYPTION_KEY
       (CredentialItem.notes_encrypted i)
     = Ok (CredentialItem.notes_encrypted r)
  /\ CredentialItems.decrypt_if_present env_ENCRYPTION_KEY
       (CredentialItem.card_number_encrypted i)
     = Ok (CredentialItem.card_number_encrypted r)
  /\ CredentialItems.decrypt_if_present env_ENCRYPTION_KEY
       (CredentialItem.card_cvv_encrypted i)
     = Ok (CredentialItem.card_cvv_encrypted r)
  /\ CredentialItems.decrypt_if_present env_ENCRYPTION_KEY
       (CredentialItem.license_key_encrypted i)
     = Ok (CredentialItem.license_key_encrypted r).

(** The category, type and title-query conditions of a search, together. *)
Definition item_matches (input : SearchItemsInput.t) (i : CredentialItem.t) : bool :=
  forallb (fun c => c i)
    (CredentialItems.category_conditions input
       ++ CredentialItems.type_conditions input
       ++ CredentialItems.query_conditions ilike input).

End Views.

(** ** Ownership and grants *)





(** The vault ids in use are distinct and below the sequence. *)
Definition vault_ids_fresh (db : DB) : Prop :=
  (forall v, In v (vaultsTable db) -> Vault.id v < vaults_id_seq db)
  /\ NoDup (map Vault.id (vaultsTable db)).

(** ** Sensitive values at rest *)

(** [v ? v : null]: what a write keeps of an optional sensitive value. *)
Definition non_empty (v : option string) : option string :=
  match v with
  | Some s => if String.eqb s EmptyString then None else Some s
  | None => None
  end.

(** What comes back of a sensitive value that was written: the value with
    U+FFFD for each surrogate alone. *)
Definition read_back (v : option string) : option string :=
  option_map text_written (non_empty v).

Section AtRest.

Context {C : BlockCipher}.
Variable env_ENCRYPTION_KEY : option string.

(** The column [stored] holds the value [plain] at rest: [null] for an
    absent or empty value, and otherwise a text that [decrypt] turns back
    into the value and that is longer than the value. *)
Definition stored_as (plain stored : option string) : Prop :=
  match non_empty plain with
  | None => stored = None
  | Some p =>
      exists c,
        stored = Some c
        /\ CredentialItems.decrypt env_ENCRYPTION_KEY c = Ok p
        /\ (String.length p < String.length c)%nat
  end.

End AtRest.

(** ** Consistency of the store *)

(** The keys in use are below the sequence and distinct. *)
Definition keys_fresh {A : Type} (key : A -> Z) (rows : list A) (seq : Z) : Prop :=
  (forall r, In r rows -> key r < seq) /\ NoDup (map key rows).

Definition primary_keys_fresh (db : DB) : Prop :=
  keys_fresh User.id (usersTable db) (users_id_seq db)
  /\ keys_fresh Vault.id (vaultsTable db) (vaults_id_seq db)
  /\ keys_fresh Category.id (categoriesTable db) (categories_id_seq db)
  /\ keys_fresh CredentialItem.id (credentialItemsTable db)
       (credential_items_id_seq db)
  /\ keys_fresh VaultUserPermission.id (vaultUserPermissionsTable db)
       (vault_user_permissions_id_seq db).

Definition vault_exists (db : DB) (vaultId : Z) : Prop :=
  exists v, In v (vaultsTable db) /\ Vault.id v = vaultId.

(** Every row of [rows] refers, through [ref], to the id of a vault row. *)
Definition refers_to_vaults {A : Type} (ref : A -> Z) (rows : list A)
  (vaults : list Vault.t) : Prop :=
  forall r, In r rows -> exists v, In v vaults /\ Vault.id v = ref r.

(** Every category, credential item and grant belongs to a vault that
    exists. *)
Definition no_dangling_vault (db : DB) : Prop :=
  refers_to_vaults Category.vault_id (categoriesTable db) (vaultsTable db)
  /\ refers_to_vaults CredentialItem.vault_id (credentialItemsTable db)
       (vaultsTable db)
  /\ refers_to_vaults VaultUserPermission.vault_id (vaultUserPermissionsTable db)
       (vaultsTable db).

Definition grant_pair (g : VaultUserPermission.t) : Z * Z :=
  (VaultUserPermission.vault_id g, VaultUserPermission.user_id g).

(** At most one grant row per (vault, user). *)
Definition grant_pairs_unique (db : DB) : Prop :=
  NoDup (map grant_pair (vaultUserPermissionsTable db)).

Definition store_consistent (db : DB) : Prop :=
  primary_keys_fresh db /\ no_dangling_vault db /\ grant_pairs_unique db.

(** ** users.ts: the readers *)

Module UserQueries.

Definition getUsers (db : DB) : Outcome (list User.t) := Ok (usersTable db).

Definition getUserById (id : Z) (db : DB) : Outcome (option User.t) :=
  if negb (in_int4 id) then Throw numeric_value_out_of_range
  else
    let users := filter (fun u => User.id u =? id) (usersTable db) in
    Ok (match users with
        | u :: _ => Some u
        | [] => None
        end).

End UserQueries.

(** ** auth.ts *)

Module LoginInput.
Record t : Type := mk {
  email : string;
  password : string
}.
End LoginInput.

Module Session.
Record t : Type := mk {
  user : User.t;
  token : string;
  expires_at : Z
}.
End Session.

(** [s.includes(c)] for a one-character [c] *)
Definition includes_char (c : ascii) (s : string) : bool :=
  existsb (Ascii.eqb c) (list_ascii_of_string s).

Fixpoint bytes_eqb (a b : bytes) : bool :=
  match a, b with
  | [], [] => true
  | x :: a', y :: b' => Ascii.eqb x y && bytes_eqb a' b'
  | _, _ => false
  end.

(** [crypto.timingSafeEqual(a, b)]: a [RangeError] when the byte lengths
    differ. *)
Definition timingSafeEqual (a b : bytes) : Outcome bool :=
  if negb (List.length a =? List.length b)%nat
  then Throw "Input buffers must have the same byte length"
  else Ok (bytes_eqb a b).

Module Auth.

(** The module-level [tokenBlacklist]: a [Set] of tokens, in insertion
    order. *)
Definition TokenBlacklist : Type := list string.

Definition blacklist_has (bl : TokenBlacklist) (token : string) : bool :=
  existsb (String.eqb token) bl.

Definition blacklist_add (bl : TokenBlacklist) (token : string) : TokenBlacklist :=
  if blacklist_has bl token then bl else bl ++ [token].

Definition clearTokenBlacklist (bl : TokenBlacklist) : TokenBlacklist := [].

Section Handlers.

(** [createHash('sha256').update(s).digest('hex')] *)
Variable sha256_hex : string -> string.

(** [pbkdf2Sync(password, salt, 10000, 64, 'sha512')] *)
Variable pbkdf2Sync : string -> bytes -> bytes.

(** [createToken({ userId, email })] at a reading of the clock, and
    [verifyToken(token)] at another: the signed payload of a token that
    verifies and has not expired. *)
Variable createToken : Z -> string -> Z -> string.
Variable verifyToken : string -> Z -> option (Z * string).

(** [d.setHours(d.getHours() + 24)], in the server's time zone *)
Variable plus24Hours : Z -> Z.

Definition hashPassword (password : string) (salt : option string) (random32 : bytes)
  : string * string :=
  let saltBuffer :=
    match salt with
    | Some s => if String.eqb s EmptyString then random32 else from_hex s
    | None => random32
    end in
  let hash := pbkdf2Sync password saltBuffer in
  (toString_hex hash, toString_hex saltBuffer).

Definition verifyPassword (password hash salt : string) : Outcome bool :=
  let expectedHash := pbkdf2Sync password (from_hex salt) in
  let actualHash := from_hex hash in
  timingSafeEqual expectedHash actualHash.

(** [login(input)]; [now] is the clock [createToken] reads and [now'] the
    one the expiry date starts from.  Both sides of the destructured
    [[storedHash, storedSalt]] have two parts or more, so [nth] never
    falls back on its default. *)
Definition login (input : LoginInput.t) (now now' : Z) (db : DB) : Outcome Session.t :=
  let users :=
    filter (fun u => String.eqb (User.email u) (LoginInput.email input))
           (usersTable db) in
  match users with
  | [] => Throw "Invalid email or password"
  | user :: _ =>
      if negb (User.is_active user) then Throw "Account is disabled"
      else
        let parts :=
          if includes_char ":" (User.password_hash user)
          then split ":" (User.password_hash user)
          else [User.password_hash user; EmptyString] in
        let storedHash := nth 0 parts EmptyString in
        let storedSalt := nth 1 parts EmptyString in
        await isPasswordValid <-
          (if negb (String.eqb storedSalt EmptyString)
           then verifyPassword (LoginInput.password input) storedHash storedSalt
           else
             let testHash := sha256_hex (LoginInput.password input) in
             Ok (String.eqb testHash (User.password_hash user)));
        if negb isPasswordValid then Throw "Invalid email or password"
        else
          let token := createToken (User.id user) (User.email user) now in
          Ok (Session.mk user token (plus24Hours now'))
  end.

Definition logout (token : string) (bl : TokenBlacklist)
  : Outcome bool * TokenBlacklist :=
  (Ok true, blacklist_add bl token).

(** [validateSession(token)]: every failure is [null]. *)
Definition validateSession (token : string) (now : Z) (bl : TokenBlacklist) (db : DB)
  : option User.t :=
  if blacklist_has bl token then None
  else
    match verifyToken token now with
    | None => None
    | Some (userId, _) =>
        let users := filter (fun u => User.id u =? userId) (usersTable db) in
        match users with
        | [] => None
        | user :: _ => if negb (User.is_active user) then None else Some user
        end
    end.

End Handlers.
End Auth.

(** ** Sample states

    A small history to evaluate the handlers on: three users, two vaults of
    user 1, grants on vault 1 for users 2 (write) and 3 (read), an admin
    grant on vault 2 for user 2, and one credential item in each vault. *)

Module Sample.

(** Stands for no real digest. *)
Definition digest (s : string) : string := s.

Definition iv (c : ascii) : bytes := repeat c 16.

(** The one-unit string U+D800: a surrogate alone. *)
Definition lone_surrogate : string :=
  string_of_list_ascii (utf8_of_code_point 0xD800).

Definition ivs : IVs.t := IVs.mk (iv "a") (iv "b") (iv "c") (iv "d") (iv "e").

Definition login_item (title : string) (vaultId : Z) (category : option Z)
  : CreateCredentialItemInput.t :=
  CreateCredentialItemInput.mk title password vaultId category
    (Some "https://example.com") (Some "alice") (Some "secret123")
    None None None None None None None.

Definition history : list System.Call :=
  [ System.CreateUser (CreateUserInput.mk "alice@example.com" "Alice" role_user "pw-alice-1") (iv "s") 10;
    System.CreateUser (CreateUserInput.mk "bob@example.com" "Bob" role_user "pw-bob-22") (iv "t") 11;
    System.CreateUser (CreateUserInput.mk "carol@example.com" "Carol" role_user "pw-carol-3") (iv "u") 12;
    System.CreateVault (CreateVaultInput.mk "Personal vault" None false) 1 20;
    System.CreateVault (CreateVaultInput.mk "Team vault" (Some "shared") true) 1 21;
    System.CreateVaultPermission (CreateVaultPermissionInput.mk 1 2 write) 1 30;
    System.CreateVaultPermission (CreateVaultPermissionInput.mk 1 3 read) 1 31;
    System.CreateVaultPermission (CreateVaultPermissionInput.mk 2 2 admin) 1 32;
    System.CreateCredentialItem (login_item "Gmail Login" 1 (Some 1)) 1 ivs 40;
    System.CreateCredentialItem (login_item "Team Login" 2 None) 1 ivs 41 ].

Definition db : DB :=
  Eval vm_compute in @System.runAll xorCipher None digest history emptyDB.


End Sample.

(** * Properties *)

(** ** Queries *)

Lemma filter_nil_iff {A : Type} (f : A -> bool) (l : list A) :
  filter f l = [] <-> (forall x, In x l -> f x = false).
Proof.
  induction l as [|a l IH]; simpl.
  - split; [intros _ x [] | reflexivity].
  - destruct (f a) eqn:Fa.
    + split; [discriminate|].
      intros H. specialize (H a (or_introl eq_refl)). congruence.
    + rewrite IH. split.
      * intros H x [<-|Hx]; auto.
      * intros H x Hx. apply H. now right.
Qed.

Lemma first_row_filter {A : Type} (f : A -> bool) (l : list A) :
  first_row (filter f l) = find f l.
Proof.
  induction l as [|a l IH]; simpl; [reflexivity|].
  destruct (f a); [reflexivity | exact IH].
Qed.

Lemma filter_find_some {A : Type} (f : A -> bool) (l : list A) (x : A) :
  find f l = Some x -> exists rest, filter f l = x :: rest.
Proof.
  rewrite <- first_row_filter.
  destruct (filter f l) as [|y rest]; simpl; [discriminate|].
  intros [= ->]. now exists rest.
Qed.

Lemma filter_find_none {A : Type} (f : A -> bool) (l : list A) :
  find f l = None -> filter f l = [].
Proof.
  rewrite <- first_row_filter.
  destruct (filter f l); simpl; [reflexivity | discriminate].
Qed.

Lemma firstn_1_filter_find {A : Type} (f : A -> bool) (l : list A) :
  firstn 1 (filter f l) = match find f l with Some x => [x] | None => [] end.
Proof.
  rewrite <- first_row_filter. now destruct (filter f l).
Qed.

Lemma no_vault_filter (vaultId : Z) (db : DB) :
  (forall v, In v (vaultsTable db) -> Vault.id v <> vaultId) ->
  filter (fun v => Vault.id v =? vaultId) (vaultsTable db) = [].
Proof.
  intros H. apply filter_nil_iff. intros v Hv. apply Z.eqb_neq. now apply H.
Qed.


(** ** C1: the access control evaluator *)




(** ** C3: the permission gate of items and categories *)

Lemma gate_rank_items (vaultId userId : Z) (required : VaultPermission) (db : DB) :
  CredentialItems.checkVaultPermission vaultId userId required db
  = (required_rank required
       <=? effective_rank
             (VaultPermissions.getUserPermissionForVault vaultId userId db))%nat.
Proof.
  unfold CredentialItems.checkVaultPermission,
    VaultPermissions.getUserPermissionForVault.
  destruct (in_int4 vaultId); cbn [negb]; [|now destruct required].
  destruct (filter _ (vaultsTable db)) as [|v0 ?]; [now destruct required|].
  destruct (Vault.owner_id v0 =? userId); [now destruct required|].
  destruct (filter _ (vaultUserPermissionsTable db)) as [|p0 ?];
    [now destruct required|].
  now destruct required, (VaultUserPermission.permission p0).
Qed.

Lemma gate_rank_categories (vaultId userId : Z) (required : VaultPermission) (db : DB) :
  Categories.checkVaultPermission vaultId userId required db
  = (required_rank required
       <=? effective_rank
             (VaultPermissions.getUserPermissionForVault vaultId userId db))%nat.
Proof.
  unfold Categories.checkVaultPermission,
    VaultPermissions.getUserPermissionForVault.
  destruct (in_int4 vaultId); cbn [negb]; [|now destruct required].
  destruct (filter _ (vaultsTable db)) as [|v0 ?]; [now destruct required|].
  cbn [firstn].
  destruct (Vault.owner_id v0 =? userId); [now destruct required|].
  destruct (filter _ (vaultUserPermissionsTable db)) as [|p0 ?];
    [now destruct required|].
  now destruct required, (VaultUserPermission.permission p0).
Qed.

Lemma gates_agree (vaultId userId : Z) (required : VaultPermission) (db : DB) :
  Categories.checkVaultPermission vaultId userId required db
  = CredentialItems.checkVaultPermission vaultId userId required db.
Proof. now rewrite gate_rank_items, gate_rank_categories. Qed.

Lemma effective_values (vaultId userId : Z) (db : DB) :
  let e := VaultPermissions.getUserPermissionForVault vaultId userId db in
  (exists m, e = Throw m) \/ e = Ok None \/ e = Ok (Some "owner")
  \/ e = Ok (Some "admin") \/ e = Ok (Some "write") \/ e = Ok (Some "read").
Proof.
  cbv zeta. unfold VaultPermissions.getUserPermissionForVault.
  destruct (in_int4 vaultId); cbn [negb]; [|left; now eexists].
  destruct (filter _ (vaultsTable db)) as [|v0 ?]; [left; now eexists|].
  destruct (Vault.owner_id v0 =? userId); [now right; right; left|].
  destruct (filter _ (vaultUserPermissionsTable db)) as [|p0 ?];
    [now right; left|].
  destruct (VaultUserPermission.permission p0); simpl; tauto.
Qed.

Lemma rank_at_least_2 (vaultId userId : Z) (db : DB) :
  let e := VaultPermissions.getUserPermissionForVault vaultId userId db in
  (2 <=? effective_rank e)%nat = true
  <-> e = Ok (Some "owner") \/ e = Ok (Some "admin") \/ e = Ok (Some "write").
Proof.
  cbv zeta.
  destruct (effective_values vaultId userId db) as [[m H]|[H|[H|[H|[H|H]]]]];
    cbv zeta in H; rewrite H; simpl; split; intros K;
    try discriminate; try tauto;
    destruct K as [K|[K|K]]; discriminate.
Qed.

Lemma rank_at_least_1 (vaultId userId : Z) (db : DB) :
  let e := VaultPermissions.getUserPermissionForVault vaultId userId db in
  (1 <=? effective_rank e)%nat = true
  <-> e = Ok (Some "owner") \/ e = Ok (Some "admin") \/ e = Ok (Some "write")
      \/ e = Ok (Some "read").
Proof.
  cbv zeta.
  destruct (effective_values vaultId userId db) as [[m H]|[H|[H|[H|[H|H]]]]];
    cbv zeta in H; rewrite H; simpl; split; intros K;
    try discriminate; try tauto;
    destruct K as [K|[K|[K|K]]]; discriminate.
Qed.

(** C3. Both copies of [checkVaultPermission] (credential items,
    categories) succeed exactly when the rank of the required level is at
    most the rank of the caller's effective permission, in the order
    owner > admin > write > read > none; so the gate is monotone, a check
    requiring [write] succeeds exactly for owner, admin and write, and a
    check requiring [read] exactly for owner, admin, write and read. *)
Theorem checkVaultPermission_monotone (vaultId userId : Z) (db : DB) :
  let effective := VaultPermissions.getUserPermissionForVault vaultId userId db in
  forall gate,
    gate = CredentialItems.checkVaultPermission \/ gate = Categories.checkVaultPermission ->
    (forall required,
        gate vaultId userId required db
        = (required_rank required <=? effective_rank effective)%nat)
    /\ (forall lower higher,
          (required_rank lower <= required_rank higher)%nat ->
          gate vaultId userId higher db = true ->
          gate vaultId userId lower db = true)
    /\ (gate vaultId userId write db = true
        <-> effective = Ok (Some "owner") \/ effective = Ok (Some "admin")
            \/ effective = Ok (Some "write"))
    /\ (effective = Ok (Some "read") \/ effective = Ok None ->
        gate vaultId userId write db = false)
    /\ (gate vaultId userId read db = true
        <-> effective = Ok (Some "owner") \/ effective = Ok (Some "admin")
            \/ effective = Ok (Some "write") \/ effective = Ok (Some "read"))
    /\ (effective = Ok None -> gate vaultId userId read db = false).
Proof.
  cbv zeta. intros gate Hgate.
  assert (Hrank : forall required,
             gate vaultId userId required db
             = (required_rank required
                  <=? effective_rank
                        (VaultPermissions.getUserPermissionForVault vaultId userId db))%nat).
  { intros required.
    destruct Hgate as [-> | ->];
      [apply gate_rank_items | apply gate_rank_categories]. }
  split; [exact Hrank|].
  split.
  { intros lower higher Hle. rewrite !Hrank.
    rewrite !Nat.leb_le. lia. }
  split; [rewrite Hrank; apply rank_at_least_2|].
  split.
  { intros [H|H]; rewrite Hrank, H; reflexivity. }
  split; [rewrite Hrank; apply rank_at_least_1|].
  intros H. rewrite Hrank, H. reflexivity.
Qed.

Lemma checkVaultPermission_monotone_witness :
  CredentialItems.checkVaultPermission 1 2 write Sample.db = true
  /\ CredentialItems.checkVaultPermission 1 3 write Sample.db = false
  /\ Categories.checkVaultPermission 1 3 read Sample.db = true.
Proof.
  pose proof (checkVaultPermission_monotone 1 2 Sample.db
                CredentialItems.checkVaultPermission (or_introl eq_refl))
    as (_ & _ & Hw & _).
  pose proof (checkVaultPermission_monotone 1 3 Sample.db
                CredentialItems.checkVaultPermission (or_introl eq_refl))
    as (_ & _ & _ & Hnw & _).
  pose proof (checkVaultPermission_monotone 1 3 Sample.db
                Categories.checkVaultPermission (or_intror eq_refl))
    as (_ & _ & _ & _ & Hr & _).
  cbv zeta in *.
  split; [|split].
  - apply Hw. right. right. reflexivity.
  - apply Hnw. left. reflexivity.
  - apply Hr. right. right. right. reflexivity.
Defined.

(** ** C10: a missing vault at the gate *)

(** C10. When no vault has the given id, the shared helper answers "no
    permission" in both copies, and every item or category operation called
    with that vault id ([createCredentialItem], [getItemsByVault],
    [searchItems] with a [vault_id], [createCategory],
    [getCategoriesByVault]) rejects with its insufficient-permission
    message and leaves the store as it was, although
    [getUserPermissionForVault] reports "Vault not found" for the same id
    (the store's range error when the id is outside int4). *)
Theorem missing_vault_is_insufficient_permission
  (C : BlockCipher) (env_key : option string)
  (ilike : string -> string -> bool) (name_le : string -> string -> bool)
  (vaultId userId : Z) (db : DB)
  (Hmissing : forall v, In v (vaultsTable db) -> Vault.id v <> vaultId) :
  (forall required,
      CredentialItems.checkVaultPermission vaultId userId required db = false
      /\ Categories.checkVaultPermission vaultId userId required db = false)
  /\ (forall input ivs now,
        CreateCredentialItemInput.vault_id input = vaultId ->
        CredentialItems.createCredentialItem env_key input userId ivs now db
        = (Throw "Insufficient permissions for vault", db))
  /\ CredentialItems.getItemsByVault env_key vaultId userId db
     = Throw "Insufficient permissions for vault"
  /\ (forall input,
        SearchItemsInput.vault_id input = Some vaultId ->
        CredentialItems.searchItems env_key ilike input userId db
        = Throw "Insufficient permissions for vault")
  /\ (forall input now,
        CreateCategoryInput.vault_id input = vaultId ->
        Categories.createCategory input userId now db
        = (Throw "Insufficient permissions to create category in this vault", db))
  /\ Categories.getCategoriesByVault name_le vaultId userId db
     = Throw "Insufficient permissions to access this vault"
  /\ VaultPermissions.getUserPermissionForVault vaultId userId db
     = Throw (if in_int4 vaultId then "Vault not found"
              else numeric_value_out_of_range).
Proof.
  assert (Hitems : forall required,
             CredentialItems.checkVaultPermission vaultId userId required db = false).
  { intros required. unfold CredentialItems.checkVaultPermission.
    rewrite no_vault_filter by assumption. now destruct (in_int4 vaultId). }
  assert (Hcats : forall required,
             Categories.checkVaultPermission vaultId userId required db = false).
  { intros required. now rewrite gates_agree. }
  split; [intros required; split; [apply Hitems | apply Hcats]|].
  split.
  { intros input ivs now <-. unfold CredentialItems.createCredentialItem.
    now rewrite Hitems. }
  split.
  { unfold CredentialItems.getItemsByVault. now rewrite Hitems. }
  split.
  { intros input Hin. unfold CredentialItems.searchItems.
    rewrite Hin. now rewrite Hitems. }
  split.
  { intros input now <-. unfold Categories.createCategory. now rewrite Hcats. }
  split.
  { unfold Categories.getCategoriesByVault. now rewrite Hcats. }
  unfold VaultPermissions.getUserPermissionForVault.
  rewrite no_vault_filter by assumption. now destruct (in_int4 vaultId).
Qed.

Lemma missing_vault_is_insufficient_permission_witness :
  CredentialItems.createCredentialItem (C := xorCipher) None
    (Sample.login_item "Orphan" 99 None) 1 Sample.ivs 50 Sample.db
  = (Throw "Insufficient permissions for vault", Sample.db)
  /\ Categories.createCategory (CreateCategoryInput.mk "Misc" None None 99) 1 50
       Sample.db
     = (Throw "Insufficient permissions to create category in this vault", Sample.db).
Proof.
  assert (Hmissing : forall v, In v (vaultsTable Sample.db) -> Vault.id v <> 99).
  { intros v Hv. simpl in Hv. destruct Hv as [<-|[<-|[]]]; discriminate. }
  pose proof (missing_vault_is_insufficient_permission xorCipher None
                ilike_ascii String.leb 99 1 Sample.db Hmissing)
    as (_ & Hitem & _ & _ & Hcat & _).
  split.
  - now apply Hitem.
  - now apply Hcat.
Defined.

(** ** C6: granting a permission *)

Lemma strict_neq_false (p : option string) (lit : string) :
  strict_neq p lit = false <-> p = Some lit.
Proof.
  destruct p as [s|]; simpl.
  - rewrite negb_false_iff, String.eqb_eq. split; congruence.
  - split; discriminate.
Qed.

Lemma not_admin_nor_owner (p : option string) :
  strict_neq p "admin" && strict_neq p "owner" = true
  <-> p <> Some "admin" /\ p <> Some "owner".
Proof.
  rewrite andb_true_iff. split; intros [H1 H2]; split.
  - intros E. apply strict_neq_false in E. congruence.
  - intros E. apply strict_neq_false in E. congruence.
  - destruct (strict_neq p "admin") eqn:E; [reflexivity|].
    apply strict_neq_false in E. contradiction.
  - destruct (strict_neq p "owner") eqn:E; [reflexivity|].
    apply strict_neq_false in E. contradiction.
Qed.





(** ** C7: deleting a vault *)

Lemma filter_negb_none {A : Type} (f : A -> bool) (l : list A) (x : A) :
  In x (filter (fun a => negb (f a)) l) -> f x = false.
Proof.
  intros H. apply filter_In in H. destruct H as [_ H].
  now apply negb_true_iff in H.
Qed.




(** ** C8: deleting a category *)

Lemma nth_error_map_some {A B : Type} (f : A -> B) (l : list A) (n : nat) (x : A) :
  nth_error l n = Some x -> nth_error (map f l) n = Some (f x).
Proof.
  revert n. induction l as [|a l IH]; intros [|n]; simpl; try discriminate.
  - now intros [= ->].
  - apply IH.
Qed.

Lemma clear_category_same (i : CredentialItem.t) :
  same_but_category i (Categories.clear_category i)
  /\ CredentialItem.category_id (Categories.clear_category i) = None.
Proof. unfold same_but_category. simpl. repeat split. Qed.

Lemma same_but_category_refl (i : CredentialItem.t) : same_but_category i i.
Proof. unfold same_but_category. repeat split. Qed.

Lemma category_is_spec (id : Z) (i : CredentialItem.t) :
  Categories.category_is id i = true <-> CredentialItem.category_id i = Some id.
Proof.
  unfold Categories.category_is.
  destruct (CredentialItem.category_id i) as [c|].
  - rewrite Z.eqb_eq. split; congruence.
  - split; discriminate.
Qed.

(** C8. When [deleteCategory id caller] succeeds, the category existed and
    the caller passed the write gate on its vault (owner, admin or write).
    Afterwards the item table has the same rows in the same places, each
    unchanged in every column but [category_id]; the rows that referred to
    the category now hold [null] there, the other rows are identical; no
    category row has the id, the other category rows remain, and vaults,
    grants and users are untouched. *)
Theorem deleteCategory_spec (id caller : Z) (db db' : DB) (b : bool)
  (Hok : Categories.deleteCategory id caller db = (Ok b, db')) :
  (exists c,
      find (fun c => Category.id c =? id) (categoriesTable db) = Some c
      /\ Categories.checkVaultPermission (Category.vault_id c) caller write db = true
      /\ (2 <= effective_rank
                 (VaultPermissions.getUserPermissionForVault
                    (Category.vault_id c) caller db))%nat)
  /\ List.length (credentialItemsTable db') = List.length (credentialItemsTable db)
  /\ (forall n i,
        nth_error (credentialItemsTable db) n = Some i ->
        exists i',
          nth_error (credentialItemsTable db') n = Some i'
          /\ same_but_category i i'
          /\ (CredentialItem.category_id i = Some id ->
              CredentialItem.category_id i' = None)
          /\ (CredentialItem.category_id i <> Some id -> i' = i))
  /\ (forall c, In c (categoriesTable db') -> Category.id c <> id)
  /\ (forall c, In c (categoriesTable db) -> Category.id c <> id ->
                In c (categoriesTable db'))
  /\ vaultsTable db' = vaultsTable db
  /\ vaultUserPermissionsTable db' = vaultUserPermissionsTable db
  /\ usersTable db' = usersTable db.
Proof.
  unfold Categories.deleteCategory in Hok.
  destruct (in_int4 id); [|discriminate]. cbn [negb] in Hok.
  rewrite firstn_1_filter_find in Hok.
  destruct (find _ (categoriesTable db)) as [c|] eqn:Hfind; [|discriminate].
  destruct (Categories.checkVaultPermission (Category.vault_id c) caller write db)
    eqn:Hgate; [|discriminate].
  cbn [negb] in Hok. injection Hok as _ <-. cbn.
  split.
  { exists c. split; [reflexivity|]. split; [assumption|].
    rewrite gate_rank_categories in Hgate. now apply Nat.leb_le in Hgate. }
  split; [apply length_map|].
  split.
  { intros n i Hn.
    exists (if Categories.category_is id i then Categories.clear_category i else i).
    split; [now apply nth_error_map_some with (f := fun i =>
              if Categories.category_is id i then Categories.clear_category i else i)|].
    destruct (Categories.category_is id i) eqn:Hc.
    - split; [apply clear_category_same|]. split; [reflexivity|].
      intros Hne. apply category_is_spec in Hc. contradiction.
    - split; [apply same_but_category_refl|]. split; [|reflexivity].
      intros He. apply category_is_spec in He. congruence. }
  split.
  { intros c' Hc'. apply filter_negb_none in Hc'. now apply Z.eqb_neq. }
  split.
  { intros c' Hc' Hne. apply filter_In. split; [assumption|].
    apply negb_true_iff. now apply Z.eqb_neq. }
  repeat split.
Qed.

Lemma deleteCategory_spec_witness :
  exists db',
    Categories.deleteCategory 1 2 Sample.db = (Ok true, db')
    /\ List.length (credentialItemsTable db') = 2%nat
    /\ forall c, In c (categoriesTable db') -> Category.id c <> 1.
Proof.
  eexists. split; [reflexivity|].
  pose proof (deleteCategory_spec 1 2 Sample.db _ true eq_refl)
    as (_ & Hlen & _ & Hgone & _).
  split; [exact Hlen | exact Hgone].
Defined.

(** ** C9: reading one item *)

Section ItemViews.

Context {C : BlockCipher}.
Variable env_key : option string.

Lemma decrypted_ok_iff (i r : CredentialItem.t) :
  CredentialItems.decrypted env_key i = Ok r <-> decrypted_view env_key i r.
Proof.
  unfold CredentialItems.decrypted, decrypted_view, same_clear_columns.
  destruct (CredentialItems.decrypt_if_present env_key
              (CredentialItem.password_encrypted i)) as [pw|m1]; simpl;
    [|split; [discriminate | intros (_ & H & _); discriminate]].
  destruct (CredentialItems.decrypt_if_present env_key
              (CredentialItem.notes_encrypted i)) as [notes|m2]; simpl;
    [|split; [discriminate | intros (_ & _ & H & _); discriminate]].
  destruct (CredentialItems.decrypt_if_present env_key
              (CredentialItem.card_number_encrypted i)) as [card|m3]; simpl;
    [|split; [discriminate | intros (_ & _ & _ & H & _); discriminate]].
  destruct (CredentialItems.decrypt_if_present env_key
              (CredentialItem.card_cvv_encrypted i)) as [cvv|m4]; simpl;
    [|split; [discriminate | intros (_ & _ & _ & _ & H & _); discriminate]].
  destruct (CredentialItems.decrypt_if_present env_key
              (CredentialItem.license_key_encrypted i)) as [lic|m5]; simpl;
    [|split; [discriminate | intros (_ & _ & _ & _ & _ & H); discriminate]].
  split.
  - intros [= <-]. simpl. repeat split.
  - intros ((H1 & H2 & H3 & H4 & H5 & H6 & H7 & H8 & H9 & H10 & H11 & H12 & H13)
            & [= E1] & [= E2] & [= E3] & [= E4] & [= E5]).
    destruct r; simpl in *. subst. reflexivity.
Qed.


End ItemViews.




(** ** C5: searching without a vault id *)

Lemma mapO_ok_sound {A B : Type} (f : A -> Outcome B) (l : list A) (res : list B) :
  mapO f l = Ok res ->
  (forall r, In r res -> exists x, In x l /\ f x = Ok r)
  /\ (forall x, In x l -> exists r, In r res /\ f x = Ok r).
Proof.
  revert res. induction l as [|a l IH]; intros res; simpl.
  - intros [= <-]. split; [intros r [] | intros x []].
  - destruct (f a) as [b|m] eqn:Fa; simpl; [|discriminate].
    destruct (mapO f l) as [bs|m]; simpl; [|discriminate].
    intros [= <-]. destruct (IH bs eq_refl) as [IH1 IH2]. split.
    + intros r [<-|Hr].
      * exists a. split; [now left | assumption].
      * destruct (IH1 r Hr) as (x & Hx & Hfx). exists x. split; [now right|assumption].
    + intros x [<-|Hx].
      * exists b. split; [now left | assumption].
      * destruct (IH2 x Hx) as (r & Hr & Hfx). exists r. split; [now right|assumption].
Qed.

Lemma mapO_total {A B : Type} (f : A -> Outcome B) (l : list A) :
  (forall x, In x l -> exists r, f x = Ok r) -> exists res, mapO f l = Ok res.
Proof.
  induction l as [|a l IH]; intros H; simpl.
  - now exists [].
  - destruct (H a (or_introl eq_refl)) as [b ->]. simpl.
    destruct IH as [bs ->]; [intros x Hx; apply H; now right|].
    simpl. now eexists.
Qed.

Lemma run_query_filter (c0 : CredentialItem.t -> bool)
  (rest : list (CredentialItem.t -> bool)) (db : DB) :
  CredentialItems.run_query (c0 :: rest) db
  = filter (fun i => c0 i && forallb (fun c => c i) rest) (credentialItemsTable db).
Proof.
  unfold CredentialItems.run_query. cbn [List.length Nat.ltb Nat.leb].
  destruct rest as [|c1 rest'].
  - apply filter_ext. intros i. simpl. now rewrite andb_true_r.
  - apply filter_ext. intros i. reflexivity.
Qed.




(** ** C2: the owner and the grant table *)

Ltac break_match :=
  repeat match goal with
         | |- context [match ?x with _ => _ end] => destruct x
         end.

Section Reachability.

Context {C : BlockCipher}.
Variable env_key : option string.
Variable sha256_hex : string -> string.

Lemma run_vaults_frame (c : System.Call) (db : DB) :
  (exists input u now, c = System.CreateVault input u now)
  \/ (exists input u now, c = System.UpdateVault input u now)
  \/ (exists id u, c = System.DeleteVault id u)
  \/ (vaultsTable (System.run env_key sha256_hex c db) = vaultsTable db
      /\ vaults_id_seq (System.run env_key sha256_hex c db) = vaults_id_seq db).
Proof.
  destruct c; simpl.
  all: try (left; repeat eexists; fail).
  all: try (right; left; repeat eexists; fail).
  all: try (right; right; left; repeat eexists; fail).
  all: right; right; right.
  - unfold Users.createUser. break_match; split; reflexivity.
  - unfold Users.updateUser. break_match; split; reflexivity.
  - unfold Users.deleteUser. break_match; split; reflexivity.
  - unfold Categories.createCategory. break_match; split; reflexivity.

  - unfold Categories.updateCategory. break_match; split; reflexivity.
  - unfold Categories.deleteCategory. break_match; split; reflexivity.
  - unfold CredentialItems.createCredentialItem. break_match; split; reflexivity.
  - unfold CredentialItems.updateCredentialItem. break_match; split; reflexivity.
  - unfold CredentialItems.deleteCredentialItem. break_match; split; reflexivity.
  - unfold VaultPermissions.createVaultPermission. break_match; split; reflexivity.
  - unfold VaultPermissions.updateVaultPermission. break_match; split; reflexivity.
  - unfold VaultPermissions.revokeVaultPermission. break_match; split; reflexivity.
Qed.

Lemma NoDup_map_filter {A B : Type} (f : A -> B) (g : A -> bool) (l : list A) :
  NoDup (map f l) -> NoDup (map f (filter g l)).
Proof.
  induction l as [|a l IH]; simpl; intros H; [constructor|].
  inversion H as [|? ? Hnotin Hnd]; subst.
  destruct (g a); simpl; [|now apply IH].
  constructor; [|now apply IH].
  intros Hin. apply Hnotin. apply in_map_iff in Hin.
  destruct Hin as (x & Hfx & Hx). apply filter_In in Hx.
  apply in_map_iff. exists x. tauto.
Qed.

Lemma map_id_update (f : Vault.t -> Vault.t) (test : Vault.t -> bool)
  (l : list Vault.t) :
  (forall v, Vault.id (f v) = Vault.id v) ->
  map Vault.id (map (fun v => if test v then f v else v) l) = map Vault.id l.
Proof.
  intros Hf. rewrite map_map. apply map_ext. intros v.
  destruct (test v); [apply Hf | reflexivity].
Qed.

Lemma createVault_fresh (input : CreateVaultInput.t) (u now : Z) (db : DB) :
  vault_ids_fresh db -> vault_ids_fresh (snd (Vaults.createVault input u now db)).
Proof.
  intros [Hlt Hnd]. unfold vault_ids_fresh, Vaults.createVault. simpl. split.
  - intros v Hv. apply in_app_iff in Hv. destruct Hv as [Hv|[<-|[]]].
    + specialize (Hlt v Hv). lia.
    + simpl. lia.
  - rewrite map_app. simpl.
    apply NoDup_app; [assumption | repeat constructor; intros [] |].
    intros x Hx [<-|[]]. apply in_map_iff in Hx.
    destruct Hx as (v & Hid & Hv). specialize (Hlt v Hv). lia.
Qed.

Lemma updateVault_fresh (input : UpdateVaultInput.t) (u now : Z) (db : DB) :
  vault_ids_fresh db -> vault_ids_fresh (snd (Vaults.updateVault input u now db)).
Proof.
  intros [Hlt Hnd]. unfold Vaults.updateVault.
  assert (Hupd : vault_ids_fresh
            (set_vaultsTable db
               (map (fun v => if Vault.id v =? UpdateVaultInput.id input
                              then Vaults.apply_vault_update input now v else v)
                    (vaultsTable db))
               (vaults_id_seq db))).
  { unfold vault_ids_fresh. simpl. split.
    - intros v Hv. apply in_map_iff in Hv. destruct Hv as (w & <- & Hw).
      specialize (Hlt w Hw). now destruct (Vault.id w =? UpdateVaultInput.id input).
    - rewrite map_id_update; [assumption | reflexivity]. }
  break_match; simpl; try assumption; now split.
Qed.

Lemma deleteVault_fresh (id u : Z) (db : DB) :
  vault_ids_fresh db -> vault_ids_fresh (snd (Vaults.deleteVault id u db)).
Proof.
  intros [Hlt Hnd]. unfold Vaults.deleteVault.
  destruct (in_int4 id); cbn [negb]; [|now split].
  destruct (List.length _ =? 0)%nat; simpl; [now split|].

  unfold vault_ids_fresh. simpl. split.
  - intros v Hv. apply filter_In in Hv. now apply Hlt.
  - now apply NoDup_map_filter.
Qed.

Lemma run_fresh (c : System.Call) (db : DB) :
  vault_ids_fresh db -> vault_ids_fresh (System.run env_key sha256_hex c db).
Proof.
  intros H.
  destruct (run_vaults_frame c db)
    as [(input & u & now & ->)|[(input & u & now & ->)|[(id & u & ->)|[Hv Hs]]]].
  - now apply createVault_fresh.
  - now apply updateVault_fresh.
  - now apply deleteVault_fresh.
  - unfold vault_ids_fresh. now rewrite Hv, Hs.
Qed.

Lemma runAll_fresh (calls : list System.Call) (db : DB) :
  vault_ids_fresh db ->
  vault_ids_fresh (System.runAll env_key sha256_hex calls db).
Proof.
  revert db. induction calls as [|c calls IH]; intros db H; simpl; [assumption|].
  apply IH. now apply run_fresh.
Qed.

Lemma reachable_fresh (db : DB) :
  System.reachable env_key sha256_hex db -> vault_ids_fresh db.
Proof.
  intros [calls <-]. apply runAll_fresh.
  split; [intros v [] | constructor].
Qed.

End Reachability.


Lemma filter_map_comm {A B : Type} (g : A -> B) (test : B -> bool) (l : list A) :
  filter test (map g l) = map g (filter (fun a => test (g a)) l).
Proof.
  induction l as [|a l IH]; simpl; [reflexivity|].
  destruct (test (g a)); simpl; now rewrite IH.
Qed.






(** ** C4: the credential cipher *)

Lemma hex_pair_decodes (a : ascii) :
  hex_value (hex_char (N_of_ascii a / 16)) = Some (N_of_ascii a / 16)%N
  /\ hex_value (hex_char (N_of_ascii a mod 16)) = Some (N_of_ascii a mod 16)%N
  /\ ascii_of_N (16 * (N_of_ascii a / 16) + N_of_ascii a mod 16) = a
  /\ Ascii.eqb (hex_char (N_of_ascii a / 16)) ":" = false
  /\ Ascii.eqb (hex_char (N_of_ascii a mod 16)) ":" = false.
Proof.
  destruct a as [[] [] [] [] [] [] [] []]; vm_compute; repeat split.
Qed.

Lemma from_hex_toString_hex (b : bytes) : from_hex (toString_hex b) = b.
Proof.
  induction b as [|a b IH]; [reflexivity|].
  cbn [from_hex toString_hex].
  destruct (hex_pair_decodes a) as (-> & -> & -> & _). now rewrite IH.
Qed.

Lemma split_hex_prefix (b : bytes) (rest : string) :
  split ":" (String.append (toString_hex b) (String ":" rest))
  = toString_hex b :: split ":" rest.
Proof.
  induction b as [|a b IH]; [reflexivity|].
  cbn [toString_hex String.append split].
  destruct (hex_pair_decodes a) as (_ & _ & _ & -> & ->).
  now rewrite IH.
Qed.

Lemma split_hex (b : bytes) : split ":" (toString_hex b) = [toString_hex b].
Proof.
  induction b as [|a b IH]; [reflexivity|].
  cbn [toString_hex split].
  destruct (hex_pair_decodes a) as (_ & _ & _ & -> & ->).
  now rewrite IH.
Qed.

Lemma xor_ascii_involutive (a b : ascii) : xor_ascii (xor_ascii a b) b = a.
Proof.
  destruct a, b. simpl. now rewrite !xorb_assoc, !xorb_nilpotent, !xorb_false_r.
Qed.

Lemma xor_bytes_involutive (a b : bytes) :
  List.length a = List.length b -> xor_bytes (xor_bytes a b) b = a.
Proof.
  revert b. induction a as [|x a IH]; intros [|y b]; simpl; try discriminate.
  - reflexivity.
  - intros [= H]. now rewrite xor_ascii_involutive, IH.
Qed.

Lemma xor_bytes_length (a b : bytes) :
  List.length a = List.length b -> List.length (xor_bytes a b) = List.length a.
Proof.
  revert b. induction a as [|x a IH]; intros [|y b]; simpl; try discriminate.
  - reflexivity.
  - intros [= H]. now rewrite IH.
Qed.

Lemma firstn_app_exact {A : Type} (b r : list A) (n : nat) :
  List.length b = n -> firstn n (b ++ r) = b.
Proof.
  intros <-. now rewrite firstn_app, Nat.sub_diag, firstn_O, app_nil_r, firstn_all.
Qed.

Lemma skipn_app_exact {A : Type} (b r : list A) (n : nat) :
  List.length b = n -> skipn n (b ++ r) = r.
Proof.
  intros <-. now rewrite skipn_app, Nat.sub_diag, skipn_all.
Qed.

Lemma chunks_concat (bs : list bytes) (fuel : nat) :
  Forall (fun b => List.length b = 16%nat) bs ->
  (List.length bs <= fuel)%nat ->
  chunks 16 fuel (List.concat bs) = bs.
Proof.
  revert fuel. induction bs as [|b bs IH]; intros fuel Hall Hfuel.
  - destruct fuel; reflexivity.
  - inversion Hall as [|? ? Hb Hbs]; subst.
    destruct fuel as [|fuel]; [simpl in Hfuel; lia|].
    cbn [List.concat chunks].
    destruct (b ++ List.concat bs) as [|x rest] eqn:E.
    { destruct b; [discriminate Hb | discriminate E]. }
    rewrite <- E.
    rewrite (firstn_app_exact b _ _ Hb), (skipn_app_exact b _ _ Hb).
    apply (f_equal (cons b)). apply IH; [assumption | simpl in Hfuel; lia].
Qed.

Lemma concat_length_16 (bs : list bytes) :
  Forall (fun b => List.length b = 16%nat) bs ->
  List.length (List.concat bs) = (16 * List.length bs)%nat.
Proof.
  induction 1 as [|b bs Hb _ IH]; [reflexivity|].
  cbn [List.concat List.length]. rewrite length_app, Hb, IH. lia.
Qed.

Lemma blocks16_concat (bs : list bytes) :
  Forall (fun b => List.length b = 16%nat) bs ->
  blocks16 (List.concat bs) = bs.
Proof.
  intros H. unfold blocks16. apply chunks_concat; [assumption|].
  rewrite concat_length_16 by assumption. lia.
Qed.

Lemma chunks_whole (k fuel : nat) (data : bytes) :
  List.length data = (16 * k)%nat -> (k <= fuel)%nat ->
  Forall (fun b => List.length b = 16%nat) (chunks 16 fuel data)
  /\ List.concat (chunks 16 fuel data) = data
  /\ List.length (chunks 16 fuel data) = k.
Proof.
  revert fuel data. induction k as [|k IH]; intros fuel data Hlen Hfuel.
  - destruct data; [|discriminate]. destruct fuel; simpl; repeat split; constructor.
  - destruct fuel as [|fuel]; [lia|].
    destruct data as [|x rest]; [discriminate|].
    cbn [chunks]. remember (x :: rest) as data eqn:E. clear E.
    destruct (IH fuel (skipn 16 data)) as (Hall & Hcat & Hn).
    { rewrite length_skipn. lia. }
    { lia. }
    split; [|split].
    + constructor; [|assumption]. rewrite length_firstn. lia.
    + cbn [List.concat]. rewrite Hcat. apply firstn_skipn.
    + cbn [List.length]. now rewrite Hn.
Qed.

Lemma pad_length (data : bytes) :
  List.length (pkcs7_pad data) = (16 * (List.length data / 16 + 1))%nat.
Proof.
  unfold pkcs7_pad. rewrite length_app, repeat_length.
  pose proof (Nat.div_mod_eq (List.length data) 16).
  pose proof (Nat.mod_upper_bound (List.length data) 16 ltac:(lia)).
  lia.
Qed.

Lemma rev_repeat {A : Type} (c : A) (n : nat) : rev (repeat c n) = repeat c n.
Proof.
  induction n as [|n IH]; [reflexivity|].
  simpl. rewrite IH. symmetry. apply repeat_cons.
Qed.

Lemma forallb_repeat (c : ascii) (n : nat) : forallb (Ascii.eqb c) (repeat c n) = true.
Proof.
  induction n as [|n IH]; [reflexivity|]. simpl. now rewrite Ascii.eqb_refl, IH.
Qed.

Lemma unpad_pad (data : bytes) : pkcs7_unpad (pkcs7_pad data) = Some data.
Proof.
  unfold pkcs7_unpad, pkcs7_pad.
  set (n := (16 - List.length data mod 16)%nat).
  assert (Hn : (1 <= n <= 16)%nat).
  { pose proof (Nat.mod_upper_bound (List.length data) 16 ltac:(lia)).
    subst n. lia. }
  assert (Hrev : exists tl,
             rev (data ++ repeat (ascii_of_nat n) n) = ascii_of_nat n :: tl).
  { rewrite rev_app_distr, rev_repeat.
    destruct n as [|m]; [lia|]. simpl. now eexists. }
  destruct Hrev as [tl ->].
  rewrite nat_ascii_embedding by lia.
  rewrite length_app, repeat_length.
  replace (List.length data + n - n)%nat with (List.length data) by lia.
  rewrite (skipn_app_exact data _ _ eq_refl), (firstn_app_exact data _ _ eq_refl).
  rewrite forallb_repeat.
  replace ((1 <=? n) && (n <=? 16) && (n <=? List.length data + n))%nat with true;
    [reflexivity|].
  symmetry. rewrite !andb_true_iff, !Nat.leb_le. lia.
Qed.

Lemma list_ascii_length (s : string) :
  List.length (list_ascii_of_string s) = String.length s.
Proof. induction s as [|c s IH]; simpl; [reflexivity | now rewrite IH]. Qed.

Lemma utf8_write_length (s : bytes) : List.length (utf8_write s) = List.length s.
Proof.
  assert (H : forall n t, (List.length t <= n)%nat ->
                          List.length (utf8_write t) = List.length t).
  { induction n as [|n IH]; intros t Hle.
    - destruct t; [reflexivity | cbn in Hle; lia].
    - destruct t as [|b [|b1 [|b2 rest]]]; try reflexivity.
      change (utf8_write (b :: b1 :: b2 :: rest))
        with (if is_surrogate_lead b b1
              then replacement_character ++ utf8_write rest
              else b :: utf8_write (b1 :: b2 :: rest)).
      destruct (is_surrogate_lead b b1).
      + rewrite length_app, IH; [reflexivity|]. cbn in Hle. lia.
      + cbn [List.length]. rewrite IH; [reflexivity|]. cbn in Hle |- *. lia. }
  now apply (H (List.length s)).
Qed.

Lemma utf8_write_kept (s : bytes) :
  has_lone_surrogate_bytes s = false -> utf8_write s = s.
Proof.
  induction s as [|b rest IH]; [reflexivity|]. intros H.
  cbn [has_lone_surrogate_bytes] in H. cbn [utf8_write].
  destruct rest as [|b1 rest1]; [reflexivity|].
  apply orb_false_iff in H. destruct H as [Hlead Hrest].
  rewrite (IH Hrest). rewrite Hlead. now destruct rest1.
Qed.

Lemma text_written_kept (s : string) :
  has_lone_surrogate s = false -> text_written s = s.
Proof.
  intros H. unfold text_written. rewrite utf8_write_kept by exact H.
  apply string_of_list_ascii_of_string.
Qed.

Lemma text_written_length (s : string) :
  String.length (text_written s) = String.length s.
Proof.
  unfold text_written.
  rewrite <- (list_ascii_length (string_of_list_ascii _)).
  rewrite list_ascii_of_string_of_list_ascii, utf8_write_length.
  apply list_ascii_length.
Qed.

Lemma toString_hex_length (b : bytes) :
  String.length (toString_hex b) = (2 * List.length b)%nat.
Proof. induction b as [|a b IH]; [reflexivity|]. cbn. rewrite IH. lia. Qed.

Lemma odd_toString_hex (b : bytes) :
  Nat.odd (String.length (toString_hex b)) = false.
Proof. rewrite toString_hex_length, Nat.odd_mul. reflexivity. Qed.

Section CipherProofs.

Context {C : BlockCipher} (laws : BlockCipherLaws C).

Lemma cbc_encrypt_blocks (key prev : bytes) (bs : list bytes) :
  List.length key = 32%nat -> List.length prev = 16%nat ->
  Forall (fun b => List.length b = 16%nat) bs ->
  Forall (fun b => List.length b = 16%nat) (cbc_encrypt key prev bs)
  /\ List.length (cbc_encrypt key prev bs) = List.length bs.
Proof.
  intros Hkey Hprev Hall. revert prev Hprev.
  induction Hall as [|b bs Hb _ IH]; intros prev Hprev; simpl.
  - split; [constructor | reflexivity].
  - assert (Hc : List.length (encryptBlock key (xor_bytes b prev)) = 16%nat).
    { apply encryptBlock_length; [assumption|].
      rewrite xor_bytes_length; congruence. }
    destruct (IH _ Hc) as [IH1 IH2]. split; [now constructor | now rewrite IH2].
Qed.

Lemma cbc_roundtrip (key prev : bytes) (bs : list bytes) :
  List.length key = 32%nat -> List.length prev = 16%nat ->
  Forall (fun b => List.length b = 16%nat) bs ->
  cbc_decrypt key prev (cbc_encrypt key prev bs) = bs.
Proof.
  intros Hkey Hprev Hall. revert prev Hprev.
  induction Hall as [|b bs Hb _ IH]; intros prev Hprev; simpl; [reflexivity|].
  assert (Hx : List.length (xor_bytes b prev) = 16%nat).
  { rewrite xor_bytes_length; congruence. }
  rewrite decryptBlock_encryptBlock by assumption.
  rewrite xor_bytes_involutive by congruence.
  apply (f_equal (cons b)). apply IH.
  now apply encryptBlock_length.
Qed.

Lemma createCipheriv_ok (key iv : bytes) :
  List.length key = 32%nat -> List.length iv = 16%nat -> createCipheriv key iv = Ok tt.
Proof. intros Hk Hi. unfold createCipheriv. now rewrite Hk, Hi. Qed.

Lemma padded_blocks (text : string) :
  let bs := blocks16 (pkcs7_pad (utf8_write (list_ascii_of_string text))) in
  Forall (fun b => List.length b = 16%nat) bs
  /\ List.concat bs = pkcs7_pad (utf8_write (list_ascii_of_string text))
  /\ List.length bs = (String.length text / 16 + 1)%nat.
Proof.
  cbv zeta. unfold blocks16.
  pose proof (pad_length (utf8_write (list_ascii_of_string text))) as Hlen.
  rewrite utf8_write_length, list_ascii_length in Hlen.
  apply chunks_whole; [assumption | lia].
Qed.

Lemma encrypt_shape (env_key : option string) (iv : bytes) (text : string) :
  List.length (CredentialItems.key_buffer env_key) = 32%nat ->
  List.length iv = 16%nat ->
  let ct := List.concat
              (cbc_encrypt (CredentialItems.key_buffer env_key) iv
                 (blocks16 (pkcs7_pad (utf8_write (list_ascii_of_string text))))) in
  CredentialItems.encrypt env_key iv text
  = Ok (String.append (toString_hex iv) (String ":" (toString_hex ct)))
  /\ List.length ct = (16 * (String.length text / 16 + 1))%nat.
Proof.
  intros Hkey Hiv. cbv zeta. unfold CredentialItems.encrypt.
  rewrite createCipheriv_ok by assumption.
  split; [reflexivity|].
  destruct (padded_blocks text) as (Hall & _ & Hn). cbv zeta in *.
  destruct (cbc_encrypt_blocks (CredentialItems.key_buffer env_key) iv _
              Hkey Hiv Hall) as [Hc Hcn].
  rewrite concat_length_16 by assumption. now rewrite Hcn, Hn.
Qed.

Lemma decrypt_encrypt (env_key : option string) (iv : bytes) (text stored : string) :
  List.length (CredentialItems.key_buffer env_key) = 32%nat ->
  List.length iv = 16%nat ->
  CredentialItems.encrypt env_key iv text = Ok stored ->
  CredentialItems.decrypt env_key stored = Ok (text_written text).
Proof.
  intros Hkey Hiv Henc.
  destruct (encrypt_shape env_key iv text Hkey Hiv) as [Hshape Hlen].
  cbv zeta in *. rewrite Hshape in Henc. injection Henc as <-.
  unfold CredentialItems.decrypt.
  rewrite split_hex_prefix, split_hex. cbn [nth nth_error].
  rewrite from_hex_toString_hex.
  rewrite createCipheriv_ok by assumption. cbn [bindO].
  unfold decipher_update_final. rewrite odd_toString_hex, from_hex_toString_hex.
  destruct (padded_blocks text) as (Hall & Hcat & Hn). cbv zeta in *.
  destruct (cbc_encrypt_blocks (CredentialItems.key_buffer env_key) iv _
              Hkey Hiv Hall) as [Hc Hcn].
  rewrite Hlen.
  replace ((16 * (String.length text / 16 + 1) =? 0)%nat) with false
    by (symmetry; apply Nat.eqb_neq; lia).
  replace ((16 * (String.length text / 16 + 1)) mod 16 =? 0)%nat with true.
  2:{ symmetry. apply Nat.eqb_eq. rewrite Nat.mul_comm. apply Nat.Div0.mod_mul. }
  cbn [orb negb].
  rewrite blocks16_concat by assumption.
  rewrite cbc_roundtrip by assumption.
  now rewrite Hcat, unpad_pad.
Qed.

Lemma encrypt_ok_shape (env_key : option string) (iv : bytes) (text stored : string) :
  CredentialItems.encrypt env_key iv text = Ok stored ->
  exists encrypted,
    stored = String.append (toString_hex iv) (String ":" encrypted).
Proof.
  unfold CredentialItems.encrypt.
  destruct (createCipheriv _ iv); simpl; [|discriminate].
  intros [= <-]. now eexists.
Qed.

Lemma stored_iv (iv : bytes) (encrypted : string) :
  from_hex
    (nth 0 (split ":" (String.append (toString_hex iv) (String ":" encrypted)))
         EmptyString)
  = iv.
Proof. rewrite split_hex_prefix. cbn [nth]. apply from_hex_toString_hex. Qed.

End CipherProofs.

Lemma xorCipher_laws : BlockCipherLaws xorCipher.
Proof.
  split; intros key block Hkey Hblock;
    unfold encryptBlock, decryptBlock, xorCipher.
  - apply xor_bytes_involutive. rewrite length_firstn. lia.
  - rewrite xor_bytes_length; [assumption|]. rewrite length_firstn. lia.
Qed.

Lemma default_key_length : List.length (CredentialItems.key_buffer None) = 32%nat.
Proof. reflexivity. Qed.

(** C4, as the claim states it, fails in two ways.  With a configured key
    of five characters [encrypt] throws, so nothing comes back.  And a
    string with a surrogate that has no partner does not come back: the
    cipher reads the one-unit string U+D800 as the bytes of U+FFFD, and
    [decrypt] of the stored value returns the string U+FFFD. *)
Lemma encrypt_decrypt_counterexample :
  CredentialItems.encrypt (C := xorCipher) (Some "short") (Sample.iv "a") "secret123"
  = Throw "Invalid key length"
  /\ Sample.lone_surrogate <> EmptyString
  /\ exists stored,
       CredentialItems.encrypt (C := xorCipher) None (Sample.iv "a")
         Sample.lone_surrogate = Ok stored
       /\ CredentialItems.decrypt (C := xorCipher) None stored
          = Ok (string_of_list_ascii replacement_character)
       /\ string_of_list_ascii replacement_character <> Sample.lone_surrogate.
Proof.
  split; [reflexivity|]. split; [discriminate|].
  destruct (encrypt_shape xorCipher_laws None (Sample.iv "a") Sample.lone_surrogate
              default_key_length eq_refl) as [Hshape _].
  cbv zeta in Hshape. eexists. split; [exact Hshape|]. split; [|discriminate].
  exact (decrypt_encrypt xorCipher_laws None (Sample.iv "a") _ _ default_key_length
           eq_refl Hshape).
Qed.

(** C4 (amended). With a block cipher whose decryption inverts its
    encryption and a configured key whose first 32 code units take 32 bytes
    (the built-in default is one), for every string [s] and every 16-byte
    IV drawn by [randomBytes]: [encrypt] returns a stored value and
    [decrypt] of that value is [s] with U+FFFD for each surrogate that has
    no partner, so it is [s] when [s] has no such surrogate; two
    encryptions of the same [s] under different IVs give different stored
    values; and the stored value is the hex text of the IV, a colon, and
    the hex text of a ciphertext of whole 16-byte blocks, from which
    [split(':')] and the hex decoding recover the IV and the ciphertext
    with no other input. *)
Theorem encrypt_decrypt_roundtrip (C : BlockCipher) (laws : BlockCipherLaws C)
  (env_key : option string)
  (Hkey : List.length (CredentialItems.key_buffer env_key) = 32%nat) :
  (forall iv s,
      List.length iv = 16%nat ->
      exists stored,
        CredentialItems.encrypt env_key iv s = Ok stored
        /\ CredentialItems.decrypt env_key stored = Ok (text_written s)
        /\ (has_lone_surrogate s = false ->
            CredentialItems.decrypt env_key stored = Ok s))
  /\ (forall iv1 iv2 s c1 c2,
        List.length iv1 = 16%nat -> List.length iv2 = 16%nat -> iv1 <> iv2 ->
        CredentialItems.encrypt env_key iv1 s = Ok c1 ->
        CredentialItems.encrypt env_key iv2 s = Ok c2 ->
        c1 <> c2)
  /\ (forall iv s,
        List.length iv = 16%nat ->
        exists ct,
          CredentialItems.encrypt env_key iv s
          = Ok (String.append (toString_hex iv) (String ":" (toString_hex ct)))
          /\ List.length ct = (16 * (String.length s / 16 + 1))%nat
          /\ split ":" (String.append (toString_hex iv) (String ":" (toString_hex ct)))
             = [toString_hex iv; toString_hex ct]
          /\ from_hex (toString_hex iv) = iv
          /\ from_hex (toString_hex ct) = ct).
Proof.
  split; [|split].
  - intros iv s Hiv.
    destruct (encrypt_shape laws env_key iv s Hkey Hiv) as [Hshape _].
    cbv zeta in Hshape. eexists. split; [exact Hshape|].
    pose proof (decrypt_encrypt laws env_key iv s _ Hkey Hiv Hshape) as Hdec.
    split; [exact Hdec|].
    intros Hs. now rewrite Hdec, text_written_kept.
  - intros iv1 iv2 s c1 c2 _ _ Hne H1 H2 E. apply Hne.
    destruct (encrypt_ok_shape _ _ _ _ H1) as [e1 ->].
    destruct (encrypt_ok_shape _ _ _ _ H2) as [e2 E2].
    rewrite <- (stored_iv iv1 e1), <- (stored_iv iv2 e2). now rewrite E, E2.
  - intros iv s Hiv.
    destruct (encrypt_shape laws env_key iv s Hkey Hiv) as [Hshape Hlen].
    cbv zeta in *. eexists. split; [exact Hshape|].
    split; [exact Hlen|].
    split; [now rewrite split_hex_prefix, split_hex|].
    split; apply from_hex_toString_hex.
Qed.

Lemma encrypt_decrypt_roundtrip_witness :
  exists stored,
    CredentialItems.encrypt (C := xorCipher) None (Sample.iv "a") "secret123"
    = Ok stored
    /\ CredentialItems.decrypt (C := xorCipher) None stored = Ok "secret123".
Proof.
  pose proof (encrypt_decrypt_roundtrip xorCipher xorCipher_laws None
                default_key_length) as [H _].
  destruct (H (Sample.iv "a") "secret123" eq_refl) as (stored & Henc & _ & Hdec).
  exists stored. split; [exact Henc | exact (Hdec eq_refl)].
Defined.

(** ** Consistency is kept by every call *)

Lemma keys_fresh_append {A : Type} (key : A -> Z) (rows : list A) (seq : Z) (r : A) :
  keys_fresh key rows seq -> key r = seq ->
  keys_fresh key (rows ++ [r]) (seq + 1).
Proof.
  intros [Hlt Hnd] Hr. split.
  - intros x Hx. apply in_app_iff in Hx. destruct Hx as [Hx|[<-|[]]].
    + specialize (Hlt x Hx). lia.
    + lia.
  - rewrite map_app. simpl.
    apply NoDup_app; [assumption | repeat constructor; intros [] |].
    intros k Hk [<-|[]]. apply in_map_iff in Hk.
    destruct Hk as (x & Hkx & Hx). specialize (Hlt x Hx). lia.
Qed.

Lemma keys_fresh_filter {A : Type} (key : A -> Z) (f : A -> bool)
  (rows : list A) (seq : Z) :
  keys_fresh key rows seq -> keys_fresh key (filter f rows) seq.
Proof.
  intros [Hlt Hnd]. split.
  - intros x Hx. apply filter_In in Hx. now apply Hlt.
  - now apply NoDup_map_filter.
Qed.

Lemma keys_fresh_update {A : Type} (key : A -> Z) (test : A -> bool) (f : A -> A)
  (rows : list A) (seq : Z) :
  (forall r, key (f r) = key r) ->
  keys_fresh key rows seq ->
  keys_fresh key (map (fun r => if test r then f r else r) rows) seq.
Proof.
  intros Hf [Hlt Hnd].
  assert (Hkeys : map key (map (fun r => if test r then f r else r) rows)
                  = map key rows).
  { rewrite map_map. apply map_ext. intros r. destruct (test r); auto. }
  split.
  - intros x Hx. apply in_map_iff in Hx. destruct Hx as (r & <- & Hr).
    specialize (Hlt r Hr). destruct (test r); [now rewrite Hf | assumption].
  - now rewrite Hkeys.
Qed.

Lemma keys_fresh_skip {A : Type} (key : A -> Z) (rows : list A) (seq : Z) :
  keys_fresh key rows seq -> keys_fresh key rows (seq + 1).
Proof.
  intros [Hlt Hnd]. split; [|assumption].
  intros x Hx. specialize (Hlt x Hx). lia.
Qed.

Lemma keys_fresh_default_categories (rows : list Category.t)
  (news : list (string * string * string)) (vaultId now seq : Z) :
  keys_fresh Category.id rows seq ->
  keys_fresh Category.id
    (rows ++ Vaults.insert_categories news vaultId now seq)
    (seq + Z.of_nat (List.length (Vaults.insert_categories news vaultId now seq))).
Proof.
  revert rows seq. induction news as [|[[n d] c] news IH]; intros rows seq H.
  - simpl. rewrite app_nil_r, Z.add_0_r. assumption.
  - cbn [Vaults.insert_categories List.length].
    replace (rows ++ Category.mk seq n (Some d) (Some c) vaultId now now
                       :: Vaults.insert_categories news vaultId now (seq + 1))
      with ((rows ++ [Category.mk seq n (Some d) (Some c) vaultId now now])
              ++ Vaults.insert_categories news vaultId now (seq + 1))
      by (now rewrite <- app_assoc).
    replace (seq + Z.of_nat (S (List.length
                                  (Vaults.insert_categories news vaultId now (seq + 1)))))
      with (seq + 1 + Z.of_nat (List.length
                                  (Vaults.insert_categories news vaultId now (seq + 1))))
      by lia.
    apply IH. now apply keys_fresh_append.
Qed.

Lemma refs_append_rows {A : Type} (ref : A -> Z) (rows news : list A)
  (vaults : list Vault.t) :
  refers_to_vaults ref rows vaults -> refers_to_vaults ref news vaults ->
  refers_to_vaults ref (rows ++ news) vaults.
Proof.
  intros H1 H2 r Hr. apply in_app_iff in Hr. destruct Hr; auto.
Qed.

Lemma refs_more_vaults {A : Type} (ref : A -> Z) (rows : list A)
  (vaults : list Vault.t) (v : Vault.t) :
  refers_to_vaults ref rows vaults -> refers_to_vaults ref rows (vaults ++ [v]).
Proof.
  intros H r Hr. destruct (H r Hr) as (w & Hw & Hid).
  exists w. split; [apply in_app_iff; now left | assumption].
Qed.

Lemma refs_filter_rows {A : Type} (ref : A -> Z) (f : A -> bool) (rows : list A)
  (vaults : list Vault.t) :
  refers_to_vaults ref rows vaults -> refers_to_vaults ref (filter f rows) vaults.
Proof. intros H r Hr. apply filter_In in Hr. now apply H. Qed.

Lemma refs_update_rows {A : Type} (ref : A -> Z) (test : A -> bool) (f : A -> A)
  (rows : list A) (vaults : list Vault.t) :
  (forall r, ref (f r) = ref r) ->
  refers_to_vaults ref rows vaults ->
  refers_to_vaults ref (map (fun r => if test r then f r else r) rows) vaults.
Proof.
  intros Hf H r Hr. apply in_map_iff in Hr. destruct Hr as (x & <- & Hx).
  destruct (H x Hx) as (v & Hv & Hid). exists v. split; [assumption|].
  destruct (test x); [now rewrite Hf | assumption].
Qed.

Lemma refs_update_vaults {A : Type} (ref : A -> Z) (test : Vault.t -> bool)
  (f : Vault.t -> Vault.t) (rows : list A) (vaults : list Vault.t) :
  (forall v, Vault.id (f v) = Vault.id v) ->
  refers_to_vaults ref rows vaults ->
  refers_to_vaults ref rows (map (fun v => if test v then f v else v) vaults).
Proof.
  intros Hf H r Hr. destruct (H r Hr) as (v & Hv & Hid).
  exists (if test v then f v else v). split.
  - apply in_map_iff. now exists v.
  - destruct (test v); [now rewrite Hf | assumption].
Qed.

Lemma refs_delete_vault {A : Type} (ref : A -> Z) (x : Z) (rows : list A)
  (vaults : list Vault.t) :
  refers_to_vaults ref rows vaults ->
  refers_to_vaults ref (filter (fun r => negb (ref r =? x)) rows)
    (filter (fun v => negb (Vault.id v =? x)) vaults).
Proof.
  intros H r Hr. apply filter_In in Hr. destruct Hr as [Hr Hne].
  destruct (H r Hr) as (v & Hv & Hid). exists v. split; [|assumption].
  apply filter_In. split; [assumption|]. now rewrite Hid.
Qed.

Lemma refs_single {A : Type} (ref : A -> Z) (r : A) (vaults : list Vault.t) :
  (exists v, In v vaults /\ Vault.id v = ref r) ->
  refers_to_vaults ref [r] vaults.
Proof. intros H x [<-|[]]. exact H. Qed.

Lemma filter_head_in {A : Type} (f : A -> bool) (l : list A) (x : A) (rest : list A) :
  filter f l = x :: rest -> In x l /\ f x = true.
Proof.
  intros H. apply filter_In. rewrite H. now left.
Qed.

Lemma permission_ok_vault_exists (vaultId userId : Z) (db : DB) (p : option string) :
  VaultPermissions.getUserPermissionForVault vaultId userId db = Ok p ->
  vault_exists db vaultId.
Proof.
  unfold VaultPermissions.getUserPermissionForVault.
  destruct (in_int4 vaultId); cbn [negb]; [|discriminate].
  destruct (filter _ (vaultsTable db)) as [|v0 rest] eqn:Hf; [discriminate|].
  intros _. destruct (filter_head_in _ _ _ _ Hf) as [Hin Hid].
  exists v0. split; [assumption | now apply Z.eqb_eq].
Qed.

Lemma permission_ok_in_int4 (vaultId userId : Z) (db : DB) (p : option string) :
  VaultPermissions.getUserPermissionForVault vaultId userId db = Ok p ->
  in_int4 vaultId = true.
Proof.
  unfold VaultPermissions.getUserPermissionForVault.
  now destruct (in_int4 vaultId).
Qed.

Lemma gate_in_int4 (vaultId userId : Z) (required : VaultPermission) (db : DB) :
  CredentialItems.checkVaultPermission vaultId userId required db = true ->
  in_int4 vaultId = true.
Proof.
  unfold CredentialItems.checkVaultPermission. now destruct (in_int4 vaultId).
Qed.

Lemma gate_vault_exists (vaultId userId : Z) (required : VaultPermission) (db : DB) :
  CredentialItems.checkVaultPermission vaultId userId required db = true ->
  vault_exists db vaultId.
Proof.
  unfold CredentialItems.checkVaultPermission.
  destruct (in_int4 vaultId); cbn [negb]; [|discriminate].
  destruct (filter _ (vaultsTable db)) as [|v0 rest] eqn:Hf; [discriminate|].

  intros _. destruct (filter_head_in _ _ _ _ Hf) as [Hin Hid].
  exists v0. split; [assumption | now apply Z.eqb_eq].
Qed.

Lemma default_categories_vault (news : list (string * string * string))
  (vaultId now seq : Z) (c : Category.t) :
  In c (Vaults.insert_categories news vaultId now seq) ->
  Category.vault_id c = vaultId.
Proof.
  revert seq. induction news as [|[[n d] col] news IH]; intros seq; simpl.
  - intros [].
  - intros [<-|H]; [reflexivity | now apply IH in H].
Qed.

Ltac break_match_eq :=
  repeat match goal with
         | |- context [match ?x with _ => _ end] => destruct x eqn:?
         end.

Section Consistency.

Context {C : BlockCipher}.
Variable env_key : option string.
Variable sha256_hex : string -> string.

Lemma createCredentialItem_effect (input : CreateCredentialItemInput.t)
  (userId : Z) (ivs : IVs.t) (now : Z) (db : DB) :
  let result := CredentialItems.createCredentialItem env_key input userId ivs now db in
  snd result = db
  \/ (CredentialItems.checkVaultPermission
        (CreateCredentialItemInput.vault_id input) userId write db = true
      /\ exists item,
          snd result
          = set_credentialItemsTable db (credentialItemsTable db ++ [item])
              (credential_items_id_seq db + 1)
          /\ CredentialItem.id item = credential_items_id_seq db
          /\ CredentialItem.vault_id item = CreateCredentialItemInput.vault_id input).
Proof.
  cbv zeta. unfold CredentialItems.createCredentialItem.
  destruct (CredentialItems.checkVaultPermission _ userId write db) eqn:Hgate;
    [|now left].
  cbn [negb].
  destruct (CredentialItems.encrypt_if_present env_key (IVs.password ivs) _);
    [|now left].
  destruct (CredentialItems.encrypt_if_present env_key (IVs.notes ivs) _);
    [|now left].
  destruct (CredentialItems.encrypt_if_present env_key (IVs.card_number ivs) _);
    [|now left].
  destruct (CredentialItems.encrypt_if_present env_key (IVs.card_cvv ivs) _);
    [|now left].
  destruct (CredentialItems.encrypt_if_present env_key (IVs.license_key ivs) _);
    [|now left].
  right. split; [reflexivity|]. eexists. cbn. repeat split.
Qed.

Lemma updateCredentialItem_effect (input : UpdateCredentialItemInput.t)
  (userId : Z) (ivs : IVs.t) (db : DB) :
  let result := CredentialItems.updateCredentialItem env_key input userId ivs db in
  snd result = db
  \/ exists set,
      snd result
      = set_credentialItemsTable db
          (map (fun i => if CredentialItem.id i =? UpdateCredentialItemInput.id input
                         then set i else i)
               (credentialItemsTable db))
          (credential_items_id_seq db)
      /\ forall i,
          CredentialItem.id (set i) = CredentialItem.id i
          /\ CredentialItem.vault_id (set i) = CredentialItem.vault_id i
          /\ CredentialItem.type (set i) = CredentialItem.type i
          /\ CredentialItem.created_by (set i) = CredentialItem.created_by i
          /\ CredentialItem.created_at (set i) = CredentialItem.created_at i
          /\ CredentialItem.updated_at (set i) = CredentialItem.updated_at i.
Proof.
  cbv zeta. unfold CredentialItems.updateCredentialItem.
  destruct (in_int4 _); cbn [negb]; [|now left].
  destruct (filter _ (credentialItemsTable db)) as [|existingItem ?]; [now left|].
  destruct (CredentialItems.checkVaultPermission _ userId write db); [|now left].
  cbn [negb]. destruct (updateData_is_empty input); [now left|].
  destruct (CredentialItems.encrypt_patch env_key (IVs.password ivs) _);
    [|now left].
  destruct (CredentialItems.encrypt_patch env_key (IVs.notes ivs) _);
    [|now left].
  destruct (CredentialItems.encrypt_patch env_key (IVs.card_number ivs) _);
    [|now left].
  destruct (CredentialItems.encrypt_patch env_key (IVs.card_cvv ivs) _);
    [|now left].
  destruct (CredentialItems.encrypt_patch env_key (IVs.license_key ivs) _);
    [|now left].
  right. eexists. cbn. split; [reflexivity|]. intros i. cbn. repeat split.
Qed.

Lemma run_primary_keys_fresh (c : System.Call) (db : DB) :
  primary_keys_fresh db -> primary_keys_fresh (System.run env_key sha256_hex c db).
Proof.
  intros Hdb. pose proof Hdb as (Hu & Hv & Hc & Hi & Hg).
  destruct c; cbn [System.run];
    [ unfold Users.createUser | unfold Users.updateUser | unfold Users.deleteUser
    | unfold Vaults.createVault | unfold Vaults.updateVault
    | unfold Vaults.deleteVault
    | unfold Categories.createCategory | unfold Categories.updateCategory
    | unfold Categories.deleteCategory
    | destruct (createCredentialItem_effect input userId ivs now db)
        as [->|(_ & item & -> & Hid & _)]
    | destruct (updateCredentialItem_effect input userId ivs db)
        as [->|(set & -> & Hset)]
    | unfold CredentialItems.deleteCredentialItem
    | unfold VaultPermissions.createVaultPermission
    | unfold VaultPermissions.updateVaultPermission
    | unfold VaultPermissions.revokeVaultPermission ];
    break_match; cbn [snd]; try exact Hdb;
    unfold primary_keys_fresh; cbn;
    refine (conj _ (conj _ (conj _ (conj _ _))));
    first [ assumption
          | apply keys_fresh_skip; assumption
          | apply keys_fresh_append; [assumption | first [reflexivity | assumption]]
          | apply keys_fresh_filter; assumption
          | apply keys_fresh_update; [reflexivity | assumption]
          | apply keys_fresh_update; [intros r; apply Hset | assumption]
          | apply (keys_fresh_default_categories _ Vaults.defaultCategories);
            assumption ].
Qed.

Lemma run_no_dangling_vault (c : System.Call) (db : DB) :
  no_dangling_vault db -> no_dangling_vault (System.run env_key sha256_hex c db).
Proof.
  intros Hdb. pose proof Hdb as (Hc & Hi & Hg).
  destruct c; cbn [System.run].
  - unfold Users.createUser. break_match; exact Hdb.
  - unfold Users.updateUser. break_match; exact Hdb.
  - unfold Users.deleteUser. break_match; exact Hdb.
  - (* createVault *)
    unfold Vaults.createVault, no_dangling_vault. cbn.
    refine (conj _ (conj _ _)).
    + apply refs_append_rows; [now apply refs_more_vaults|].
      intros c Hc'. eexists.
      split; [apply in_app_iff; right; left; reflexivity|].
      destruct Hc' as [<-|[<-|[<-|[<-|[]]]]]; reflexivity.
    + now apply refs_more_vaults.
    + apply refs_append_rows; [now apply refs_more_vaults|].
      apply refs_single. eexists.
      split; [apply in_app_iff; right; left; reflexivity | reflexivity].
  - (* updateVault *)
    unfold Vaults.updateVault. break_match; cbn [snd]; try exact Hdb;
      unfold no_dangling_vault; cbn;
      (refine (conj _ (conj _ _));
       (apply refs_update_vaults; [reflexivity | assumption])).
  - (* deleteVault *)
    unfold Vaults.deleteVault. break_match; cbn [snd]; try exact Hdb.
    unfold no_dangling_vault. cbn.
    refine (conj _ (conj _ _)); now apply refs_delete_vault.
  - (* createCategory *)
    unfold Categories.createCategory.
    destruct (Categories.checkVaultPermission _ userId write db) eqn:Hgate;
      cbn [negb snd]; [|exact Hdb].
    rewrite gates_agree in Hgate. apply gate_vault_exists in Hgate.
    unfold no_dangling_vault. cbn. refine (conj _ (conj Hi Hg)).
    apply refs_append_rows; [assumption | now apply refs_single].
  - (* updateCategory *)
    unfold Categories.updateCategory. break_match; cbn [snd]; try exact Hdb.
    unfold no_dangling_vault. cbn. refine (conj _ (conj Hi Hg)).
    apply refs_update_rows; [reflexivity | assumption].
  - (* deleteCategory *)
    unfold Categories.deleteCategory. break_match; cbn [snd]; try exact Hdb.
    unfold no_dangling_vault. cbn. refine (conj _ (conj _ Hg)).
    + now apply refs_filter_rows.
    + apply refs_update_rows; [reflexivity | assumption].
  - (* createCredentialItem *)
    destruct (createCredentialItem_effect input userId ivs now db)
      as [->|(Hgate & item & -> & _ & Hv)]; [exact Hdb|].
    apply gate_vault_exists in Hgate.
    unfold no_dangling_vault. cbn. refine (conj Hc (conj _ Hg)).
    apply refs_append_rows; [assumption|]. apply refs_single. now rewrite Hv.
  - (* updateCredentialItem *)
    destruct (updateCredentialItem_effect input userId ivs db)
      as [->|(set & -> & Hset)]; [exact Hdb|].
    unfold no_dangling_vault. cbn. refine (conj Hc (conj _ Hg)).
    apply refs_update_rows; [intros r; apply Hset | assumption].
  - (* deleteCredentialItem *)
    unfold CredentialItems.deleteCredentialItem.
    break_match; cbn [snd]; try exact Hdb.
    unfold no_dangling_vault. cbn. refine (conj Hc (conj _ Hg)).
    now apply refs_filter_rows.
  - (* createVaultPermission *)
    unfold VaultPermissions.createVaultPermission.
    destruct (VaultPermissions.getUserPermissionForVault _ grantedByUserId db)
      as [p|m] eqn:Hperm; [|exact Hdb].
    apply permission_ok_vault_exists in Hperm.
    break_match; cbn [snd]; try exact Hdb.
    unfold no_dangling_vault. cbn. refine (conj Hc (conj Hi _)).
    apply refs_append_rows; [assumption | now apply refs_single].
  - (* updateVaultPermission *)
    unfold VaultPermissions.updateVaultPermission.
    break_match; cbn [snd]; try exact Hdb.
    unfold no_dangling_vault. cbn. refine (conj Hc (conj Hi _)).
    apply refs_update_rows; [reflexivity | assumption].
  - (* revokeVaultPermission *)
    unfold VaultPermissions.revokeVaultPermission.
    break_match; cbn [snd]; try exact Hdb.
    unfold no_dangling_vault. cbn. refine (conj Hc (conj Hi _)).
    now apply refs_filter_rows.
Qed.

Lemma NoDup_append_new {A : Type} (l : list A) (x : A) :
  NoDup l -> ~ In x l -> NoDup (l ++ [x]).
Proof.
  intros Hnd Hx. apply NoDup_app; [assumption | repeat constructor; intros [] |].
  intros y Hy [<-|[]]. contradiction.
Qed.

Lemma run_grant_pairs_unique (c : System.Call) (db : DB) :
  primary_keys_fresh db -> no_dangling_vault db -> grant_pairs_unique db ->
  grant_pairs_unique (System.run env_key sha256_hex c db).
Proof.
  intros (_ & [Hvlt _] & _) (_ & _ & Hrefs) Hdb.
  unfold grant_pairs_unique in *.
  destruct c; cbn [System.run].
  - unfold Users.createUser. break_match; exact Hdb.
  - unfold Users.updateUser. break_match; exact Hdb.
  - unfold Users.deleteUser. break_match; exact Hdb.
  - (* createVault *)
    unfold Vaults.createVault. cbn. rewrite map_app. cbn.
    apply NoDup_append_new; [assumption|].
    intros Hin. apply in_map_iff in Hin. destruct Hin as (g & Hpair & Hg).
    injection Hpair as Hv _.
    destruct (Hrefs g Hg) as (v & Hin & Hid).
    specialize (Hvlt v Hin). lia.
  - unfold Vaults.updateVault. break_match; exact Hdb.
  - unfold Vaults.deleteVault. break_match; cbn [snd]; try exact Hdb.
    cbn. now apply NoDup_map_filter.
  - unfold Categories.createCategory. break_match; exact Hdb.
  - unfold Categories.updateCategory. break_match; exact Hdb.
  - unfold Categories.deleteCategory. break_match; exact Hdb.
  - destruct (createCredentialItem_effect input userId ivs now db)
      as [->|(_ & item & -> & _)]; exact Hdb.
  - destruct (updateCredentialItem_effect input userId ivs db)
      as [->|(set & -> & _)]; exact Hdb.
  - unfold CredentialItems.deleteCredentialItem. break_match; exact Hdb.
  - (* createVaultPermission *)
    unfold VaultPermissions.createVaultPermission.
    destruct (VaultPermissions.getUserPermissionForVault _ grantedByUserId db);
      [|exact Hdb].
    destruct (_ && _); [exact Hdb|].
    destruct (in_int4 _); cbn [negb]; [|exact Hdb].
    destruct (filter _ (usersTable db)) as [|u0 ?]; [exact Hdb|].

    destruct (negb _); [exact Hdb|].
    destruct (filter _ (vaultUserPermissionsTable db)) as [|g0 ?] eqn:Hf;
      [|exact Hdb].
    cbn. rewrite map_app. cbn. apply NoDup_append_new; [assumption|].
    intros Hin. apply in_map_iff in Hin. destruct Hin as (g & Hpair & Hg).
    injection Hpair as Hv Hu.
    rewrite filter_nil_iff in Hf. specialize (Hf g Hg).
    rewrite Hv, Hu, !Z.eqb_refl in Hf. discriminate.
  - (* updateVaultPermission *)
    unfold VaultPermissions.updateVaultPermission.
    break_match; cbn [snd]; try exact Hdb.
    cbn. rewrite map_map.
    erewrite map_ext; [exact Hdb|].
    intros g. now destruct (VaultUserPermission.id g =? _).
  - (* revokeVaultPermission *)
    unfold VaultPermissions.revokeVaultPermission.
    break_match; cbn [snd]; try exact Hdb.
    cbn. now apply NoDup_map_filter.
Qed.

Lemma run_store_consistent (c : System.Call) (db : DB) :
  store_consistent db -> store_consistent (System.run env_key sha256_hex c db).
Proof.
  intros (Hk & Hd & Hp). split; [|split].
  - now apply run_primary_keys_fresh.
  - now apply run_no_dangling_vault.
  - now apply run_grant_pairs_unique.
Qed.

Lemma emptyDB_consistent : store_consistent emptyDB.
Proof.
  split; [|split].
  - repeat split; try (intros r []); constructor.
  - repeat split; intros r [].
  - constructor.
Qed.

Lemma reachable_consistent (db : DB) :
  System.reachable env_key sha256_hex db -> store_consistent db.
Proof.
  intros [calls <-]. unfold System.runAll.
  generalize emptyDB_consistent. generalize emptyDB.
  induction calls as [|c calls IH]; intros db H; simpl; [assumption|].
  apply IH. now apply run_store_consistent.
Qed.

End Consistency.

(** ** Invariants of the reachable states *)

Lemma count_at_most_one {A K : Type} (key : A -> K) (test : A -> bool) (k : K)
  (l : list A) :
  NoDup (map key l) ->
  (forall x, In x l -> test x = true -> key x = k) ->
  (List.length (filter test l) <= 1)%nat.
Proof.
  induction l as [|a l IH]; simpl; intros Hnd Hkey; [lia|].
  inversion Hnd as [|? ? Hnotin Hnd']; subst.
  destruct (test a) eqn:Ha.
  - replace (filter test l) with (@nil A); [simpl; lia|].
    symmetry. apply filter_nil_iff. intros y Hy.
    destruct (test y) eqn:Hty; [|reflexivity].
    exfalso. apply Hnotin.
    rewrite (Hkey a (or_introl eq_refl) Ha), <- (Hkey y (or_intror Hy) Hty).
    now apply in_map.
  - apply IH; [assumption|]. intros x Hx. apply Hkey. now right.
Qed.

(** X1. In every state the handlers reach from the empty store, each of
    the five tables has distinct primary keys, all below the table's
    sequence. *)
Theorem reachable_primary_keys_fresh (C : BlockCipher) (env_key : option string)
  (sha256_hex : string -> string) (db : DB)
  (Hreach : System.reachable env_key sha256_hex db) :
  primary_keys_fresh db.
Proof.
  destruct Hreach as [calls <-]. unfold System.runAll.
  assert (Hstart : primary_keys_fresh emptyDB)
    by (repeat split; try (intros r []); constructor).
  revert Hstart. generalize emptyDB.
  induction calls as [|c calls IH]; intros db Hdb; cbn [fold_left]; [assumption|].
  apply IH. now apply run_primary_keys_fresh.
Qed.

Lemma reachable_primary_keys_fresh_witness : primary_keys_fresh Sample.db.
Proof.
  apply (reachable_primary_keys_fresh xorCipher None Sample.digest).
  exists Sample.history. vm_compute. reflexivity.
Defined.

(** X2. In every reachable state, every category, every credential item
    and every grant row refers to a vault row that exists: no call leaves a
    row of a deleted or never-created vault behind. *)
Theorem reachable_no_dangling_vault (C : BlockCipher) (env_key : option string)
  (sha256_hex : string -> string) (db : DB)
  (Hreach : System.reachable env_key sha256_hex db) :
  (forall c, In c (categoriesTable db) -> vault_exists db (Category.vault_id c))
  /\ (forall i, In i (credentialItemsTable db) ->
                vault_exists db (CredentialItem.vault_id i))
  /\ (forall g, In g (vaultUserPermissionsTable db) ->
                vault_exists db (VaultUserPermission.vault_id g)).
Proof.
  destruct (reachable_consistent env_key sha256_hex db Hreach)
    as (_ & (Hc & Hi & Hg) & _).
  repeat split; intros r Hr; [apply Hc | apply Hi | apply Hg]; assumption.
Qed.

Lemma reachable_no_dangling_vault_witness :
  Forall (fun i => vault_exists Sample.db (CredentialItem.vault_id i))
    (credentialItemsTable Sample.db).
Proof.
  apply Forall_forall.
  apply (reachable_no_dangling_vault xorCipher None Sample.digest).
  exists Sample.history. vm_compute. reflexivity.
Defined.

(** X3. In every reachable state there is at most one grant row for a
    (vault, user) pair: the query [getUserPermissionForVault] and the gates
    run finds at most one row. *)
Theorem reachable_grant_unique (C : BlockCipher) (env_key : option string)
  (sha256_hex : string -> string) (db : DB)
  (Hreach : System.reachable env_key sha256_hex db) :
  forall vaultId userId : Z,
    (List.length
       (filter (fun p => ((VaultUserPermission.vault_id p =? vaultId)
                          && (VaultUserPermission.user_id p =? userId))%Z)
               (vaultUserPermissionsTable db)) <= 1)%nat.
Proof.
  destruct (reachable_consistent env_key sha256_hex db Hreach) as (_ & _ & Hp).
  intros vaultId userId.
  apply (count_at_most_one grant_pair _ (vaultId, userId)); [exact Hp|].
  intros g _ Hg. apply andb_true_iff in Hg. destruct Hg as [Hv Hu].
  apply Z.eqb_eq in Hv, Hu. unfold grant_pair. now rewrite Hv, Hu.
Qed.

Lemma reachable_grant_unique_witness :
  (List.length
     (filter (fun p => ((VaultUserPermission.vault_id p =? 1)
                        && (VaultUserPermission.user_id p =? 1))%Z)
             (vaultUserPermissionsTable Sample.db)) <= 1)%nat.
Proof.
  apply (reachable_grant_unique xorCipher None Sample.digest).
  exists Sample.history. vm_compute. reflexivity.
Defined.

(** ** The permission grant manager *)

Lemma nth_error_update {A : Type} (test : A -> bool) (f : A -> A) (l : list A)
  (n : nat) (x : A) :
  nth_error l n = Some x ->
  nth_error (map (fun r => if test r then f r else r) l) n
  = Some (if test x then f x else x).
Proof.
  intros H. now apply nth_error_map_some with (f := fun r => if test r then f r else r).
Qed.

Lemma update_rows_in {A : Type} (test : A -> bool) (f : A -> A) (l : list A) (r : A) :
  In r l ->
  In (if test r then f r else r) (map (fun x => if test x then f x else x) l).
Proof. intros H. apply in_map_iff. now exists r. Qed.






Lemma NoDup_map_inj_in {A K : Type} (key : A -> K) (l : list A) (x y : A) :
  NoDup (map key l) -> In x l -> In y l -> key x = key y -> x = y.
Proof.
  induction l as [|a l IH]; simpl; intros Hnd Hx Hy Hk; [contradiction|].
  inversion Hnd as [|? ? Hnotin Hnd']; subst.
  destruct Hx as [->|Hx], Hy as [->|Hy].
  - reflexivity.
  - exfalso. apply Hnotin. rewrite Hk. now apply in_map.
  - exfalso. apply Hnotin. rewrite <- Hk. now apply in_map.
  - now apply IH.
Qed.

Lemma rank_of_permission_text (p : VaultPermission) :
  effective_rank (Ok (Some (permission_text p))) = required_rank p.
Proof. now destruct p. Qed.

Lemma createVaultPermission_ok_inv (input : CreateVaultPermissionInput.t)
  (caller now : Z) (db db' : DB) (row : VaultUserPermission.t) :
  VaultPermissions.createVaultPermission input caller now db = (Ok row, db') ->
  row = VaultUserPermission.mk (vault_user_permissions_id_seq db)
          (CreateVaultPermissionInput.vault_id input)
          (CreateVaultPermissionInput.user_id input)
          (CreateVaultPermissionInput.permission input) caller now
  /\ db' = set_vaultUserPermissionsTable db (vaultUserPermissionsTable db ++ [row])
             (vault_user_permissions_id_seq db + 1)
  /\ filter (fun p => (VaultUserPermission.vault_id p
                         =? CreateVaultPermissionInput.vault_id input)
                      && (VaultUserPermission.user_id p
                            =? CreateVaultPermissionInput.user_id input))
            (vaultUserPermissionsTable db) = []
  /\ (exists u, find (fun u => User.id u =? CreateVaultPermissionInput.user_id input)
                     (usersTable db) = Some u
                /\ User.is_active u = true).
Proof.
  unfold VaultPermissions.createVaultPermission.
  destruct (VaultPermissions.getUserPermissionForVault _ caller db) as [p|m];
    [|discriminate].
  destruct (_ && _); [discriminate|].
  destruct (in_int4 _); cbn [negb]; [|discriminate].
  rewrite <- first_row_filter.
  destruct (filter _ (usersTable db)) as [|u0 us]; [discriminate|].
  destruct (User.is_active u0) eqn:Hact; [|discriminate]. cbn [negb].
  destruct (filter _ (vaultUserPermissionsTable db)) as [|g0 gs];
    [|discriminate].
  cbn. intros [= <- <-]. repeat split. now exists u0.
Qed.

Lemma createVaultPermission_ok_range (input : CreateVaultPermissionInput.t)
  (caller now : Z) (db db' : DB) (row : VaultUserPermission.t) :
  VaultPermissions.createVaultPermission input caller now db = (Ok row, db') ->
  in_int4 (CreateVaultPermissionInput.vault_id input) = true
  /\ in_int4 (CreateVaultPermissionInput.user_id input) = true.
Proof.
  unfold VaultPermissions.createVaultPermission.
  destruct (VaultPermissions.getUserPermissionForVault _ caller db) as [p|m] eqn:Hp;
    [|discriminate].
  apply permission_ok_in_int4 in Hp.
  destruct (_ && _); [discriminate|].
  destruct (in_int4 (CreateVaultPermissionInput.user_id input)); [|discriminate].
  now split.
Qed.

Lemma permission_after_append (vaultId userId : Z) (db : DB)
  (row : VaultUserPermission.t) (seq : Z) :
  VaultPermissions.getUserPermissionForVault vaultId userId
    (set_vaultUserPermissionsTable db (vaultUserPermissionsTable db ++ [row]) seq)
  = match VaultPermissions.getUserPermissionForVault vaultId userId db with
    | Ok None =>
        if (VaultUserPermission.vault_id row =? vaultId)
           && (VaultUserPermission.user_id row =? userId)
        then Ok (Some (permission_text (VaultUserPermission.permission row)))
        else Ok None
    | other => other
    end.
Proof.
  unfold VaultPermissions.getUserPermissionForVault.
  cbn [vaultsTable vaultUserPermissionsTable set_vaultUserPermissionsTable].
  destruct (in_int4 vaultId); cbn [negb]; [|reflexivity].
  destruct (filter _ (vaultsTable db)) as [|v0 ?]; [reflexivity|].
  destruct (Vault.owner_id v0 =? userId); [reflexivity|].
  rewrite filter_app.
  destruct (filter _ (vaultUserPermissionsTable db)) as [|g0 ?]; [|reflexivity].
  cbn. now destruct (_ && _).
Qed.

(** X6. After a successful [createVaultPermission], the grantee's
    effective permission on the vault is the granted level (unless the
    grantee owns the vault), both gates answer by that level, and the
    effective permission of every other (vault, user) pair is what it was. *)
Theorem createVaultPermission_takes_effect (input : CreateVaultPermissionInput.t)
  (caller now : Z) (db db' : DB) (row : VaultUserPermission.t)
  (Hok : VaultPermissions.createVaultPermission input caller now db = (Ok row, db')) :
  let vaultId := CreateVaultPermissionInput.vault_id input in
  let target := CreateVaultPermissionInput.user_id input in
  let level := CreateVaultPermissionInput.permission input in
  (forall v,
      find (fun v => Vault.id v =? vaultId) (vaultsTable db) = Some v ->
      Vault.owner_id v <> target ->
      VaultPermissions.getUserPermissionForVault vaultId target db'
      = Ok (Some (permission_text level))
      /\ (forall required,
            CredentialItems.checkVaultPermission vaultId target required db'
            = (required_rank required <=? required_rank level)%nat
            /\ Categories.checkVaultPermission vaultId target required db'
               = (required_rank required <=? required_rank level)%nat))
  /\ (forall v u,
        v <> vaultId \/ u <> target ->
        VaultPermissions.getUserPermissionForVault v u db'
        = VaultPermissions.getUserPermissionForVault v u db).
Proof.
  cbv zeta. destruct (createVaultPermission_ok_range _ _ _ _ _ _ Hok) as [Hrange _].
  destruct (createVaultPermission_ok_inv _ _ _ _ _ _ Hok)
    as (Hrow & -> & Hnone & _).
  split.
  - intros v Hv Hne.
    assert (Heff : VaultPermissions.getUserPermissionForVault
                     (CreateVaultPermissionInput.vault_id input)
                     (CreateVaultPermissionInput.user_id input)
                     (set_vaultUserPermissionsTable db
                        (vaultUserPermissionsTable db ++ [row])
                        (vault_user_permissions_id_seq db + 1))
                   = Ok (Some (permission_text
                                 (CreateVaultPermissionInput.permission input)))).
    { rewrite permission_after_append.
      unfold VaultPermissions.getUserPermissionForVault.
      rewrite Hrange. cbn [negb].
      destruct (filter_find_some _ _ _ Hv) as [rest ->].

      apply Z.eqb_neq in Hne. rewrite Hne, Hnone.
      rewrite Hrow. cbn. now rewrite !Z.eqb_refl. }
    split; [exact Heff|].
    intros required.
    rewrite gate_rank_categories, gate_rank_items, Heff, rank_of_permission_text.
    now split.
  - intros v u Hother. rewrite permission_after_append.
    destruct (VaultPermissions.getUserPermissionForVault v u db) as [[s|]|m];
      try reflexivity.
    rewrite Hrow. cbn.
    destruct (Z.eqb_spec (CreateVaultPermissionInput.vault_id input) v) as [e|];
      [|reflexivity].
    destruct (Z.eqb_spec (CreateVaultPermissionInput.user_id input) u) as [e'|];
      [|reflexivity].
    exfalso. destruct Hother; congruence.
Qed.

Lemma createVaultPermission_takes_effect_witness :
  VaultPermissions.getUserPermissionForVault 2 3
    (snd (VaultPermissions.createVaultPermission
            (CreateVaultPermissionInput.mk 2 3 write) 2 50 Sample.db))
  = Ok (Some "write").
Proof.
  pose proof (createVaultPermission_takes_effect
                (CreateVaultPermissionInput.mk 2 3 write) 2 50 Sample.db _ _ eq_refl)
    as [H _].
  cbv zeta in H. destruct (H _ eq_refl ltac:(discriminate)) as [Heff _].
  exact Heff.
Defined.

(** X7. After a successful [createVaultPermission], a second call for the
    same vault and user never succeeds, whoever makes it: a caller who is
    admin or owner gets "User already has permissions for this vault", and
    the store stays as the first call left it. *)
Theorem createVaultPermission_twice (input : CreateVaultPermissionInput.t)
  (caller now : Z) (db db' : DB) (row : VaultUserPermission.t)
  (Hok : VaultPermissions.createVaultPermission input caller now db = (Ok row, db')) :
  forall level' caller' now',
    let again :=
      VaultPermissions.createVaultPermission
        (CreateVaultPermissionInput.mk (CreateVaultPermissionInput.vault_id input)
           (CreateVaultPermissionInput.user_id input) level')
        caller' now' db' in
    (exists msg, again = (Throw msg, db'))
    /\ (VaultPermissions.getUserPermissionForVault
          (CreateVaultPermissionInput.vault_id input) caller' db' = Ok (Some "admin")
        \/ VaultPermissions.getUserPermissionForVault
             (CreateVaultPermissionInput.vault_id input) caller' db' = Ok (Some "owner") ->
        again = (Throw "User already has permissions for this vault", db')).
Proof.
  intros level' caller' now'. cbv zeta.
  destruct (createVaultPermission_ok_range _ _ _ _ _ _ Hok) as [_ Htarget].
  destruct (createVaultPermission_ok_inv _ _ _ _ _ _ Hok)
    as (Hrow & Hdb' & Hnone & (u & Hu & Hact)).
  assert (Hdup : exists g gs,
             filter (fun p => (VaultUserPermission.vault_id p
                                 =? CreateVaultPermissionInput.vault_id input)
                              && (VaultUserPermission.user_id p
                                    =? CreateVaultPermissionInput.user_id input))
                    (vaultUserPermissionsTable db') = g :: gs).
  { rewrite Hdb'. cbn. rewrite filter_app, Hnone, Hrow. cbn.
    rewrite !Z.eqb_refl. cbn. now eexists _, _. }
  destruct Hdup as (g & gs & Hdup).
  assert (Husers : usersTable db' = usersTable db) by now rewrite Hdb'.
  destruct (filter_find_some _ _ _ Hu) as [us Hus].
  unfold VaultPermissions.createVaultPermission.
  cbn [CreateVaultPermissionInput.vault_id CreateVaultPermissionInput.user_id].
  rewrite Htarget, Husers, Hus, Hact, Hdup. cbn.
  split.
  - destruct (VaultPermissions.getUserPermissionForVault _ caller' db') as [p|m];
      [|now eexists].
    destruct (_ && _); now eexists.
  - intros [-> | ->]; reflexivity.
Qed.

Lemma createVaultPermission_twice_witness :
  VaultPermissions.createVaultPermission (CreateVaultPermissionInput.mk 2 3 admin)
    1 51
    (snd (VaultPermissions.createVaultPermission
            (CreateVaultPermissionInput.mk 2 3 write) 2 50 Sample.db))
  = (Throw "User already has permissions for this vault",
     snd (VaultPermissions.createVaultPermission
            (CreateVaultPermissionInput.mk 2 3 write) 2 50 Sample.db)).
Proof.
  pose proof (createVaultPermission_twice
                (CreateVaultPermissionInput.mk 2 3 write) 2 50 Sample.db _ _ eq_refl
                admin 1 51) as [_ H].
  cbv zeta in H. apply H. right. reflexivity.
Defined.

Lemma updateVaultPermission_ok_inv (input : UpdateVaultPermissionInput.t)
  (caller : Z) (db db' : DB) (g' : VaultUserPermission.t) :
  VaultPermissions.updateVaultPermission input caller db = (Ok g', db') ->
  exists g,
    In g (vaultUserPermissionsTable db)
    /\ VaultUserPermission.id g = UpdateVaultPermissionInput.id input
    /\ g' = VaultPermissions.with_permission g (UpdateVaultPermissionInput.permission input)
    /\ db' = set_vaultUserPermissionsTable db
               (map (fun p =>
                       if VaultUserPermission.id p =? UpdateVaultPermissionInput.id input
                       then VaultPermissions.with_permission p
                              (UpdateVaultPermissionInput.permission input)
                       else p)
                    (vaultUserPermissionsTable db))
               (vault_user_permissions_id_seq db)
    /\ in_int4 (VaultUserPermission.vault_id g) = true.
Proof.
  unfold VaultPermissions.updateVaultPermission.
  destruct (in_int4 _); cbn [negb]; [|discriminate].
  destruct (filter _ (vaultUserPermissionsTable db)) as [|g gs] eqn:Hf;
    [discriminate|].
  destruct (VaultPermissions.getUserPermissionForVault _ caller db) eqn:Hp;
    [|discriminate].
  apply permission_ok_in_int4 in Hp.
  destruct (_ && _); [discriminate|].
  destruct (_ =? caller); [discriminate|].
  intros [= <- <-]. exists g.
  destruct (filter_head_in _ _ _ _ Hf) as [Hin Hid]. apply Z.eqb_eq in Hid.
  repeat split; assumption.
Qed.

Lemma revokeVaultPermission_ok_inv (permissionId caller : Z) (db db' : DB) (b : bool) :
  VaultPermissions.revokeVaultPermission permissionId caller db = (Ok b, db') ->
  exists g v,
    In g (vaultUserPermissionsTable db)
    /\ VaultUserPermission.id g = permissionId
    /\ find (fun v => Vault.id v =? VaultUserPermission.vault_id g) (vaultsTable db)
       = Some v
    /\ Vault.owner_id v <> VaultUserPermission.user_id g
    /\ db' = set_vaultUserPermissionsTable db
               (filter (fun p => negb (VaultUserPermission.id p =? permissionId))
                       (vaultUserPermissionsTable db))
               (vault_user_permissions_id_seq db)
    /\ in_int4 (VaultUserPermission.vault_id g) = true.
Proof.
  unfold VaultPermissions.revokeVaultPermission.
  destruct (in_int4 permissionId); cbn [negb]; [|discriminate].
  destruct (filter _ (vaultUserPermissionsTable db)) as [|g gs] eqn:Hf;
    [discriminate|].
  destruct (VaultPermissions.getUserPermissionForVault _ caller db) eqn:Hp;
    [|discriminate].
  apply permission_ok_in_int4 in Hp.
  destruct (_ && _); [discriminate|].
  destruct (filter _ (vaultsTable db)) as [|v vs] eqn:Hfv; [discriminate|].
  destruct (Z.eqb_spec (Vault.owner_id v) (VaultUserPermission.user_id g)) as [|Hne];
    [discriminate|].
  intros [= _ <-]. exists g, v.
  destruct (filter_head_in _ _ _ _ Hf) as [Hin Hid]. apply Z.eqb_eq in Hid.
  split; [assumption|]. split; [assumption|].
  split; [now rewrite <- first_row_filter, Hfv|].
  split; [assumption|]. split; [reflexivity | assumption].
Qed.

Lemma pair_test (vaultId userId : Z) (g : VaultUserPermission.t) :
  (VaultUserPermission.vault_id g =? vaultId)
  && (VaultUserPermission.user_id g =? userId) = true
  <-> grant_pair g = (vaultId, userId).
Proof.
  unfold grant_pair. rewrite andb_true_iff, !Z.eqb_eq. split.
  - now intros [-> ->].
  - now intros [= -> ->].
Qed.

Lemma filter_unique_pair (db : DB) (g : VaultUserPermission.t) :
  grant_pairs_unique db -> In g (vaultUserPermissionsTable db) ->
  filter (fun p => (VaultUserPermission.vault_id p =? VaultUserPermission.vault_id g)
                   && (VaultUserPermission.user_id p =? VaultUserPermission.user_id g))
         (vaultUserPermissionsTable db)
  = [g].
Proof.
  unfold grant_pairs_unique. intros Hnd Hin.
  induction (vaultUserPermissionsTable db) as [|a l IH]; [contradiction|].
  cbn in Hnd. inversion Hnd as [|? ? Hnotin Hnd']; subst. cbn [filter].
  destruct Hin as [->|Hin].
  - rewrite !Z.eqb_refl. cbn. f_equal.
    apply filter_nil_iff. intros y Hy.
    destruct (_ && _) eqn:E; [|reflexivity].
    exfalso. apply Hnotin. apply pair_test in E.
    change (grant_pair g)
      with (VaultUserPermission.vault_id g, VaultUserPermission.user_id g).
    rewrite <- E. now apply in_map.
  - destruct (_ && _) eqn:E; [|now apply IH].
    exfalso. apply Hnotin. apply pair_test in E. rewrite E.
    change (VaultUserPermission.vault_id g, VaultUserPermission.user_id g)
      with (grant_pair g).
    now apply in_map.
Qed.

Lemma filter_pair_after_update (level : VaultPermission) (id v u : Z)
  (l : list VaultUserPermission.t) :
  filter (fun p => (VaultUserPermission.vault_id p =? v)
                   && (VaultUserPermission.user_id p =? u))
         (map (fun p => if VaultUserPermission.id p =? id
                        then VaultPermissions.with_permission p level else p) l)
  = map (fun p => if VaultUserPermission.id p =? id
                  then VaultPermissions.with_permission p level else p)
        (filter (fun p => (VaultUserPermission.vault_id p =? v)
                          && (VaultUserPermission.user_id p =? u)) l).
Proof.
  rewrite filter_map_comm. f_equal. apply filter_ext. intros p.
  now destruct (VaultUserPermission.id p =? id).
Qed.

(** X8. In a consistent store (distinct keys, at most one grant per
    vault and user), a successful [updateVaultPermission] takes effect: the
    row's user now holds the new level on the row's vault (unless that user
    owns it), and the effective permission of every other (vault, user)
    pair is what it was. *)
Theorem updateVaultPermission_takes_effect (input : UpdateVaultPermissionInput.t)
  (caller : Z) (db db' : DB) (g' : VaultUserPermission.t)
  (Hcons : store_consistent db)
  (Hok : VaultPermissions.updateVaultPermission input caller db = (Ok g', db')) :
  let vaultId := VaultUserPermission.vault_id g' in
  let user := VaultUserPermission.user_id g' in
  (forall v,
      find (fun v => Vault.id v =? vaultId) (vaultsTable db) = Some v ->
      Vault.owner_id v <> user ->
      VaultPermissions.getUserPermissionForVault vaultId user db'
      = Ok (Some (permission_text (UpdateVaultPermissionInput.permission input))))
  /\ (forall v u,
        v <> vaultId \/ u <> user ->
        VaultPermissions.getUserPermissionForVault v u db'
        = VaultPermissions.getUserPermissionForVault v u db).
Proof.
  cbv zeta. destruct Hcons as ((_ & _ & _ & _ & [_ Hids]) & _ & Hpairs).
  destruct (updateVaultPermission_ok_inv _ _ _ _ _ Hok)
    as (g & Hin & Hid & -> & -> & Hrange).
  cbn [VaultPermissions.with_permission VaultUserPermission.vault_id
         VaultUserPermission.user_id].
  split.
  - intros v Hv Hne. unfold VaultPermissions.getUserPermissionForVault.
    rewrite Hrange. cbn.
    destruct (filter_find_some _ _ _ Hv) as [rest ->].
    apply Z.eqb_neq in Hne. rewrite Hne.
    rewrite filter_pair_after_update.
    rewrite (filter_unique_pair db g Hpairs Hin). cbn.
    now rewrite Hid, Z.eqb_refl.
  - intros v u Hother. unfold VaultPermissions.getUserPermissionForVault. cbn.
    destruct (negb (in_int4 v)); [reflexivity|].
    destruct (filter _ (vaultsTable db)) as [|v0 ?]; [reflexivity|].
    destruct (Vault.owner_id v0 =? u); [reflexivity|].
    rewrite filter_pair_after_update.
    replace (map _ (filter _ (vaultUserPermissionsTable db)))
      with (filter (fun p => (VaultUserPermission.vault_id p =? v)
                             && (VaultUserPermission.user_id p =? u))
                   (vaultUserPermissionsTable db)); [reflexivity|].
    rewrite <- (map_id (filter _ _)) at 1. apply map_ext_in.
    intros x Hx. apply filter_In in Hx. destruct Hx as [Hx Hp].
    destruct (Z.eqb_spec (VaultUserPermission.id x)
                (UpdateVaultPermissionInput.id input)) as [e|]; [|reflexivity].
    exfalso. apply pair_test in Hp.
    assert (x = g).
    { apply (NoDup_map_inj_in VaultUserPermission.id _ x g Hids Hx Hin). congruence. }
    subst x. unfold grant_pair in Hp. injection Hp as <- <-.
    destruct Hother; congruence.
Qed.

Lemma filter_filter_same {A : Type} (P Q : A -> bool) (l : list A) :
  (forall x, In x l -> P x = true -> Q x = true) ->
  filter P (filter Q l) = filter P l.
Proof.
  induction l as [|a l IH]; intros H; [reflexivity|]. cbn.
  destruct (Q a) eqn:Qa; cbn.
  - destruct (P a); [f_equal|]; apply IH; intros x Hx; apply H; now right.
  - destruct (P a) eqn:Pa.
    + rewrite (H a (or_introl eq_refl) Pa) in Qa. discriminate.
    + apply IH. intros x Hx. apply H. now right.
Qed.

(** X9. In a consistent store, a successful [revokeVaultPermission] takes
    effect: the row's user is left with no permission on the row's vault,
    and the effective permission of every other (vault, user) pair is what
    it was. *)
Theorem revokeVaultPermission_takes_effect (permissionId caller : Z) (db db' : DB)
  (b : bool)
  (Hcons : store_consistent db)
  (Hok : VaultPermissions.revokeVaultPermission permissionId caller db = (Ok b, db')) :
  exists g,
    find (fun p => VaultUserPermission.id p =? permissionId)
         (vaultUserPermissionsTable db) = Some g
    /\ VaultPermissions.getUserPermissionForVault
         (VaultUserPermission.vault_id g) (VaultUserPermission.user_id g) db'
       = Ok None
    /\ (forall required,
          CredentialItems.checkVaultPermission
            (VaultUserPermission.vault_id g) (VaultUserPermission.user_id g)
            required db' = false)
    /\ (forall v u,
          v <> VaultUserPermission.vault_id g \/ u <> VaultUserPermission.user_id g ->
          VaultPermissions.getUserPermissionForVault v u db'
          = VaultPermissions.getUserPermissionForVault v u db).
Proof.
  destruct Hcons as ((_ & _ & _ & _ & [_ Hids]) & _ & Hpairs).
  pose proof Hok as Hinv. apply revokeVaultPermission_ok_inv in Hinv.
  destruct Hinv as (g & v & Hin & Hid & Hv & Hne & -> & Hrange).
  exists g.
  assert (Hfind : find (fun p => VaultUserPermission.id p =? permissionId)
                       (vaultUserPermissionsTable db) = Some g).
  { unfold VaultPermissions.revokeVaultPermission in Hok.
    destruct (in_int4 permissionId); [|discriminate]. cbn [negb] in Hok.
    rewrite <- first_row_filter.
    destruct (filter _ (vaultUserPermissionsTable db)) as [|g0 gs] eqn:Hf;
      [discriminate|].
    destruct (filter_head_in _ _ _ _ Hf) as [Hin0 Hid0]. apply Z.eqb_eq in Hid0.
    cbn. f_equal.
    apply (NoDup_map_inj_in VaultUserPermission.id _ g0 g Hids Hin0 Hin). congruence. }
  assert (Heff : VaultPermissions.getUserPermissionForVault
                   (VaultUserPermission.vault_id g) (VaultUserPermission.user_id g)
                   (set_vaultUserPermissionsTable db
                      (filter (fun p => negb (VaultUserPermission.id p =? permissionId))
                              (vaultUserPermissionsTable db))
                      (vault_user_permissions_id_seq db))
                 = Ok None).
  { unfold VaultPermissions.getUserPermissionForVault. rewrite Hrange. cbn.
    destruct (filter_find_some _ _ _ Hv) as [rest ->].
    apply Z.eqb_neq in Hne. rewrite Hne.
    replace (filter _ (filter _ (vaultUserPermissionsTable db)))
      with (@nil VaultUserPermission.t); [reflexivity|].
    symmetry. apply filter_nil_iff. intros x Hx.
    apply filter_In in Hx. destruct Hx as [Hx Hnid].
    destruct (_ && _) eqn:E; [|reflexivity].
    exfalso. apply pair_test in E.
    assert (x = g) by (apply (NoDup_map_inj_in grant_pair _ x g Hpairs Hx Hin E)).
    subst x. rewrite Hid, Z.eqb_refl in Hnid. discriminate. }
  split; [exact Hfind|]. split; [exact Heff|]. split.
  - intros required. now rewrite gate_rank_items, Heff; destruct required.
  - intros v' u Hother. unfold VaultPermissions.getUserPermissionForVault. cbn.
    destruct (negb (in_int4 v')); [reflexivity|].
    destruct (filter _ (vaultsTable db)) as [|v0 ?]; [reflexivity|].
    destruct (Vault.owner_id v0 =? u); [reflexivity|].
    rewrite filter_filter_same; [reflexivity|].
    intros x Hx Hp. apply negb_true_iff, Z.eqb_neq. intros Hxid.
    apply pair_test in Hp.
    assert (x = g).
    { apply (NoDup_map_inj_in VaultUserPermission.id _ x g Hids Hx Hin). congruence. }
    subst x. unfold grant_pair in Hp. injection Hp as <- <-.
    destruct Hother; congruence.
Qed.

Lemma sample_consistent : store_consistent Sample.db.
Proof.
  apply (reachable_consistent (C := xorCipher) None Sample.digest).
  exists Sample.history. vm_compute. reflexivity.
Qed.

Lemma updateVaultPermission_takes_effect_witness :
  VaultPermissions.getUserPermissionForVault 1 3
    (snd (VaultPermissions.updateVaultPermission
            (UpdateVaultPermissionInput.mk 4 write) 1 Sample.db))
  = Ok (Some "write").
Proof.
  pose proof (updateVaultPermission_takes_effect
                (UpdateVaultPermissionInput.mk 4 write) 1 Sample.db _ _
                sample_consistent eq_refl) as [H _].
  cbv zeta in H. exact (H _ eq_refl ltac:(discriminate)).
Defined.

Lemma revokeVaultPermission_takes_effect_witness :
  VaultPermissions.getUserPermissionForVault 1 3
    (snd (VaultPermissions.revokeVaultPermission 4 1 Sample.db))
  = Ok None.
Proof.
  destruct (revokeVaultPermission_takes_effect 4 1 Sample.db _ true
              sample_consistent eq_refl) as (g & Hg & Heff & _).
  vm_compute in Hg. injection Hg as <-. exact Heff.
Defined.

(** ** The vault lifecycle *)

Lemma filter_none_lt {A : Type} (key : A -> Z) (rows : list A) (seq : Z) :
  (forall r, In r rows -> key r < seq) ->
  filter (fun r => key r =? seq) rows = [].
Proof.
  intros H. apply filter_nil_iff. intros r Hr. apply Z.eqb_neq.
  specialize (H r Hr). lia.
Qed.




Lemma filter_empty_existsb {A : Type} (f : A -> bool) (l : list A) :
  (List.length (filter f l) =? 0)%nat = negb (existsb f l).
Proof.
  induction l as [|a l IH]; [reflexivity|]. cbn.
  destruct (f a); [reflexivity | exact IH].
Qed.

Lemma existsb_false_iff {A : Type} (f : A -> bool) (l : list A) :
  existsb f l = false <-> ~ exists x, In x l /\ f x = true.
Proof.
  rewrite <- existsb_exists. destruct (existsb f l); split; intros H;
    try reflexivity; try discriminate; try (intros K; discriminate).
  exfalso. now apply H.
Qed.

Lemma admin_row_test (id caller : Z) (g : VaultUserPermission.t) :
  (VaultUserPermission.vault_id g =? id) && (VaultUserPermission.user_id g =? caller)
  && VaultPermission_eqb (VaultUserPermission.permission g) admin = true
  <-> VaultUserPermission.vault_id g = id /\ VaultUserPermission.user_id g = caller
      /\ VaultUserPermission.permission g = admin.
Proof.
  rewrite !andb_true_iff, !Z.eqb_eq.
  destruct (VaultUserPermission.permission g); cbn; intuition congruence.
Qed.

Lemma owner_row_test (id caller : Z) (v : Vault.t) :
  (Vault.id v =? id) && (Vault.owner_id v =? caller) = true
  <-> Vault.id v = id /\ Vault.owner_id v = caller.
Proof. now rewrite andb_true_iff, !Z.eqb_eq. Qed.



(** X12. In a consistent store, for a caller id within int4 and a patch
    whose texts hold no U+0000 and no surrogate without its partner,
    [updateVault] and the evaluator agree on who may update: the call
    succeeds exactly when the caller's effective permission on the vault is
    admin or owner.  (A patch with U+0000 in a text is rejected by the store
    whoever calls; that rejection is outside this model.) *)
Theorem updateVault_agrees_with_evaluator (input : UpdateVaultInput.t)
  (caller now : Z) (db : DB) (Hcons : store_consistent db)
  (Hcaller : in_int4 caller = true)
  (Hname : text_kept_opt (UpdateVaultInput.name input) = true)
  (Hdescription : text_kept_patch (UpdateVaultInput.description input) = true) :
  let effective :=
    VaultPermissions.getUserPermissionForVault (UpdateVaultInput.id input) caller db in
  (exists v, fst (Vaults.updateVault input caller now db) = Ok v)
  <-> effective = Ok (Some "admin") \/ effective = Ok (Some "owner").
Proof.
  cbv zeta. destruct Hcons as ((_ & [_ Hvids] & _) & _ & Hpairs).
  unfold Vaults.updateVault, VaultPermissions.getUserPermissionForVault.
  destruct (in_int4 (UpdateVaultInput.id input)); cbn [negb].
  2:{ cbn. split; [intros [w Hw]; discriminate | intros [H|H]; discriminate]. }
  destruct (filter (fun v => Vault.id v =? UpdateVaultInput.id input) (vaultsTable db))
    as [|v rest] eqn:Hf.
  { cbn. split; [intros [w Hw]; discriminate | intros [H|H]; discriminate]. }
  destruct (filter_head_in _ _ _ _ Hf) as [Hv Hid]. apply Z.eqb_eq in Hid.
  cbn [List.length Nat.eqb]. rewrite !filter_empty_existsb.
  assert (Hown : existsb (fun w => (Vault.id w =? UpdateVaultInput.id input)
                                   && (Vault.owner_id w =? caller)) (vaultsTable db)
                 = (Vault.owner_id v =? caller)).
  { destruct (Vault.owner_id v =? caller) eqn:Ho.
    - apply existsb_exists. exists v. split; [assumption|].
      now rewrite Hid, Z.eqb_refl.
    - apply existsb_false_iff. intros (w & Hw & Ht). apply owner_row_test in Ht.
      destruct Ht as [Hwid Hwo].
      assert (w = v) by (apply (NoDup_map_inj_in Vault.id _ w v Hvids Hw Hv);
                         congruence).
      subst w. rewrite Hwo, Z.eqb_refl in Ho. discriminate. }
  rewrite Hown.
  destruct (Vault.owner_id v =? caller) eqn:Ho.
  { rewrite andb_false_r. cbn. split; [now right | now eexists]. }
  cbn [negb]. rewrite andb_true_r.
  destruct (filter (fun p => (VaultUserPermission.vault_id p =? UpdateVaultInput.id input)
                             && (VaultUserPermission.user_id p =? caller))
                   (vaultUserPermissionsTable db)) as [|g gs] eqn:Hg.
  - replace (existsb _ (vaultUserPermissionsTable db)) with false.
    + cbn. split; [intros [w Hw]; discriminate | intros [H|H]; discriminate].
    + symmetry. apply existsb_false_iff. intros (x & Hx & Ht).
      apply admin_row_test in Ht. rewrite filter_nil_iff in Hg.
      specialize (Hg x Hx). destruct Ht as (Hxv & Hxu & _).
      rewrite Hxv, Hxu, !Z.eqb_refl in Hg. discriminate.
  - destruct (filter_head_in _ _ _ _ Hg) as [Hgin Hgp]. apply pair_test in Hgp.
    assert (Hadm : existsb
              (fun p => (VaultUserPermission.vault_id p =? UpdateVaultInput.id input)
                        && (VaultUserPermission.user_id p =? caller)
                        && VaultPermission_eqb (VaultUserPermission.permission p) admin)
              (vaultUserPermissionsTable db)
            = VaultPermission_eqb (VaultUserPermission.permission g) admin).
    { destruct (VaultPermission_eqb (VaultUserPermission.permission g) admin) eqn:Hp.
      - apply existsb_exists. exists g. split; [assumption|].
        apply pair_test in Hgp. now rewrite Hgp.
      - apply existsb_false_iff. intros (x & Hx & Ht).
        apply andb_true_iff in Ht. destruct Ht as [Ht Hxp].
        apply pair_test in Ht.
        assert (x = g) by (apply (NoDup_map_inj_in grant_pair _ x g Hpairs Hx Hgin);
                           congruence).
        subst x. congruence. }
    rewrite Hadm.
    destruct (VaultUserPermission.permission g); cbn;
      (split; [ first [ intros _; now left | intros [w Hw]; discriminate ]
              | first [ intros _; now eexists | intros [H|H]; discriminate ] ]).
Qed.

Lemma updateVault_agrees_with_evaluator_witness :
  exists v,
    fst (Vaults.updateVault (UpdateVaultInput.mk 2 None None (Some false)) 2 70
           Sample.db) = Ok v.
Proof.
  apply (updateVault_agrees_with_evaluator
           (UpdateVaultInput.mk 2 None None (Some false)) 2 70 Sample.db
           sample_consistent eq_refl eq_refl eq_refl).
  left. reflexivity.
Defined.

(** ** Reading vaults *)

Lemma in_leftJoin (db : DB) (v : Vault.t) (o : option VaultUserPermission.t) :
  In (v, o) (Vaults.leftJoin_permissions db)
  <-> In v (vaultsTable db)
      /\ match o with
         | Some p => In p (vaultUserPermissionsTable db)
                     /\ VaultUserPermission.vault_id p = Vault.id v
         | None => forall p, In p (vaultUserPermissionsTable db) ->
                             VaultUserPermission.vault_id p <> Vault.id v
         end.
Proof.
  unfold Vaults.leftJoin_permissions. rewrite in_flat_map. split.
  - intros (w & Hw & Hin).
    destruct (filter _ (vaultUserPermissionsTable db)) as [|p ps] eqn:Hf.
    + destruct Hin as [[= <- <-]|[]]. split; [assumption|].
      intros p Hp E. rewrite filter_nil_iff in Hf. specialize (Hf p Hp).
      rewrite E, Z.eqb_refl in Hf. discriminate.
    + apply in_map_iff in Hin. destruct Hin as (q & [= <- <-] & Hq).
      rewrite <- Hf in Hq. apply filter_In in Hq. destruct Hq as [Hq Ht].
      apply Z.eqb_eq in Ht. now repeat split.
  - intros [Hv Ho]. exists v. split; [assumption|].
    destruct (filter _ (vaultUserPermissionsTable db)) as [|p ps] eqn:Hf.
    + destruct o as [q|]; [|now left].
      exfalso. destruct Ho as [Hq E]. rewrite filter_nil_iff in Hf.
      specialize (Hf q Hq). rewrite E, Z.eqb_refl in Hf. discriminate.
    + destruct o as [q|].
      * destruct Ho as [Hq E]. apply in_map_iff. exists q. split; [reflexivity|].
        rewrite <- Hf. apply filter_In. split; [assumption|].
        now rewrite E, Z.eqb_refl.
      * exfalso. destruct (filter_head_in _ _ _ _ Hf) as [Hp Ht].
        apply Z.eqb_eq in Ht. now apply (Ho p Hp).
Qed.

Lemma leftJoin_has_row (db : DB) (v : Vault.t) :
  In v (vaultsTable db) -> exists o, In (v, o) (Vaults.leftJoin_permissions db).
Proof.
  intros Hv. unfold Vaults.leftJoin_permissions.
  destruct (filter (fun p => Vault.id v =? VaultUserPermission.vault_id p)
                   (vaultUserPermissionsTable db)) as [|p ps] eqn:Hf.
  - exists None. apply in_flat_map. exists v. split; [assumption|].
    rewrite Hf. now left.
  - exists (Some p). apply in_flat_map. exists v. split; [assumption|].
    rewrite Hf. now left.
Qed.

Lemma accessible_row (db : DB) (u : Z) (v : Vault.t) :
  (exists o, In (v, o) (Vaults.leftJoin_permissions db)
             /\ Vaults.owner_or_grantee u (v, o) = true)
  <-> In v (vaultsTable db)
      /\ (Vault.owner_id v = u
          \/ exists g, In g (vaultUserPermissionsTable db)
                       /\ VaultUserPermission.vault_id g = Vault.id v
                       /\ VaultUserPermission.user_id g = u).
Proof.
  unfold Vaults.owner_or_grantee. cbn [fst snd]. split.
  - intros (o & Hin & Ht). apply in_leftJoin in Hin. destruct Hin as [Hv Ho].
    split; [assumption|].
    apply orb_true_iff in Ht. destruct Ht as [Ht|Ht].
    + left. now apply Z.eqb_eq.
    + destruct o as [p|]; [|discriminate]. right. exists p.
      apply Z.eqb_eq in Ht. tauto.
  - intros [Hv [Ho|(g & Hg & Hgv & Hgu)]].
    + destruct (leftJoin_has_row db v Hv) as [o Hin]. exists o.
      split; [assumption|]. apply orb_true_iff. left. now apply Z.eqb_eq.
    + exists (Some g). split.
      * apply in_leftJoin. now repeat split.
      * apply orb_true_iff. right. now apply Z.eqb_eq.
Qed.

Lemma dedupe_spec (results acc : list Vault.t) :
  let step := fun acc vault =>
    if existsb (fun v => Vault.id v =? Vault.id vault) acc then acc
    else acc ++ [vault] in
  NoDup (map Vault.id acc) ->
  NoDup (map Vault.id (fold_left step results acc))
  /\ (forall v, In v (fold_left step results acc) -> In v acc \/ In v results)
  /\ (forall v, In v acc \/ In v results ->
                exists v', In v' (fold_left step results acc)
                           /\ Vault.id v' = Vault.id v).
Proof.
  cbv zeta. revert acc. induction results as [|r results IH]; intros acc Hnd.
  - cbn. split; [assumption|]. split; [tauto|].
    intros v [Hv|[]]. now exists v.
  - cbn [fold_left].
    destruct (existsb (fun v => Vault.id v =? Vault.id r) acc) eqn:He.
    + destruct (IH acc Hnd) as (H1 & H2 & H3). split; [assumption|]. split.
      * intros v Hv. destruct (H2 v Hv); [now left | right; now right].
      * intros v [Hv|[<-|Hv]]; [apply H3; now left | | apply H3; now right].
        apply existsb_exists in He. destruct He as (w & Hw & Hid).
        apply Z.eqb_eq in Hid. destruct (H3 w (or_introl Hw)) as (v' & Hv' & E).
        exists v'. split; [assumption | congruence].
    + assert (Hnd' : NoDup (map Vault.id (acc ++ [r]))).
      { rewrite map_app. cbn. apply NoDup_append_new; [assumption|].
        intros Hin. apply in_map_iff in Hin. destruct Hin as (w & Hid & Hw).
        apply existsb_false_iff in He. apply He. exists w.
        split; [assumption | now apply Z.eqb_eq]. }
      destruct (IH (acc ++ [r]) Hnd') as (H1 & H2 & H3).
      split; [assumption|]. split.
      * intros v Hv. destruct (H2 v Hv) as [Hin|Hin]; [|right; now right].
        apply in_app_iff in Hin. destruct Hin as [Hin|[<-|[]]];
          [now left | right; now left].
      * intros v [Hv|[<-|Hv]].
        -- apply H3. left. apply in_app_iff. now left.
        -- apply H3. left. apply in_app_iff. right. now left.
        -- apply H3. now right.
Qed.

(** X13. [getVaultsByUser] lists each vault id at most once; every vault
    it lists is a vault row the user owns or holds a grant on; and every
    such vault is listed. *)
Theorem getVaultsByUser_spec (userId : Z) (db : DB) :
  let accessible := fun v =>
    Vault.owner_id v = userId
    \/ exists g, In g (vaultUserPermissionsTable db)
                 /\ VaultUserPermission.vault_id g = Vault.id v
                 /\ VaultUserPermission.user_id g = userId in
  exists l,
    Vaults.getVaultsByUser userId db = Ok l
    /\ NoDup (map Vault.id l)
    /\ (forall v, In v l -> In v (vaultsTable db) /\ accessible v)
    /\ (forall v, In v (vaultsTable db) -> accessible v ->
                  exists v', In v' l /\ Vault.id v' = Vault.id v).
Proof.
  cbv zeta. unfold Vaults.getVaultsByUser. eexists. split; [reflexivity|].
  set (results := map fst (filter (Vaults.owner_or_grantee userId)
                                  (Vaults.leftJoin_permissions db))).
  assert (Hres : forall v, In v results
                           <-> exists o, In (v, o) (Vaults.leftJoin_permissions db)
                                         /\ Vaults.owner_or_grantee userId (v, o) = true).
  { intros v. unfold results. rewrite in_map_iff. split.
    - intros ([w o] & E & Hin). cbn in E. subst w. apply filter_In in Hin. now exists o.
    - intros (o & Hin & Ht). exists (v, o). split; [reflexivity|].
      now apply filter_In. }
  destruct (dedupe_spec results [] (NoDup_nil _)) as (H1 & H2 & H3).
  cbv zeta in H1, H2, H3. split; [exact H1|]. split.
  - intros v Hv. destruct (H2 v Hv) as [[]|Hin].
    apply Hres in Hin. now apply accessible_row in Hin.
  - intros v Hv Hacc. apply H3. right. apply Hres. apply accessible_row. now split.
Qed.








(** X15. [getVaultPermissions] rejects with the evaluator's error when the
    vault is missing and with the insufficient-permission error unless the
    caller is admin or owner.  Otherwise it lists exactly the grant rows of
    the vault whose user exists in the users table: a grant to a user id
    with no user row is not listed. *)
Theorem getVaultPermissions_spec (vaultId caller : Z) (db : DB) :
  let result := VaultPermissions.getVaultPermissions vaultId caller db in
  let effective := VaultPermissions.getUserPermissionForVault vaultId caller db in
  (forall msg, effective = Throw msg -> result = Throw msg)
  /\ (forall p, effective = Ok p -> p <> Some "admin" -> p <> Some "owner" ->
        result
        = Throw "Insufficient permissions: Only admin users can view vault permissions")
  /\ (effective = Ok (Some "admin") \/ effective = Ok (Some "owner") ->
      exists l,
        result = Ok l
        /\ forall g,
             In g l
             <-> In g (vaultUserPermissionsTable db)
                 /\ VaultUserPermission.vault_id g = vaultId
                 /\ exists u, In u (usersTable db)
                              /\ User.id u = VaultUserPermission.user_id g).
Proof.
  cbv zeta. unfold VaultPermissions.getVaultPermissions.
  split; [intros msg ->; reflexivity|]. split.
  { intros p -> Ha Ho. now rewrite (proj2 (not_admin_nor_owner p) (conj Ha Ho)). }
  intros Heff.
  assert (Hgate : exists p,
             VaultPermissions.getUserPermissionForVault vaultId caller db = Ok p
             /\ strict_neq p "admin" && strict_neq p "owner" = false).
  { destruct Heff as [-> | ->]; eexists; split; reflexivity. }
  destruct Hgate as (p & -> & ->). eexists. split; [reflexivity|].
  intros g. rewrite in_flat_map. split.
  - intros (x & Hx & Hin).
    destruct (Z.eqb_spec (VaultUserPermission.vault_id x) vaultId) as [e|];
      [|destruct Hin].
    apply in_map_iff in Hin. destruct Hin as (u & <- & Hu).
    apply filter_In in Hu. destruct Hu as [Hu Ht]. apply Z.eqb_eq in Ht.
    split; [assumption|]. split; [assumption|]. now exists u.
  - intros (Hg & Hv & u & Hu & Hid). exists g. split; [assumption|].
    rewrite Hv, Z.eqb_refl. apply in_map_iff. exists u. split; [reflexivity|].
    apply filter_In. split; [assumption|]. now rewrite Hid, Z.eqb_refl.
Qed.

Lemma getVaultPermissions_spec_witness :
  exists l,
    VaultPermissions.getVaultPermissions 2 2 Sample.db = Ok l
    /\ In (VaultUserPermission.mk 5 2 2 admin 1 32) l.
Proof.
  pose proof (getVaultPermissions_spec 2 2 Sample.db) as (_ & _ & H).
  cbv zeta in H. destruct (H (or_introl eq_refl)) as (l & Hl & Hin).
  exists l. split; [exact Hl|]. apply Hin.
  split; [cbn; tauto|]. split; [reflexivity|].
  eexists. split; [right; left; reflexivity | reflexivity].
Defined.

(** ** Ownership is fixed *)

Section OwnerStable.

Context {C : BlockCipher}.
Variable env_key : option string.
Variable sha256_hex : string -> string.

Lemma run_owner_stable (c : System.Call) (db : DB) (x owner created : Z) :
  x < vaults_id_seq db ->
  (forall v, In v (vaultsTable db) -> Vault.id v = x ->
             Vault.owner_id v = owner /\ Vault.created_at v = created) ->
  x < vaults_id_seq (System.run env_key sha256_hex c db)
  /\ (forall v, In v (vaultsTable (System.run env_key sha256_hex c db)) ->
                Vault.id v = x ->
                Vault.owner_id v = owner /\ Vault.created_at v = created).
Proof.
  intros Hlt Hown.
  destruct (run_vaults_frame env_key sha256_hex c db)
    as [(input & u & now & ->)|[(input & u & now & ->)|[(id & u & ->)|[Hv Hs]]]].
  - cbn. split; [lia|]. intros v Hv Hid. apply in_app_iff in Hv.
    destruct Hv as [Hv|[<-|[]]]; [now apply Hown|]. cbn in Hid. lia.
  - cbn [System.run]. unfold Vaults.updateVault.
    break_match; cbn [snd]; try (split; assumption).
    all: cbn; split; [assumption|]; intros v Hv Hid;
      apply in_map_iff in Hv; destruct Hv as (w & <- & Hw);
      destruct (Vault.id w =? UpdateVaultInput.id input);
      cbn in Hid |- *; now apply Hown.
  - cbn [System.run]. unfold Vaults.deleteVault.
    break_match; cbn [snd]; try (split; assumption).
    cbn. split; [assumption|]. intros v Hv Hid. apply filter_In in Hv.
    now apply Hown.
  - rewrite Hv, Hs. now split.
Qed.

End OwnerStable.

(** X16. No sequence of calls changes who owns a vault: once a vault row
    with some id exists in a store with distinct, fresh vault ids, every
    vault row with that id in any later state has the same owner and
    creation time (ids are never reused, and no handler writes
    [owner_id]). *)
Theorem vault_owner_never_changes (C : BlockCipher) (env_key : option string)
  (sha256_hex : string -> string) (calls : list System.Call) (db : DB) (v : Vault.t)
  (Hfresh : vault_ids_fresh db) (Hv : In v (vaultsTable db)) :
  forall v',
    In v' (vaultsTable (System.runAll env_key sha256_hex calls db)) ->
    Vault.id v' = Vault.id v ->
    Vault.owner_id v' = Vault.owner_id v /\ Vault.created_at v' = Vault.created_at v.
Proof.
  assert (Hstart :
    Vault.id v < vaults_id_seq db
    /\ forall w, In w (vaultsTable db) -> Vault.id w = Vault.id v ->
                 Vault.owner_id w = Vault.owner_id v
                 /\ Vault.created_at w = Vault.created_at v).
  { destruct Hfresh as [Hlt Hnd]. split; [now apply Hlt|].
    intros w Hw Hid.
    assert (w = v) by (apply (NoDup_map_inj_in Vault.id _ w v Hnd Hw Hv Hid)).
    now subst w. }
  clear Hfresh Hv. revert db Hstart. unfold System.runAll.
  induction calls as [|c calls IH]; intros db [Hlt Hown]; cbn [fold_left].
  - exact Hown.
  - apply IH. now apply run_owner_stable.
Qed.

Lemma vault_owner_never_changes_witness :
  Forall (fun v' => Vault.id v' = 2 -> Vault.owner_id v' = 1)
    (vaultsTable
       (System.runAll (C := xorCipher) None Sample.digest
          [System.UpdateVault (UpdateVaultInput.mk 2 (Some "Ours") None None) 2 80;
           System.CreateVault (CreateVaultInput.mk "Mine" None false) 2 81]
          Sample.db)).
Proof.
  apply Forall_forall. intros v' Hin Hid.
  assert (Hfresh : vault_ids_fresh Sample.db).
  { apply (reachable_fresh (C := xorCipher) None Sample.digest).
    exists Sample.history. vm_compute. reflexivity. }
  exact (proj1 (vault_owner_never_changes xorCipher None Sample.digest _ Sample.db
                  (Vault.mk 2 "Team vault" (Some "shared") 1 true 21 21)
                  Hfresh (or_intror (or_introl eq_refl)) v' Hin Hid)).
Defined.

(** ** Writing and reading credential items *)

Lemma append_length (a b : string) :
  String.length (String.append a b) = (String.length a + String.length b)%nat.
Proof. induction a as [|c a IH]; [reflexivity|]. cbn. now rewrite IH. Qed.

Section ItemWrites.

Context {C : BlockCipher} (laws : BlockCipherLaws C).
Variable env_key : option string.
Hypothesis Hkey : List.length (CredentialItems.key_buffer env_key) = 32%nat.

Lemma encrypt_longer (iv : bytes) (text stored : string) :
  List.length iv = 16%nat ->
  CredentialItems.encrypt env_key iv text = Ok stored ->
  (String.length text < String.length stored)%nat
  /\ stored <> EmptyString.
Proof.
  intros Hiv Henc.
  destruct (encrypt_shape laws env_key iv text Hkey Hiv) as [Hshape Hlen].
  cbv zeta in *. rewrite Hshape in Henc. injection Henc as <-.
  rewrite append_length. cbn [String.length].
  rewrite !toString_hex_length, Hlen, Hiv.
  pose proof (Nat.div_mod_eq (String.length text) 16).
  pose proof (Nat.mod_upper_bound (String.length text) 16 ltac:(lia)).
  split; [lia|].
  destruct (toString_hex iv); discriminate.
Qed.

Lemma read_back_kept (v : option string) :
  secret_kept v = true -> read_back v = non_empty v.
Proof.
  unfold read_back, non_empty, secret_kept. destruct v as [s|]; [|reflexivity].
  intros H. apply negb_true_iff in H.
  destruct (String.eqb s EmptyString); [reflexivity|]. cbn.
  now rewrite text_written_kept.
Qed.

Lemma encrypt_if_present_stored (iv : bytes) (v : option string) :
  List.length iv = 16%nat ->
  exists c,
    CredentialItems.encrypt_if_present env_key iv v = Ok c
    /\ CredentialItems.decrypt_if_present env_key c = Ok (read_back v)
    /\ (secret_kept v = true -> stored_as env_key v c).
Proof.
  intros Hiv.
  unfold CredentialItems.encrypt_if_present, stored_as, read_back, non_empty.
  destruct v as [s|]; [|now exists None].
  destruct (String.eqb s EmptyString) eqn:He; [now exists None|].
  destruct (encrypt_shape laws env_key iv s Hkey Hiv) as [Hshape _].
  cbv zeta in Hshape. rewrite Hshape. cbn [bindO].
  pose proof (decrypt_encrypt laws env_key iv s _ Hkey Hiv Hshape) as Hdec.
  destruct (encrypt_longer iv s _ Hiv Hshape) as [Hlonger Hne].
  eexists. split; [reflexivity|]. split.
  - unfold CredentialItems.decrypt_if_present.
    apply String.eqb_neq in Hne. rewrite Hne, Hdec. reflexivity.
  - intros Hs. cbn in Hs. apply negb_true_iff in Hs.
    eexists. split; [reflexivity|]. split; [|assumption].
    now rewrite Hdec, text_written_kept.
Qed.

Lemma createCredentialItem_ok (input : CreateCredentialItemInput.t) (caller : Z)
  (ivs : IVs.t) (now : Z) (db : DB) :
  List.length (IVs.password ivs) = 16%nat ->
  List.length (IVs.notes ivs) = 16%nat ->
  List.length (IVs.card_number ivs) = 16%nat ->
  List.length (IVs.card_cvv ivs) = 16%nat ->
  List.length (IVs.license_key ivs) = 16%nat ->
  CredentialItems.checkVaultPermission
    (CreateCredentialItemInput.vault_id input) caller write db = true ->
  exists pw notes card cvv lic,
    let stored :=
      CredentialItem.mk (credential_items_id_seq db)
        (CreateCredentialItemInput.title input)
        (CreateCredentialItemInput.type input)
        (CreateCredentialItemInput.vault_id input)
        (CreateCredentialItemInput.category_id input)
        (CreateCredentialItemInput.website_url input)
        (CreateCredentialItemInput.username input)
        pw notes card
        (CreateCredentialItemInput.card_holder_name input)
        (CreateCredentialItemInput.card_expiry_date input)
        cvv lic
        (CreateCredentialItemInput.license_email input)
        caller now now in
    let returned :=
      CredentialItem.mk (credential_items_id_seq db)
        (CreateCredentialItemInput.title input)
        (CreateCredentialItemInput.type input)
        (CreateCredentialItemInput.vault_id input)
        (CreateCredentialItemInput.category_id input)
        (CreateCredentialItemInput.website_url input)
        (CreateCredentialItemInput.username input)
        (read_back (CreateCredentialItemInput.password input))
        (read_back (CreateCredentialItemInput.notes input))
        (read_back (CreateCredentialItemInput.card_number input))
        (CreateCredentialItemInput.card_holder_name input)
        (CreateCredentialItemInput.card_expiry_date input)
        (read_back (CreateCredentialItemInput.card_cvv input))
        (read_back (CreateCredentialItemInput.license_key input))
        (CreateCredentialItemInput.license_email input)
        caller now now in
    CredentialItems.createCredentialItem env_key input caller ivs now db
    = (Ok returned,
       set_credentialItemsTable db (credentialItemsTable db ++ [stored])
         (credential_items_id_seq db + 1))
    /\ CredentialItems.decrypted env_key stored = Ok returned
    /\ (secret_kept (CreateCredentialItemInput.password input) = true ->
        stored_as env_key (CreateCredentialItemInput.password input) pw)
    /\ (secret_kept (CreateCredentialItemInput.notes input) = true ->
        stored_as env_key (CreateCredentialItemInput.notes input) notes)
    /\ (secret_kept (CreateCredentialItemInput.card_number input) = true ->
        stored_as env_key (CreateCredentialItemInput.card_number input) card)
    /\ (secret_kept (CreateCredentialItemInput.card_cvv input) = true ->
        stored_as env_key (CreateCredentialItemInput.card_cvv input) cvv)
    /\ (secret_kept (CreateCredentialItemInput.license_key input) = true ->
        stored_as env_key (CreateCredentialItemInput.license_key input) lic).
Proof.
  intros H1 H2 H3 H4 H5 Hgate.
  destruct (encrypt_if_present_stored _ (CreateCredentialItemInput.password input) H1)
    as (pw & Epw & Dpw & Spw).
  destruct (encrypt_if_present_stored _ (CreateCredentialItemInput.notes input) H2)
    as (notes & Enotes & Dnotes & Snotes).
  destruct (encrypt_if_present_stored _ (CreateCredentialItemInput.card_number input) H3)
    as (card & Ecard & Dcard & Scard).
  destruct (encrypt_if_present_stored _ (CreateCredentialItemInput.card_cvv input) H4)
    as (cvv & Ecvv & Dcvv & Scvv).
  destruct (encrypt_if_present_stored _ (CreateCredentialItemInput.license_key input) H5)
    as (lic & Elic & Dlic & Slic).
  exists pw, notes, card, cvv, lic. cbv zeta.
  assert (Hdec : CredentialItems.decrypted env_key
            (CredentialItem.mk (credential_items_id_seq db)
               (CreateCredentialItemInput.title input)
               (CreateCredentialItemInput.type input)
               (CreateCredentialItemInput.vault_id input)
               (CreateCredentialItemInput.category_id input)
               (CreateCredentialItemInput.website_url input)
               (CreateCredentialItemInput.username input)
               pw notes card
               (CreateCredentialItemInput.card_holder_name input)
               (CreateCredentialItemInput.card_expiry_date input)
               cvv lic
               (CreateCredentialItemInput.license_email input)
               caller now now)
          = Ok (CredentialItem.mk (credential_items_id_seq db)
               (CreateCredentialItemInput.title input)
               (CreateCredentialItemInput.type input)
               (CreateCredentialItemInput.vault_id input)
               (CreateCredentialItemInput.category_id input)
               (CreateCredentialItemInput.website_url input)
               (CreateCredentialItemInput.username input)
               (read_back (CreateCredentialItemInput.password input))
               (read_back (CreateCredentialItemInput.notes input))
               (read_back (CreateCredentialItemInput.card_number input))
               (CreateCredentialItemInput.card_holder_name input)
               (CreateCredentialItemInput.card_expiry_date input)
               (read_back (CreateCredentialItemInput.card_cvv input))
               (read_back (CreateCredentialItemInput.license_key input))
               (CreateCredentialItemInput.license_email input)
               caller now now)).
  { unfold CredentialItems.decrypted. cbn [CredentialItem.password_encrypted
      CredentialItem.notes_encrypted CredentialItem.card_number_encrypted
      CredentialItem.card_cvv_encrypted CredentialItem.license_key_encrypted].
    rewrite Dpw, Dnotes, Dcard, Dcvv, Dlic. reflexivity. }
  split; [|split; [exact Hdec | repeat split; assumption]].
  unfold CredentialItems.createCredentialItem.
  rewrite Hgate, Epw, Enotes, Ecard, Ecvv, Elic. cbn [negb bindO].
  now rewrite Hdec.
Qed.

End ItemWrites.

(** X17. Plaintext in, plaintext out, ciphertext at rest.  With a lawful
    block cipher, a key whose first 32 code units take 32 bytes, 16-byte
    IVs, a caller (id within int4) who passes the write gate, an input whose
    clear texts hold no U+0000, whose texts and sensitive values hold no
    surrogate without its partner and whose category id is within int4, and
    a sequence with room for one more id within int4,
    [createCredentialItem] succeeds: it appends one row with the next id, the
    caller as creator and [now] as both times; the title, type, vault,
    category, website, username, card holder, card expiry and licence email
    of the row and of the item returned are those of the input; every
    sensitive value is stored as [null] when absent or empty and otherwise
    as a text that decrypts to the value and is longer than it; and the item
    returned is the stored row with those values in clear.  (The store
    rejects a text with U+0000 and a number outside int4; that rejection is
    outside this model.) *)
Theorem createCredentialItem_roundtrip (C : BlockCipher) (laws : BlockCipherLaws C)
  (env_key : option string)
  (Hkey : List.length (CredentialItems.key_buffer env_key) = 32%nat)
  (input : CreateCredentialItemInput.t) (caller : Z) (ivs : IVs.t) (now : Z) (db : DB)
  (Hpw : List.length (IVs.password ivs) = 16%nat)
  (Hnotes : List.length (IVs.notes ivs) = 16%nat)
  (Hcard : List.length (IVs.card_number ivs) = 16%nat)
  (Hcvv : List.length (IVs.card_cvv ivs) = 16%nat)
  (Hlic : List.length (IVs.license_key ivs) = 16%nat)
  (Hgate : CredentialItems.checkVaultPermission
             (CreateCredentialItemInput.vault_id input) caller write db = true)
  (Haccepted : create_item_accepted input = true)
  (Hsecrets : create_item_secrets_kept input = true)
  (Hcaller : in_int4 caller = true)
  (Hroom : in_int4 (credential_items_id_seq db) = true) :
  exists stored returned,
    CredentialItems.createCredentialItem env_key input caller ivs now db
    = (Ok returned,
       set_credentialItemsTable db (credentialItemsTable db ++ [stored])
         (credential_items_id_seq db + 1))
    /\ same_clear_columns stored returned
    /\ CredentialItem.id returned = credential_items_id_seq db
    /\ CredentialItem.title returned = CreateCredentialItemInput.title input
    /\ CredentialItem.type returned = CreateCredentialItemInput.type input
    /\ CredentialItem.vault_id returned = CreateCredentialItemInput.vault_id input
    /\ CredentialItem.category_id returned = CreateCredentialItemInput.category_id input
    /\ CredentialItem.website_url returned = CreateCredentialItemInput.website_url input
    /\ CredentialItem.username returned = CreateCredentialItemInput.username input
    /\ CredentialItem.card_holder_name returned
       = CreateCredentialItemInput.card_holder_name input
    /\ CredentialItem.card_expiry_date returned
       = CreateCredentialItemInput.card_expiry_date input
    /\ CredentialItem.license_email returned
       = CreateCredentialItemInput.license_email input
    /\ CredentialItem.created_by returned = caller
    /\ CredentialItem.created_at returned = now
    /\ CredentialItem.updated_at returned = now
    /\ CredentialItem.password_encrypted returned
       = non_empty (CreateCredentialItemInput.password input)
    /\ CredentialItem.notes_encrypted returned
       = non_empty (CreateCredentialItemInput.notes input)
    /\ CredentialItem.card_number_encrypted returned
       = non_empty (CreateCredentialItemInput.card_number input)
    /\ CredentialItem.card_cvv_encrypted returned
       = non_empty (CreateCredentialItemInput.card_cvv input)
    /\ CredentialItem.license_key_encrypted returned
       = non_empty (CreateCredentialItemInput.license_key input)
    /\ stored_as env_key (CreateCredentialItemInput.password input)
         (CredentialItem.password_encrypted stored)
    /\ stored_as env_key (CreateCredentialItemInput.notes input)
         (CredentialItem.notes_encrypted stored)
    /\ stored_as env_key (CreateCredentialItemInput.card_number input)
         (CredentialItem.card_number_encrypted stored)
    /\ stored_as env_key (CreateCredentialItemInput.card_cvv input)
         (CredentialItem.card_cvv_encrypted stored)
    /\ stored_as env_key (CreateCredentialItemInput.license_key input)
         (CredentialItem.license_key_encrypted stored).
Proof.
  unfold create_item_secrets_kept in Hsecrets. rewrite !andb_true_iff in Hsecrets.
  destruct Hsecrets as ((((K1 & K2) & K3) & K4) & K5).
  destruct (createCredentialItem_ok laws env_key Hkey input caller ivs now db
              Hpw Hnotes Hcard Hcvv Hlic Hgate)
    as (pw & notes & card & cvv & lic & Hres & _ & S1 & S2 & S3 & S4 & S5).
  cbv zeta in Hres. rewrite !read_back_kept in Hres by assumption.
  eexists _, _. split; [exact Hres|].
  split; [unfold same_clear_columns; cbn; repeat split|].
  cbn. repeat split; auto.
Qed.

Lemma sample_ivs_length :
  List.length (IVs.password Sample.ivs) = 16%nat
  /\ List.length (IVs.notes Sample.ivs) = 16%nat
  /\ List.length (IVs.card_number Sample.ivs) = 16%nat
  /\ List.length (IVs.card_cvv Sample.ivs) = 16%nat
  /\ List.length (IVs.license_key Sample.ivs) = 16%nat.
Proof. repeat split. Qed.

Lemma createCredentialItem_roundtrip_witness :
  exists returned,
    fst (CredentialItems.createCredentialItem (C := xorCipher) None
           (Sample.login_item "Bank" 1 None) 2 Sample.ivs 90 Sample.db)
    = Ok returned
    /\ CredentialItem.password_encrypted returned = Some "secret123".
Proof.
  destruct sample_ivs_length as (H1 & H2 & H3 & H4 & H5).
  destruct (createCredentialItem_roundtrip xorCipher xorCipher_laws None
              default_key_length (Sample.login_item "Bank" 1 None) 2 Sample.ivs 90
              Sample.db H1 H2 H3 H4 H5 eq_refl eq_refl eq_refl eq_refl eq_refl)
    as (stored & returned & Hres & _ & _ & _ & _ & _ & _ & _ & _ & _ & _ & _
        & _ & _ & _ & Hpw & _).
  exists returned. rewrite Hres. split; [reflexivity | exact Hpw].
Defined.

(** X18. Create, then read.  With a lawful block cipher, a key whose first
    32 code units take 32 bytes, 16-byte IVs, a caller (id within int4) who
    passes the write gate, an input whose clear texts hold no U+0000 and no
    surrogate without its partner and whose category id is within int4, and
    a store whose item ids are below a sequence that has room for one more
    id within int4: the creator's [getItemById] on the id just returned
    gives back exactly the item that [createCredentialItem] returned.  (The
    store rejects a text with U+0000 and a number outside int4; that
    rejection is outside this model.) *)
Theorem createCredentialItem_then_getItemById (C : BlockCipher)
  (laws : BlockCipherLaws C) (env_key : option string)
  (Hkey : List.length (CredentialItems.key_buffer env_key) = 32%nat)
  (input : CreateCredentialItemInput.t) (caller : Z) (ivs : IVs.t) (now : Z) (db : DB)
  (Hpw : List.length (IVs.password ivs) = 16%nat)
  (Hnotes : List.length (IVs.notes ivs) = 16%nat)
  (Hcard : List.length (IVs.card_number ivs) = 16%nat)
  (Hcvv : List.length (IVs.card_cvv ivs) = 16%nat)
  (Hlic : List.length (IVs.license_key ivs) = 16%nat)
  (Hgate : CredentialItems.checkVaultPermission
             (CreateCredentialItemInput.vault_id input) caller write db = true)
  (Hfresh : forall i, In i (credentialItemsTable db) ->
                      CredentialItem.id i < credential_items_id_seq db)
  (Haccepted : create_item_accepted input = true)
  (Hcaller : in_int4 caller = true)
  (Hroom : in_int4 (credential_items_id_seq db) = true) :
  let result := CredentialItems.createCredentialItem env_key input caller ivs now db in
  exists returned,
    fst result = Ok returned
    /\ CredentialItems.getItemById env_key (CredentialItem.id returned) caller
         (snd result)
       = Ok (Some returned).
Proof.
  cbv zeta.
  destruct (createCredentialItem_ok laws env_key Hkey input caller ivs now db
              Hpw Hnotes Hcard Hcvv Hlic Hgate)
    as (pw & notes & card & cvv & lic & Hres & Hdec & _).
  cbv zeta in Hres, Hdec. rewrite Hres. cbn [fst snd]. eexists.
  split; [reflexivity|].
  unfold CredentialItems.getItemById. cbn [credentialItemsTable
    set_credentialItemsTable CredentialItem.id]. rewrite Hroom. cbn [negb].
  rewrite filter_app, (filter_none_lt CredentialItem.id _ _ Hfresh).
  cbn [filter app CredentialItem.id CredentialItem.vault_id]. rewrite Z.eqb_refl.
  assert (Hread : CredentialItems.checkVaultPermission
                    (CreateCredentialItemInput.vault_id input) caller read db = true).
  { rewrite gate_rank_items in Hgate |- *.
    apply Nat.leb_le in Hgate. apply Nat.leb_le. cbn in Hgate |- *. lia. }
  match goal with
  | |- context [CredentialItems.checkVaultPermission ?v ?u read ?d] =>
      change (CredentialItems.checkVaultPermission v u read d)
        with (CredentialItems.checkVaultPermission v u read db)
  end.
  cbn [CredentialItem.vault_id].
  rewrite Hread. cbn [negb]. now rewrite Hdec.
Qed.

Lemma createCredentialItem_then_getItemById_witness :
  exists returned,
    CredentialItems.getItemById (C := xorCipher) None 3 2
      (snd (CredentialItems.createCredentialItem (C := xorCipher) None
              (Sample.login_item "Bank" 1 None) 2 Sample.ivs 90 Sample.db))
    = Ok (Some returned)
    /\ CredentialItem.title returned = "Bank".
Proof.
  destruct sample_ivs_length as (H1 & H2 & H3 & H4 & H5).
  assert (Hfresh : forall i, In i (credentialItemsTable Sample.db) ->
                             CredentialItem.id i < credential_items_id_seq Sample.db).
  { intros i Hi. cbn in Hi. destruct Hi as [<-|[<-|[]]]; reflexivity. }
  destruct (createCredentialItem_then_getItemById xorCipher xorCipher_laws None
              default_key_length (Sample.login_item "Bank" 1 None) 2 Sample.ivs 90
              Sample.db H1 H2 H3 H4 H5 eq_refl Hfresh eq_refl eq_refl eq_refl)
    as (returned & Hres & Hget).
  cbv zeta in Hres, Hget. exists returned.
  vm_compute in Hres. injection Hres as <-. split; [exact Hget | reflexivity].
Defined.

Lemma encrypt_patch_absent (C : BlockCipher) (env_key : option string) (iv : bytes)
  (patch : option (option string)) (o : option (option string)) :
  CredentialItems.encrypt_patch env_key iv patch = Ok o -> patch = None -> o = None.
Proof. intros H ->. cbn in H. congruence. Qed.

(** X19. What [updateCredentialItem] never touches.  Whatever the call
    returns, the item table holds the same rows as before, each with the
    same id, type, vault, creator and timestamps ([updated_at] is not
    advanced); rows with another id are identical; a column whose key is
    absent from the patch keeps its stored value, ciphertext included; and
    the other tables are unchanged.  (The order of the rows of the table is
    not part of the statement.) *)
Theorem updateCredentialItem_frame (C : BlockCipher) (env_key : option string)
  (input : UpdateCredentialItemInput.t) (caller : Z) (ivs : IVs.t) (db : DB) :
  let db' := snd (CredentialItems.updateCredentialItem env_key input caller ivs db) in
  let kept := fun i i' : CredentialItem.t =>
    CredentialItem.id i' = CredentialItem.id i
    /\ CredentialItem.type i' = CredentialItem.type i
    /\ CredentialItem.vault_id i' = CredentialItem.vault_id i
    /\ CredentialItem.created_by i' = CredentialItem.created_by i
    /\ CredentialItem.created_at i' = CredentialItem.created_at i
    /\ CredentialItem.updated_at i' = CredentialItem.updated_at i
    /\ (CredentialItem.id i <> UpdateCredentialItemInput.id input -> i' = i)
    /\ (UpdateCredentialItemInput.title input = None ->
        CredentialItem.title i' = CredentialItem.title i)
    /\ (UpdateCredentialItemInput.category_id input = None ->
        CredentialItem.category_id i' = CredentialItem.category_id i)
    /\ (UpdateCredentialItemInput.website_url input = None ->
        CredentialItem.website_url i' = CredentialItem.website_url i)
    /\ (UpdateCredentialItemInput.username input = None ->
        CredentialItem.username i' = CredentialItem.username i)
    /\ (UpdateCredentialItemInput.card_holder_name input = None ->
        CredentialItem.card_holder_name i' = CredentialItem.card_holder_name i)
    /\ (UpdateCredentialItemInput.card_expiry_date input = None ->
        CredentialItem.card_expiry_date i' = CredentialItem.card_expiry_date i)
    /\ (UpdateCredentialItemInput.license_email input = None ->
        CredentialItem.license_email i' = CredentialItem.license_email i)
    /\ (UpdateCredentialItemInput.password input = None ->
        CredentialItem.password_encrypted i' = CredentialItem.password_encrypted i)
    /\ (UpdateCredentialItemInput.notes input = None ->
        CredentialItem.notes_encrypted i' = CredentialItem.notes_encrypted i)
    /\ (UpdateCredentialItemInput.card_number input = None ->
        CredentialItem.card_number_encrypted i'
        = CredentialItem.card_number_encrypted i)
    /\ (UpdateCredentialItemInput.card_cvv input = None ->
        CredentialItem.card_cvv_encrypted i' = CredentialItem.card_cvv_encrypted i)
    /\ (UpdateCredentialItemInput.license_key input = None ->
        CredentialItem.license_key_encrypted i'
        = CredentialItem.license_key_encrypted i) in
  (forall i, In i (credentialItemsTable db) ->
             exists i', In i' (credentialItemsTable db') /\ kept i i')
  /\ (forall i', In i' (credentialItemsTable db') ->
                 exists i, In i (credentialItemsTable db) /\ kept i i')
  /\ List.length (credentialItemsTable db') = List.length (credentialItemsTable db)
  /\ credential_items_id_seq db' = credential_items_id_seq db
  /\ vaultsTable db' = vaultsTable db
  /\ categoriesTable db' = categoriesTable db
  /\ vaultUserPermissionsTable db' = vaultUserPermissionsTable db
  /\ usersTable db' = usersTable db.
Proof.
  cbv zeta.
  set (kept := fun i i' : CredentialItem.t => _ /\ _).
  assert (Hrefl : forall i, kept i i) by (intros i; unfold kept; repeat split).
  assert (Hsame : forall table,
    (forall i, In i table -> exists i', In i' table /\ kept i i')
    /\ (forall i', In i' table -> exists i, In i table /\ kept i i')
    /\ List.length table = List.length table).
  { intros table. split; [|split; [|reflexivity]]; intros i Hi; exists i; auto. }
  unfold CredentialItems.updateCredentialItem.
  destruct (negb (in_int4 (UpdateCredentialItemInput.id input)));
    [cbn [snd]; repeat split; apply Hsame|].
  destruct (filter _ (credentialItemsTable db)) as [|existingItem ?];
    [cbn [snd]; repeat split; apply Hsame|].
  destruct (CredentialItems.checkVaultPermission _ caller write db);
    [|cbn [snd]; repeat split; apply Hsame].
  cbn [negb].
  destruct (updateData_is_empty input);
    [cbn [snd]; repeat split; apply Hsame|].
  destruct (CredentialItems.encrypt_patch env_key (IVs.password ivs) _) as [o1|?] eqn:E1;
    [|cbn [snd]; repeat split; apply Hsame].
  destruct (CredentialItems.encrypt_patch env_key (IVs.notes ivs) _) as [o2|?] eqn:E2;
    [|cbn [snd]; repeat split; apply Hsame].
  destruct (CredentialItems.encrypt_patch env_key (IVs.card_number ivs) _)
    as [o3|?] eqn:E3;
    [|cbn [snd]; repeat split; apply Hsame].
  destruct (CredentialItems.encrypt_patch env_key (IVs.card_cvv ivs) _) as [o4|?] eqn:E4;
    [|cbn [snd]; repeat split; apply Hsame].
  destruct (CredentialItems.encrypt_patch env_key (IVs.license_key ivs) _)
    as [o5|?] eqn:E5;
    [|cbn [snd]; repeat split; apply Hsame].
  cbn [bindO snd]. cbn [credentialItemsTable set_credentialItemsTable].
  match goal with
  | |- context [map ?f (credentialItemsTable db)] =>
      assert (Hcols : forall i, kept i (f i))
  end.
  { intros i. cbv beta. unfold kept.
    destruct (Z.eqb_spec (CredentialItem.id i) (UpdateCredentialItemInput.id input))
      as [e|ne]; [|repeat split; intros; try reflexivity; contradiction].
    cbn. repeat split; try reflexivity; try contradiction.
    all: intros Habs; try (rewrite Habs; reflexivity).
    - now rewrite (encrypt_patch_absent _ _ _ _ _ E1 Habs).
    - now rewrite (encrypt_patch_absent _ _ _ _ _ E2 Habs).
    - now rewrite (encrypt_patch_absent _ _ _ _ _ E3 Habs).
    - now rewrite (encrypt_patch_absent _ _ _ _ _ E4 Habs).
    - now rewrite (encrypt_patch_absent _ _ _ _ _ E5 Habs). }
  split.
  { intros i Hi. eexists. split; [apply in_map; exact Hi | apply Hcols]. }
  split.
  { intros i' Hi'. apply in_map_iff in Hi'. destruct Hi' as (i & <- & Hi).
    exists i. split; [assumption | apply Hcols]. }
  split; [apply length_map|]. cbn. repeat split.
Qed.

Section ItemUpdates.

Context {C : BlockCipher} (laws : BlockCipherLaws C).
Variable env_key : option string.
Hypothesis Hkey : List.length (CredentialItems.key_buffer env_key) = 32%nat.

Lemma encrypt_patch_view (iv : bytes) (patch : option (option string))
  (stored oldv : option string) :
  List.length iv = 16%nat ->
  CredentialItems.decrypt_if_present env_key stored = Ok oldv ->
  exists o,
    CredentialItems.encrypt_patch env_key iv patch = Ok o
    /\ CredentialItems.decrypt_if_present env_key (CredentialItems.patched o stored)
       = Ok (match patch with Some v => read_back v | None => oldv end).
Proof.
  intros Hiv Hold. destruct patch as [v|]; cbn.
  - destruct (encrypt_if_present_stored laws env_key Hkey iv v Hiv)
      as (c & -> & Hdec & _).
    cbn. now exists (Some c).
  - now exists None.
Qed.

Lemma read_back_patch_kept (patch : option (option string)) (oldv : option string) :
  secret_kept_patch patch = true ->
  match patch with Some v => read_back v | None => oldv end
  = match patch with Some v => non_empty v | None => oldv end.
Proof. destruct patch as [v|]; [apply read_back_kept | reflexivity]. Qed.

End ItemUpdates.

(** X20. Partial update, plaintext out.  With a lawful block cipher, a
    key whose first 32 code units take 32 bytes and 16-byte IVs, when the
    item id and the caller id are within int4, the patch sets at least one
    column, its clear texts hold no U+0000, its texts and sensitive values
    hold no surrogate without its partner and its category id is within
    int4, the item exists, its stored values decrypt, and the caller passes
    the write gate, [updateCredentialItem] succeeds and returns the old view
    patched by the input: a clear column is the patch value when its key is
    present and the old value otherwise, and a sensitive column is the patch
    value ([null] when empty) when its key is present and the old plaintext
    otherwise.  (The store rejects a text with U+0000 and a number outside
    int4; that rejection is outside this model.) *)
Theorem updateCredentialItem_roundtrip (C : BlockCipher) (laws : BlockCipherLaws C)
  (env_key : option string)
  (Hkey : List.length (CredentialItems.key_buffer env_key) = 32%nat)
  (input : UpdateCredentialItemInput.t) (caller : Z) (ivs : IVs.t) (db : DB)
  (item old : CredentialItem.t)
  (Hpw : List.length (IVs.password ivs) = 16%nat)
  (Hnotes : List.length (IVs.notes ivs) = 16%nat)
  (Hcard : List.length (IVs.card_number ivs) = 16%nat)
  (Hcvv : List.length (IVs.card_cvv ivs) = 16%nat)
  (Hlic : List.length (IVs.license_key ivs) = 16%nat)
  (Hid : in_int4 (UpdateCredentialItemInput.id input) = true)
  (Hcaller : in_int4 caller = true)
  (Hpatch : updateData_is_empty input = false)
  (Haccepted : update_item_accepted input = true)
  (Hsecrets : update_item_secrets_kept input = true)
  (Hitem : find (fun i => CredentialItem.id i =? UpdateCredentialItemInput.id input)
                (credentialItemsTable db) = Some item)
  (Hold : CredentialItems.decrypted env_key item = Ok old)
  (Hgate : CredentialItems.checkVaultPermission
             (CredentialItem.vault_id item) caller write db = true) :
  fst (CredentialItems.updateCredentialItem env_key input caller ivs db)
  = Ok (CredentialItem.mk (CredentialItem.id old)
          (CredentialItems.patched (UpdateCredentialItemInput.title input)
             (CredentialItem.title old))
          (CredentialItem.type old)
          (CredentialItem.vault_id old)
          (CredentialItems.patched (UpdateCredentialItemInput.category_id input)
             (CredentialItem.category_id old))
          (CredentialItems.patched (UpdateCredentialItemInput.website_url input)
             (CredentialItem.website_url old))
          (CredentialItems.patched (UpdateCredentialItemInput.username input)
             (CredentialItem.username old))
          (match UpdateCredentialItemInput.password input with
           | Some v => non_empty v
           | None => CredentialItem.password_encrypted old
           end)
          (match UpdateCredentialItemInput.notes input with
           | Some v => non_empty v
           | None => CredentialItem.notes_encrypted old
           end)
          (match UpdateCredentialItemInput.card_number input with
           | Some v => non_empty v
           | None => CredentialItem.card_number_encrypted old
           end)
          (CredentialItems.patched (UpdateCredentialItemInput.card_holder_name input)
             (CredentialItem.card_holder_name old))
          (CredentialItems.patched (UpdateCredentialItemInput.card_expiry_date input)
             (CredentialItem.card_expiry_date old))
          (match UpdateCredentialItemInput.card_cvv input with
           | Some v => non_empty v
           | None => CredentialItem.card_cvv_encrypted old
           end)
          (match UpdateCredentialItemInput.license_key input with
           | Some v => non_empty v
           | None => CredentialItem.license_key_encrypted old
           end)
          (CredentialItems.patched (UpdateCredentialItemInput.license_email input)
             (CredentialItem.license_email old))
          (CredentialItem.created_by old)
          (CredentialItem.created_at old)
          (CredentialItem.updated_at old)).
Proof.
  apply decrypted_ok_iff in Hold.
  destruct Hold as ((C1 & C2 & C3 & C4 & C5 & C6 & C7 & C8 & C9 & C10 & C11 & C12 & C13)
                    & D1 & D2 & D3 & D4 & D5).
  destruct (encrypt_patch_view laws env_key Hkey _
              (UpdateCredentialItemInput.password input) _ _ Hpw D1) as (o1 & E1 & V1).
  destruct (encrypt_patch_view laws env_key Hkey _
              (UpdateCredentialItemInput.notes input) _ _ Hnotes D2) as (o2 & E2 & V2).
  destruct (encrypt_patch_view laws env_key Hkey _
              (UpdateCredentialItemInput.card_number input) _ _ Hcard D3)
    as (o3 & E3 & V3).
  destruct (encrypt_patch_view laws env_key Hkey _
              (UpdateCredentialItemInput.card_cvv input) _ _ Hcvv D4) as (o4 & E4 & V4).
  destruct (encrypt_patch_view laws env_key Hkey _
              (UpdateCredentialItemInput.license_key input) _ _ Hlic D5)
    as (o5 & E5 & V5).
  unfold CredentialItems.updateCredentialItem. rewrite Hid. cbn [negb].
  destruct (filter_find_some _ _ _ Hitem) as [rest ->].
  rewrite Hgate, Hpatch, E1, E2, E3, E4, E5. cbn [negb bindO fst].
  unfold CredentialItems.decrypted.
  cbn [CredentialItem.password_encrypted CredentialItem.notes_encrypted
       CredentialItem.card_number_encrypted CredentialItem.card_cvv_encrypted
       CredentialItem.license_key_encrypted].
  unfold update_item_secrets_kept in Hsecrets. rewrite !andb_true_iff in Hsecrets.
  destruct Hsecrets as ((((K1 & K2) & K3) & K4) & K5).
  rewrite V1, V2, V3, V4, V5. cbn.
  rewrite !read_back_patch_kept by assumption.
  now rewrite C1, C2, C3, C4, C5, C6, C7, C8, C9, C10, C11, C12, C13.
Qed.

Lemma updateCredentialItem_roundtrip_witness :
  exists r,
    fst (CredentialItems.updateCredentialItem (C := xorCipher) None
           (UpdateCredentialItemInput.mk 1 None None None None
              (Some (Some "new-secret")) (Some (Some "")) None None None None None None)
           2 Sample.ivs Sample.db) = Ok r
    /\ CredentialItem.password_encrypted r = Some "new-secret"
    /\ CredentialItem.notes_encrypted r = None
    /\ CredentialItem.title r = "Gmail Login".
Proof.
  destruct sample_ivs_length as (H1 & H2 & H3 & H4 & H5).
  eexists. split.
  - refine (updateCredentialItem_roundtrip xorCipher xorCipher_laws None
              default_key_length
              (UpdateCredentialItemInput.mk 1 None None None None
                 (Some (Some "new-secret")) (Some (Some "")) None None None None None
                 None)
              2 Sample.ivs Sample.db _ _ H1 H2 H3 H4 H5 eq_refl eq_refl eq_refl
              eq_refl eq_refl eq_refl _ eq_refl).
    vm_compute. reflexivity.
  - repeat split.
Defined.

(** ** Deleting, listing and searching items *)



Lemma mapO_Forall2 {A B : Type} (f : A -> Outcome B) (l : list A) (res : list B) :
  mapO f l = Ok res <-> Forall2 (fun x r => f x = Ok r) l res.
Proof.
  revert res. induction l as [|a l IH]; intros res; simpl.
  - split.
    + intros [= <-]. constructor.
    + intros H. inversion H. reflexivity.
  - split.
    + destruct (f a) as [b|m] eqn:Fa; simpl; [|discriminate].
      destruct (mapO f l) as [bs|m] eqn:Fl; simpl; [|discriminate].
      intros [= <-]. constructor; [assumption|]. now apply IH.
    + intros H. inversion H as [|x r l' res' Hx Hrest]; subst.
      rewrite Hx. simpl. apply IH in Hrest. rewrite Hrest. reflexivity.
Qed.

Lemma Forall2_impl {A B : Type} (P Q : A -> B -> Prop) (l : list A) (res : list B) :
  (forall x r, P x r -> Q x r) -> Forall2 P l res -> Forall2 Q l res.
Proof. intros H F. induction F; constructor; auto. Qed.

Lemma mapO_views (C : BlockCipher) (env_key : option string)
  (l res : list CredentialItem.t) :
  mapO (CredentialItems.decrypted env_key) l = Ok res
  <-> Forall2 (decrypted_view env_key) l res.
Proof.
  rewrite mapO_Forall2. split; apply Forall2_impl; intros x r; apply decrypted_ok_iff.
Qed.

(** X22. [getItemsByVault vaultId caller] throws "Insufficient permissions
    for vault" unless the caller passes the read gate.  For a caller who
    does, it returns the rows of the vault in table order, each as its
    decrypted view, and it returns at all only when every row of the vault
    decrypts: one stored value that does not makes the whole listing fail.
    A search that names the vault and nothing else is the same listing. *)
Theorem getItemsByVault_spec (C : BlockCipher) (env_key : option string)
  (vaultId caller : Z) (db : DB) :
  (CredentialItems.checkVaultPermission vaultId caller read db = false ->
   CredentialItems.getItemsByVault env_key vaultId caller db
   = Throw "Insufficient permissions for vault")
  /\ (CredentialItems.checkVaultPermission vaultId caller read db = true ->
      (forall res,
          CredentialItems.getItemsByVault env_key vaultId caller db = Ok res
          <-> Forall2 (decrypted_view env_key)
                (filter (fun i => CredentialItem.vault_id i =? vaultId)
                        (credentialItemsTable db))
                res)
      /\ ((exists res, CredentialItems.getItemsByVault env_key vaultId caller db = Ok res)
          <-> forall i, In i (credentialItemsTable db) ->
                        CredentialItem.vault_id i = vaultId ->
                        exists r, CredentialItems.decrypted env_key i = Ok r))
  /\ (forall ilike,
        CredentialItems.searchItems env_key ilike
          (SearchItemsInput.mk (Some vaultId) None None None) caller db
        = CredentialItems.getItemsByVault env_key vaultId caller db).
Proof.
  unfold CredentialItems.getItemsByVault.
  split; [intros ->; reflexivity|].
  split.
  - intros ->. cbn [negb]. split; [intros res; apply mapO_views|].
    split.
    + intros [res Hres] i Hi Hv.
      destruct (mapO_ok_sound _ _ _ Hres) as [_ H].
      destruct (H i) as (r & _ & Hr); [|now exists r].
      apply filter_In. split; [assumption|]. now apply Z.eqb_eq.
    + intros H. apply mapO_total. intros i Hi. apply filter_In in Hi.
      destruct Hi as [Hi Hv]. apply (H i Hi). now apply Z.eqb_eq.
  - intros ilike. unfold CredentialItems.searchItems.
    cbn [SearchItemsInput.vault_id].
    destruct (CredentialItems.checkVaultPermission vaultId caller read db);
      [|reflexivity].
    cbn [negb]. rewrite run_query_filter. f_equal. apply filter_ext.
    intros i. cbn. now rewrite andb_true_r.
Qed.

Lemma item_matches_iff (ilike : string -> string -> bool)
  (input : SearchItemsInput.t) (i : CredentialItem.t) :
  item_matches ilike input i = true
  <-> (forall c, SearchItemsInput.category_id input = Some c ->
                 CredentialItem.category_id i = c)
      /\ (forall ty, SearchItemsInput.type input = Some ty ->
                     CredentialItem.type i = ty)
      /\ (forall q, SearchItemsInput.query input = Some q ->
                    trim q <> EmptyString ->
                    ilike (CredentialItem.title i)
                      (String.append "%" (String.append (trim q) "%")) = true).
Proof.
  unfold item_matches. rewrite !forallb_app, !andb_true_iff.
  unfold CredentialItems.category_conditions, CredentialItems.type_conditions,
    CredentialItems.query_conditions.
  assert (Hc : forallb (fun c => c i)
                 match SearchItemsInput.category_id input with
                 | None => []
                 | Some None =>
                     [fun i => match CredentialItem.category_id i with
                               | None => true
                               | Some _ => false
                               end]
                 | Some (Some c) =>
                     [fun i => match CredentialItem.category_id i with
                               | Some c' => c' =? c
                               | None => false
                               end]
                 end = true
               <-> forall c, SearchItemsInput.category_id input = Some c ->
                             CredentialItem.category_id i = c).
  { destruct (SearchItemsInput.category_id input) as [[c|]|]; cbn.
    - rewrite andb_true_r.
      destruct (CredentialItem.category_id i) as [c'|].
      + rewrite Z.eqb_eq. split; [intros -> ? [= <-]; reflexivity|].
        intros H. specialize (H _ eq_refl). congruence.
      + split; [discriminate|]. intros H. specialize (H _ eq_refl). discriminate.
    - rewrite andb_true_r. destruct (CredentialItem.category_id i).
      + split; [discriminate|]. intros H. specialize (H _ eq_refl). discriminate.
      + split; [intros _ ? [= <-]; reflexivity | reflexivity].
    - split; [discriminate | reflexivity]. }
  assert (Ht : forallb (fun c => c i)
                 match SearchItemsInput.type input with
                 | None => []
                 | Some ty => [fun i => ItemType_eqb (CredentialItem.type i) ty]
                 end = true
               <-> forall ty, SearchItemsInput.type input = Some ty ->
                              CredentialItem.type i = ty).
  { destruct (SearchItemsInput.type input) as [ty|]; cbn.
    - rewrite andb_true_r. split.
      + intros H ? [= <-]. now destruct (CredentialItem.type i), ty.
      + intros H. rewrite (H _ eq_refl). now destruct ty.
    - split; [discriminate | reflexivity]. }
  assert (Hq : forallb (fun c => c i)
                 match SearchItemsInput.query input with
                 | None => []
                 | Some q =>
                     if String.eqb (trim q) EmptyString then []
                     else
                       [fun i => ilike (CredentialItem.title i)
                                   (String.append "%" (String.append (trim q) "%"))]
                 end = true
               <-> forall q, SearchItemsInput.query input = Some q ->
                             trim q <> EmptyString ->
                             ilike (CredentialItem.title i)
                               (String.append "%" (String.append (trim q) "%")) = true).
  { destruct (SearchItemsInput.query input) as [q|]; [|split; [discriminate | reflexivity]].
    destruct (String.eqb_spec (trim q) EmptyString) as [e|ne]; cbn.
    - split; [|reflexivity]. intros _ ? [= <-] Hne. contradiction.
    - rewrite andb_true_r. split; [intros H ? [= <-] _; exact H|].
      intros H. now apply H. }
  rewrite Hc, Ht, Hq. reflexivity.
Qed.

(** X23. A search that names a vault throws "Insufficient permissions for
    vault" unless the caller passes the read gate on it, whoever owns the
    vault.  For a caller (id within int4) who does, a category id within
    int4 and a query without U+0000 and without a surrogate alone, the
    result is exactly the decrypted views, in table order, of the rows the
    filter asks for: the rows of that vault; with the category of the filter
    when it has one ([null] asking for the rows without category); with the
    type of the filter when it has one; and, when the filter has a query
    that is not empty once trimmed, with a title that is [ILIKE] the trimmed
    query between two [%]. *)
Theorem searchItems_with_vault_spec (C : BlockCipher) (env_key : option string)
  (ilike : string -> string -> bool)
  (input : SearchItemsInput.t) (vaultId caller : Z) (db : DB)
  (Hvault : SearchItemsInput.vault_id input = Some vaultId)
  (Hcaller : in_int4 caller = true)
  (Hcategory : match SearchItemsInput.category_id input with
               | Some c => in_int4_opt c
               | None => true
               end = true)
  (Hquery : text_kept_opt (SearchItemsInput.query input) = true) :
  let asked := fun i : CredentialItem.t =>
    CredentialItem.vault_id i = vaultId
    /\ (forall c, SearchItemsInput.category_id input = Some c ->
                  CredentialItem.category_id i = c)
    /\ (forall ty, SearchItemsInput.type input = Some ty ->
                   CredentialItem.type i = ty)
    /\ (forall q, SearchItemsInput.query input = Some q ->
                  trim q <> EmptyString ->
                  ilike (CredentialItem.title i)
                    (String.append "%" (String.append (trim q) "%")) = true) in
  (CredentialItems.checkVaultPermission vaultId caller read db = false ->
   CredentialItems.searchItems env_key ilike input caller db
   = Throw "Insufficient permissions for vault")
  /\ (CredentialItems.checkVaultPermission vaultId caller read db = true ->
      forall selects : CredentialItem.t -> bool,
        (forall i, selects i = true <-> asked i) ->
        forall res,
          CredentialItems.searchItems env_key ilike input caller db = Ok res
          <-> Forall2 (decrypted_view env_key)
                (filter selects (credentialItemsTable db))
                res).
Proof.
  cbv zeta. unfold CredentialItems.searchItems. rewrite Hvault.
  split; [intros ->; reflexivity|].
  intros ->. cbn [negb]. intros selects Hselects res.
  rewrite run_query_filter.
  change (forallb (fun c => c ?i)
            (CredentialItems.category_conditions input
               ++ CredentialItems.type_conditions input
               ++ CredentialItems.query_conditions ilike input))
    with (item_matches ilike input i).
  rewrite (filter_ext selects
             (fun i => (CredentialItem.vault_id i =? vaultId)
                       && item_matches ilike input i)).
  - apply mapO_views.
  - intros i. apply eq_true_iff_eq. rewrite Hselects, andb_true_iff, Z.eqb_eq.
    now rewrite item_matches_iff.
Qed.

Lemma searchItems_with_vault_spec_witness :
  Forall2 (decrypted_view (C := xorCipher) None)
    (filter (fun i => (CredentialItem.vault_id i =? 1)
                      && item_matches ilike_ascii
                           (SearchItemsInput.mk (Some 1) None (Some password)
                              (Some " GMAIL ")) i)
            (credentialItemsTable Sample.db))
    [ CredentialItem.mk 1 "Gmail Login" password 1 (Some 1)
        (Some "https://example.com") (Some "alice") (Some "secret123")
        None None None None None None None 1 40 40 ]
  /\ CredentialItems.searchItems (C := xorCipher) None ilike_ascii
       (SearchItemsInput.mk (Some 2) None None None) 3 Sample.db
     = Throw "Insufficient permissions for vault".
Proof.
  split.
  - pose proof (proj2 (searchItems_with_vault_spec xorCipher None ilike_ascii
                         (SearchItemsInput.mk (Some 1) None (Some password)
                            (Some " GMAIL "))
                         1 3 Sample.db eq_refl eq_refl eq_refl eq_refl) eq_refl
                  (fun i => (CredentialItem.vault_id i =? 1)
                            && item_matches ilike_ascii
                                 (SearchItemsInput.mk (Some 1) None (Some password)
                                    (Some " GMAIL ")) i)) as H.
    apply H.
    + intros i. rewrite andb_true_iff, Z.eqb_eq. now rewrite item_matches_iff.
    + vm_compute. reflexivity.
  - exact (proj1 (searchItems_with_vault_spec xorCipher None ilike_ascii
                    (SearchItemsInput.mk (Some 2) None None None)
                    2 3 Sample.db eq_refl eq_refl eq_refl eq_refl) eq_refl).
Defined.

(** ** Categories *)

Lemma categories_gate_frame (vaultId userId : Z) (required : VaultPermission)
  (db db' : DB) :
  vaultsTable db' = vaultsTable db ->
  vaultUserPermissionsTable db' = vaultUserPermissionsTable db ->
  Categories.checkVaultPermission vaultId userId required db'
  = Categories.checkVaultPermission vaultId userId required db.
Proof.
  intros Hv Hp. unfold Categories.checkVaultPermission. now rewrite Hv, Hp.
Qed.

Lemma categories_gate_read_of_write (vaultId userId : Z) (db : DB) :
  Categories.checkVaultPermission vaultId userId write db = true ->
  Categories.checkVaultPermission vaultId userId read db = true.
Proof.
  rewrite !gate_rank_categories. intros H.
  apply Nat.leb_le in H. apply Nat.leb_le. cbn in *. lia.
Qed.

Section OrderedProofs.

Variable name_le : string -> string -> bool.

Lemma insert_by_name_perm (c : Category.t) (l : list Category.t) :
  Permutation (c :: l) (Categories.insert_by_name name_le c l).
Proof.
  induction l as [|x l IH]; cbn [Categories.insert_by_name]; [reflexivity|].
  destruct (name_le (Category.name c) (Category.name x)); [reflexivity|].
  rewrite perm_swap. now constructor.
Qed.

Lemma orderBy_name_perm (l : list Category.t) :
  Permutation l (Categories.orderBy_name name_le l).
Proof.
  induction l as [|c l IH]; [reflexivity|].
  cbn [Categories.orderBy_name fold_right].
  rewrite <- insert_by_name_perm. now constructor.
Qed.

Hypothesis name_le_total : forall a b, name_le a b = true \/ name_le b a = true.

Lemma insert_by_name_sorted (c : Category.t) (l : list Category.t) :
  Sorted (fun a b => name_le (Category.name a) (Category.name b) = true) l ->
  Sorted (fun a b => name_le (Category.name a) (Category.name b) = true)
    (Categories.insert_by_name name_le c l).
Proof.
  induction l as [|x l IH]; intros Hs; cbn [Categories.insert_by_name].
  - repeat constructor.
  - destruct (name_le (Category.name c) (Category.name x)) eqn:Hcx.
    + constructor; [assumption|]. now constructor.
    + inversion Hs as [|? ? Hl Hhd]; subst.
      constructor; [now apply IH|].
      destruct l as [|y l']; cbn [Categories.insert_by_name].
      * constructor. destruct (name_le_total (Category.name c) (Category.name x));
          [congruence | assumption].
      * destruct (name_le (Category.name c) (Category.name y)).
        -- constructor. destruct (name_le_total (Category.name c) (Category.name x));
             [congruence | assumption].
        -- inversion Hhd; subst. now constructor.
Qed.

Lemma orderBy_name_sorted (l : list Category.t) :
  Sorted (fun a b => name_le (Category.name a) (Category.name b) = true)
    (Categories.orderBy_name name_le l).
Proof.
  induction l as [|c l IH]; [constructor|].
  cbn [Categories.orderBy_name fold_right]. now apply insert_by_name_sorted.
Qed.

End OrderedProofs.

(** X25. [getCategoriesByVault vaultId caller] throws "Insufficient
    permissions to access this vault" unless the caller passes the read
    gate.  For a caller who does, and a total order on names, it returns the
    categories of the vault and nothing else, each as often as it is stored,
    in ascending order of name. *)
Theorem getCategoriesByVault_spec (name_le : string -> string -> bool)
  (name_le_total : forall a b, name_le a b = true \/ name_le b a = true)
  (vaultId caller : Z) (db : DB) :
  if Categories.checkVaultPermission vaultId caller read db
  then
    exists res,
      Categories.getCategoriesByVault name_le vaultId caller db = Ok res
      /\ Permutation
           (filter (fun c => Category.vault_id c =? vaultId) (categoriesTable db)) res
      /\ Sorted (fun a b => name_le (Category.name a) (Category.name b) = true) res
      /\ (forall c, In c res <-> In c (categoriesTable db) /\ Category.vault_id c = vaultId)
  else
    Categories.getCategoriesByVault name_le vaultId caller db
    = Throw "Insufficient permissions to access this vault".
Proof.
  unfold Categories.getCategoriesByVault.
  destruct (Categories.checkVaultPermission vaultId caller read db); [|reflexivity].
  cbn [negb]. eexists. split; [reflexivity|].
  split; [apply orderBy_name_perm|].
  split; [now apply orderBy_name_sorted|].
  intros c. split.
  - intros Hc. apply (Permutation_in _ (Permutation_sym (orderBy_name_perm name_le _)))
      in Hc.
    apply filter_In in Hc. destruct Hc as [Hc Hv]. split; [assumption|].
    now apply Z.eqb_eq.
  - intros [Hc Hv]. apply (Permutation_in _ (orderBy_name_perm name_le _)).
    apply filter_In. split; [assumption|]. now apply Z.eqb_eq.
Qed.

Lemma getCategoriesByVault_spec_witness :
  exists res,
    Categories.getCategoriesByVault String.leb 1 3 Sample.db = Ok res
    /\ Permutation
         (filter (fun c => Category.vault_id c =? 1) (categoriesTable Sample.db)) res
    /\ Sorted (fun a b => String.leb (Category.name a) (Category.name b) = true) res
    /\ (forall c, In c res <-> In c (categoriesTable Sample.db) /\ Category.vault_id c = 1).
Proof.
  exact (getCategoriesByVault_spec String.leb String.leb_total 1 3 Sample.db).
Defined.

(** X26. Create, then read.  When the caller (id within int4) passes the
    write gate on the vault, the name, description and colour hold no U+0000
    and no surrogate without its partner, and the category ids in use are
    below a sequence that has room for one more id within int4,
    [createCategory] returns a row with the next id, the input's name,
    description, colour and vault, and both timestamps at the clock; the
    other rows and tables are as before; the caller then reads the same row
    back with [getCategoryById] and finds it in [getCategoriesByVault] of
    the vault.  (The store's rejection of a text with U+0000 is outside this
    model.) *)
Theorem createCategory_then_getCategoryById (input : CreateCategoryInput.t)
  (caller now : Z) (db : DB)
  (Hfresh : forall c, In c (categoriesTable db) -> Category.id c < categories_id_seq db)
  (Hgate : Categories.checkVaultPermission
             (CreateCategoryInput.vault_id input) caller write db = true)
  (Hcaller : in_int4 caller = true)
  (Hname : text_kept (CreateCategoryInput.name input) = true)
  (Hdescription : text_kept_opt (CreateCategoryInput.description input) = true)
  (Hcolor : text_kept_opt (CreateCategoryInput.color input) = true)
  (Hroom : in_int4 (categories_id_seq db) = true) :
  let row :=
    Category.mk (categories_id_seq db) (CreateCategoryInput.name input)
      (CreateCategoryInput.description input) (CreateCategoryInput.color input)
      (CreateCategoryInput.vault_id input) now now in
  exists db',
    Categories.createCategory input caller now db = (Ok row, db')
    /\ categoriesTable db' = categoriesTable db ++ [row]
    /\ categories_id_seq db' = categories_id_seq db + 1
    /\ vaultsTable db' = vaultsTable db
    /\ credentialItemsTable db' = credentialItemsTable db
    /\ vaultUserPermissionsTable db' = vaultUserPermissionsTable db
    /\ usersTable db' = usersTable db
    /\ Categories.getCategoryById (categories_id_seq db) caller db' = Ok (Some row)
    /\ (forall name_le,
          exists res,
            Categories.getCategoriesByVault name_le
              (CreateCategoryInput.vault_id input) caller db' = Ok res
            /\ In row res).
Proof.
  cbv zeta. unfold Categories.createCategory. rewrite Hgate. cbn [negb].
  eexists. split; [reflexivity|]. cbn [categoriesTable categories_id_seq vaultsTable
    credentialItemsTable vaultUserPermissionsTable usersTable set_categoriesTable].
  repeat (split; [reflexivity|]).
  apply categories_gate_read_of_write in Hgate.
  split.
  - unfold Categories.getCategoryById. rewrite Hroom. cbn [negb].
    cbn [categoriesTable set_categoriesTable].
    rewrite filter_app, (filter_none_lt _ _ _ Hfresh).
    cbn [filter Category.id app firstn]. rewrite Z.eqb_refl. cbn [firstn Category.vault_id].
    rewrite (categories_gate_frame _ _ _ db) by reflexivity.
    now rewrite Hgate.
  - intros name_le. unfold Categories.getCategoriesByVault.
    rewrite (categories_gate_frame _ _ _ db) by reflexivity.
    rewrite Hgate. cbn [negb]. eexists. split; [reflexivity|].
    apply (Permutation_in _ (orderBy_name_perm name_le _)).
    apply filter_In. cbn [categoriesTable set_categoriesTable Category.vault_id].
    split; [apply in_app_iff; right; now left | apply Z.eqb_refl].
Qed.

Lemma createCategory_then_getCategoryById_witness :
  Categories.getCategoryById 9 2
    (snd (Categories.createCategory
            (CreateCategoryInput.mk "Travel" (Some "Trips") (Some "#000000") 1)
            2 50 Sample.db))
  = Ok (Some (Category.mk 9 "Travel" (Some "Trips") (Some "#000000") 1 50 50)).
Proof.
  destruct sample_consistent as ((_ & _ & (Hlt & _) & _) & _).
  destruct (createCategory_then_getCategoryById
              (CreateCategoryInput.mk "Travel" (Some "Trips") (Some "#000000") 1)
              2 50 Sample.db Hlt eq_refl eq_refl eq_refl eq_refl eq_refl eq_refl)
    as (db' & Hc & _ & _ & _ & _ & _ & _ & Hget & _).
  rewrite Hc. exact Hget.
Defined.

(** ** Users and sessions *)



Section UserRows.

Context {C : BlockCipher}.
Variable env_key : option string.
Variable sha256_hex : string -> string.

Lemma run_users_frame (c : System.Call) (db : DB) :
  (exists input salt now, c = System.CreateUser input salt now)
  \/ (exists input now, c = System.UpdateUser input now)
  \/ (exists id now, c = System.DeleteUser id now)
  \/ usersTable (System.run env_key sha256_hex c db) = usersTable db.
Proof.
  destruct c; cbn [System.run].
  all: try (left; repeat eexists; fail).
  all: try (right; left; repeat eexists; fail).
  all: try (right; right; left; repeat eexists; fail).
  all: right; right; right.
  - unfold Vaults.createVault. reflexivity.
  - unfold Vaults.updateVault. break_match; reflexivity.
  - unfold Vaults.deleteVault. break_match; reflexivity.
  - unfold Categories.createCategory. break_match; reflexivity.
  - unfold Categories.updateCategory. break_match; reflexivity.
  - unfold Categories.deleteCategory. break_match; reflexivity.
  - unfold CredentialItems.createCredentialItem. break_match; reflexivity.
  - unfold CredentialItems.updateCredentialItem. break_match; reflexivity.
  - unfold CredentialItems.deleteCredentialItem. break_match; reflexivity.
  - unfold VaultPermissions.createVaultPermission. break_match; reflexivity.
  - unfold VaultPermissions.updateVaultPermission. break_match; reflexivity.
  - unfold VaultPermissions.revokeVaultPermission. break_match; reflexivity.
Qed.

Lemma run_user_row_stable (c : System.Call) (db : DB) (u : User.t) :
  In u (usersTable db) ->
  exists u',
    In u' (usersTable (System.run env_key sha256_hex c db))
    /\ User.id u' = User.id u
    /\ User.password_hash u' = User.password_hash u
    /\ User.created_at u' = User.created_at u.
Proof.
  intros Hu.
  destruct (run_users_frame c db)
    as [(input & salt & now & ->)|[(input & now & ->)|[(id & now & ->)|Hsame]]].
  - cbn [System.run]. unfold Users.createUser.
    destruct (existsb _ (usersTable db)); cbn [snd usersTable set_usersTable].
    + now exists u.
    + exists u. split; [|now repeat split]. apply in_app_iff. now left.
  - cbn [System.run]. unfold Users.updateUser.
    break_match; cbn [snd usersTable set_usersTable]; try (now exists u).
    all: eexists; split; [apply update_rows_in; exact Hu|];
      destruct (User.id u =? UpdateUserInput.id input); now repeat split.
  - cbn [System.run]. unfold Users.deleteUser.
    break_match; cbn [snd usersTable set_usersTable]; try (now exists u).
    eexists. split; [apply update_rows_in; exact Hu|].
    destruct (User.id u =? id); now repeat split.
  - rewrite Hsame. now exists u.
Qed.

End UserRows.

(** X28. No sequence of calls removes a user row or changes its id, its
    password hash or its creation time: for a row of the user table there
    is, in every later state, a row of the user table with the same three
    values.  In particular no handler can change a password. *)
Theorem user_row_is_kept (C : BlockCipher) (env_key : option string)
  (sha256_hex : string -> string) (calls : list System.Call) (db : DB)
  (u : User.t)
  (Hrow : In u (usersTable db)) :
  exists u',
    In u' (usersTable (System.runAll env_key sha256_hex calls db))
    /\ User.id u' = User.id u
    /\ User.password_hash u' = User.password_hash u
    /\ User.created_at u' = User.created_at u.
Proof.
  revert db u Hrow. induction calls as [|c calls IH]; intros db u Hrow.
  - now exists u.
  - cbn [System.runAll fold_left].
    destruct (run_user_row_stable env_key sha256_hex c db u Hrow)
      as (u1 & H1 & Hid & Hhash & Hat).
    destruct (IH _ u1 H1) as (u' & H' & Hid' & Hhash' & Hat').
    exists u'. split; [exact H'|]. repeat split; congruence.
Qed.

Lemma user_row_is_kept_witness :
  Forall
    (fun u =>
       exists u',
         In u'
           (usersTable
              (System.runAll (C := xorCipher) None Sample.digest
                 [ System.UpdateUser
                     (UpdateUserInput.mk 2 (Some "bob@example.org") None
                        (Some role_admin) None)
                     60;
                   System.DeleteUser 2 61 ]
                 Sample.db))
         /\ User.id u' = User.id u
         /\ User.password_hash u' = User.password_hash u
         /\ User.created_at u' = User.created_at u)
    (usersTable Sample.db).
Proof.
  apply Forall_forall. intros u Hu.
  exact (user_row_is_kept xorCipher None Sample.digest
           [ System.UpdateUser
               (UpdateUserInput.mk 2 (Some "bob@example.org") None (Some role_admin) None)
               60;
             System.DeleteUser 2 61 ]
           Sample.db u Hu).
Defined.

Lemma includes_char_append (c : ascii) (a b : string) :
  includes_char c (String.append a (String c b)) = true.
Proof.
  unfold includes_char. induction a as [|x a IH]; cbn.
  - now rewrite Ascii.eqb_refl.
  - cbn in IH. rewrite IH. apply orb_true_r.
Qed.

Lemma existsb_false_filter {A : Type} (f : A -> bool) (l : list A) :
  existsb f l = false -> filter f l = [].
Proof.
  induction l as [|a l IH]; [reflexivity|]. cbn.
  destruct (f a); [discriminate | exact IH].
Qed.

(** X29. A user made by [createUser] cannot log in.  [createUser] stores a
    SHA-256 digest (32 bytes) with a 16-byte salt as [hex:hex], while
    [login] checks such a value with [verifyPassword], which compares it
    against a 64-byte PBKDF2 key: in the store [createUser] leaves, [login]
    with the new user's e-mail throws the length error of
    [timingSafeEqual], whatever the password. *)
Theorem createUser_then_login_throws
  (sha256_hex : string -> string) (pbkdf2Sync : string -> bytes -> bytes)
  (createToken : Z -> string -> Z -> string) (plus24Hours : Z -> Z)
  (Hsha : forall s, exists digest,
            sha256_hex s = toString_hex digest /\ List.length digest = 32%nat)
  (Hpbkdf2 : forall password salt, List.length (pbkdf2Sync password salt) = 64%nat)
  (input : CreateUserInput.t) (saltBytes : bytes) (now : Z) (db db' : DB) (u : User.t)
  (Hsalt : List.length saltBytes = 16%nat)
  (Hcreated : Users.createUser sha256_hex input saltBytes now db = (Ok u, db')) :
  forall password t t',
    Auth.login sha256_hex pbkdf2Sync createToken plus24Hours
      (LoginInput.mk (CreateUserInput.email input) password) t t' db'
    = Throw "Input buffers must have the same byte length".
Proof.
  unfold Users.createUser in Hcreated.
  destruct (existsb _ (usersTable db)) eqn:Hnew; [discriminate|].
  injection Hcreated as _ <-. intros password t t'.
  unfold Auth.login. cbn [usersTable set_usersTable LoginInput.email LoginInput.password].
  rewrite filter_app, (existsb_false_filter _ _ Hnew).
  cbn [filter app User.email]. rewrite String.eqb_refl.
  cbn [User.is_active negb User.password_hash].
  destruct (Hsha (String.append (CreateUserInput.password input) (toString_hex saltBytes)))
    as (digest & -> & Hlen).
  rewrite includes_char_append, split_hex_prefix, split_hex. cbn [nth].
  destruct saltBytes as [|s0 salt']; [discriminate Hsalt|].
  cbn [toString_hex String.eqb]. cbn [negb].
  unfold Auth.verifyPassword, timingSafeEqual.
  rewrite from_hex_toString_hex, Hpbkdf2, Hlen. reflexivity.
Qed.

Lemma createUser_then_login_throws_witness :
  Auth.login (fun _ => toString_hex (repeat "a"%char 32))
    (fun _ _ => repeat "b"%char 64) (fun _ _ _ => "token") (fun d => d)
    (LoginInput.mk "dave@example.com" "pw-dave-4") 80 80
    (snd (Users.createUser (fun _ => toString_hex (repeat "a"%char 32))
            (CreateUserInput.mk "dave@example.com" "Dave" role_user "pw-dave-4")
            (Sample.iv "v") 70 Sample.db))
  = Throw "Input buffers must have the same byte length".
Proof.
  refine (createUser_then_login_throws (fun _ => toString_hex (repeat "a"%char 32))
            (fun _ _ => repeat "b"%char 64) (fun _ _ _ => "token") (fun d => d)
            _ _
            (CreateUserInput.mk "dave@example.com" "Dave" role_user "pw-dave-4")
            (Sample.iv "v") 70 Sample.db _ _ eq_refl eq_refl "pw-dave-4" 80 80).
  - intros s. exists (repeat "a"%char 32). split; reflexivity.
  - intros password salt. reflexivity.
Defined.

Lemma blacklist_add_has (bl : Auth.TokenBlacklist) (t : string) :
  Auth.blacklist_has (Auth.blacklist_add bl t) t = true.
Proof.
  unfold Auth.blacklist_add. destruct (Auth.blacklist_has bl t) eqn:H; [assumption|].
  unfold Auth.blacklist_has. rewrite existsb_app. cbn.
  rewrite String.eqb_refl. apply orb_true_r.
Qed.

Lemma blacklist_add_keeps (bl : Auth.TokenBlacklist) (t t' : string) :
  Auth.blacklist_has bl t' = true ->
  Auth.blacklist_has (Auth.blacklist_add bl t) t' = true.
Proof.
  intros H. unfold Auth.blacklist_add. destruct (Auth.blacklist_has bl t); [assumption|].
  unfold Auth.blacklist_has in *. rewrite existsb_app, H. reflexivity.
Qed.

Lemma blacklist_add_other (bl : Auth.TokenBlacklist) (t t' : string) :
  t' <> t ->
  Auth.blacklist_has (Auth.blacklist_add bl t) t' = Auth.blacklist_has bl t'.
Proof.
  intros Hne. unfold Auth.blacklist_add. destruct (Auth.blacklist_has bl t); [reflexivity|].
  unfold Auth.blacklist_has. rewrite existsb_app. cbn.
  destruct (String.eqb_spec t' t) as [e|_]; [contradiction|].
  now rewrite !orb_false_r.
Qed.

Lemma logouts_keep (others : list string) (bl : Auth.TokenBlacklist) (t : string) :
  Auth.blacklist_has bl t = true ->
  Auth.blacklist_has (fold_left (fun b x => snd (Auth.logout x b)) others bl) t = true.
Proof.
  revert bl. induction others as [|x others IH]; intros bl H; [assumption|].
  cbn [fold_left]. apply IH. cbn [Auth.logout snd]. now apply blacklist_add_keeps.
Qed.

(** X30. Logging out is final and local.  Once [logout] has been called
    with a token, [validateSession] answers [null] for it after any further
    logouts, at any time and over any store; the answer for every other
    token is what it was.  And whenever [validateSession] returns a user,
    the token is not on the blacklist, it verifies to that user's id, and
    the user is the first row with that id and is active. *)
Theorem logout_is_final (verifyToken : string -> Z -> option (Z * string))
  (token : string) (others : list string) (bl : Auth.TokenBlacklist)
  (now : Z) (db : DB) :
  Auth.validateSession verifyToken token now
    (fold_left (fun b x => snd (Auth.logout x b)) others (snd (Auth.logout token bl)))
    db = None
  /\ (forall t, t <> token ->
        Auth.validateSession verifyToken t now (snd (Auth.logout token bl)) db
        = Auth.validateSession verifyToken t now bl db)
  /\ (forall t u,
        Auth.validateSession verifyToken t now bl db = Some u ->
        Auth.blacklist_has bl t = false
        /\ (exists email, verifyToken t now = Some (User.id u, email))
        /\ find (fun x => User.id x =? User.id u) (usersTable db) = Some u
        /\ User.is_active u = true).
Proof.
  split.
  - unfold Auth.validateSession.
    rewrite logouts_keep; [reflexivity|]. cbn [Auth.logout snd]. apply blacklist_add_has.
  - split.
    + intros t Hne. unfold Auth.validateSession. cbn [Auth.logout snd].
      now rewrite blacklist_add_other.
    + intros t u. unfold Auth.validateSession.
      destruct (Auth.blacklist_has bl t); [discriminate|].
      destruct (verifyToken t now) as [[userId email]|]; [|discriminate].
      destruct (find (fun x => User.id x =? userId) (usersTable db)) as [u0|] eqn:Hf.
      * destruct (filter_find_some _ _ _ Hf) as [rest ->].
        destruct (User.is_active u0) eqn:Hact; [|discriminate].
        cbn [negb]. intros [= <-].
        apply find_some in Hf as Hu. destruct Hu as [_ Hid]. apply Z.eqb_eq in Hid.
        subst userId. split; [reflexivity|]. split; [now exists email|].
        split; [exact Hf | exact Hact].
      * rewrite (filter_find_none _ _ Hf). discriminate.
Qed.
